(** * OCS2 multiple-shooting SQP solver (ocs2_sqp/MultipleShootingSolver.cpp)

    A shallow embedding of [MultipleShootingSolver]: the filter line-search
    [takeStep], the performance reduction of [setupQuadraticSubproblem] and
    [computePerformance], the QP call [getOCPSolution] and the driver
    [runImpl] with its controller emission.

    Conventions.
    - [scalar_t] (a C++ [double]) is an arbitrary carrier with the operations
      the solver uses ([Scalar]); no arithmetic law is built in, so that the
      theorems hold for IEEE doubles ([Double]) as for exact rationals
      ([Rational]).  What holds in exact arithmetic only says so in a
      hypothesis, [ExactSum].
    - [vector_t] is a list of scalars; Eigen's dense matrices are an
      interface ([Dense]).
    - A call ends in one of four ways ([outcome]): it returns, it throws, it
      runs into undefined behaviour of C++ (an index past the end of a
      [std::vector], [front()]/[back()] of an empty one), or the model's
      fuel for the [while] loop of [takeStep] is used up.
    - The worker pool is sequentialised: an oracle [owner] says which worker
      claimed which node of which parallel region. *)

From Stdlib Require Import String.
From Stdlib Require Import List ZArith QArith Qabs Qround Bool Lia Lqa.
From Stdlib Require Floats.
Import ListNotations.
Open Scope list_scope.

Set Implicit Arguments.

(** ** Scalars *)

Class Scalar : Type := {
  scalar_t : Type;
  s_zero : scalar_t;
  s_one : scalar_t;
  s_add : scalar_t -> scalar_t -> scalar_t;
  s_sub : scalar_t -> scalar_t -> scalar_t;
  s_mul : scalar_t -> scalar_t -> scalar_t;
  s_abs : scalar_t -> scalar_t;
  s_sqrt : scalar_t -> scalar_t;
  s_ltb : scalar_t -> scalar_t -> bool;   (* operator< *)
  s_leb : scalar_t -> scalar_t -> bool    (* operator<=, used by statements only *)
}.

Declare Scope scalar_scope.
Delimit Scope scalar_scope with S.
Infix "+" := s_add : scalar_scope.
Infix "-" := s_sub : scalar_scope.
Infix "*" := s_mul : scalar_scope.
Infix "<?" := s_ltb : scalar_scope.
Infix "<=?" := s_leb : scalar_scope.
(* operator> of the source: [a > b] is [b < a] *)
Notation "a >? b" := (s_ltb b a) (at level 70, no associativity) : scalar_scope.

(** The sum is exact: associative, commutative, with [0] neutral. *)
Class ExactSum (S : Scalar) : Prop := {
  add_assoc : forall a b c : scalar_t, (a + (b + c))%S = (a + b + c)%S;
  add_comm : forall a b : scalar_t, (a + b)%S = (b + a)%S;
  add_0_l : forall a : scalar_t, (s_zero + a)%S = a
}.

(** ** Vectors and trajectories *)

Section Vectors.
Context {S : Scalar}.

Definition scalar_array_t := list scalar_t.
Definition vector_t := list scalar_t.
Definition vector_array_t := list vector_t.

(* Eigen's coefficient-wise sum and difference (operands of equal size). *)
Fixpoint v_add (a b : vector_t) : vector_t :=
  match a, b with
  | ai :: a', bi :: b' => (ai + bi)%S :: v_add a' b'
  | _, _ => []
  end.

Fixpoint v_sub (a b : vector_t) : vector_t :=
  match a, b with
  | ai :: a', bi :: b' => (ai - bi)%S :: v_sub a' b'
  | _, _ => []
  end.

Definition v_scale (alpha : scalar_t) (v : vector_t) : vector_t :=
  map (fun c => (alpha * c)%S) v.

(* vector_t::Zero(n) *)
Definition v_Zero (n : nat) : vector_t := repeat s_zero n.

(* Eigen's squaredNorm(): the sum of the squared coefficients *)
Definition squaredNorm (v : vector_t) : scalar_t :=
  fold_left (fun acc c => (acc + c * c)%S) v s_zero.

(* Eigen's norm() *)
Definition v_norm (v : vector_t) : scalar_t := s_sqrt (squaredNorm v).

(* scalar_t MultipleShootingSolver::trajectoryNorm(const vector_array_t& v) *)
Definition trajectoryNorm (v : vector_array_t) : scalar_t :=
  let norm := fold_left (fun norm vi => (norm + squaredNorm vi)%S) v s_zero in
  s_sqrt norm.

End Vectors.

(** ** Dense matrices (Eigen) *)

Class Dense (S : Scalar) : Type := {
  matrix_t : Type;
  m_empty : matrix_t;                           (* default-constructed, 0 x 0 *)
  m_cols : matrix_t -> nat;                     (* cols() *)
  m_add : matrix_t -> matrix_t -> matrix_t;     (* A + B *)
  m_mul : matrix_t -> matrix_t -> matrix_t;     (* A * B *)
  m_vec : matrix_t -> vector_t -> vector_t      (* A * v *)
}.

(** ** Performance index *)

Section Performance.
Context {S : Scalar}.

Record PerformanceIndex : Type := {
  merit : scalar_t;
  totalCost : scalar_t;
  stateEqConstraintISE : scalar_t;
  stateInputEqConstraintISE : scalar_t;
  inequalityConstraintISE : scalar_t;
  inequalityConstraintPenalty : scalar_t
}.

(** Modelled from the spec: [PerformanceIndex], which OCS2 declares outside
    MultipleShootingSolver.cpp: the six fields of section 3, all zero when
    default-constructed, and [operator+=] summing field by field
    ("Reduce performance indices by summation"). *)
Definition PerformanceIndex_default : PerformanceIndex :=
  {| merit := s_zero; totalCost := s_zero; stateEqConstraintISE := s_zero;
     stateInputEqConstraintISE := s_zero; inequalityConstraintISE := s_zero;
     inequalityConstraintPenalty := s_zero |}.

Definition PerformanceIndex_plus (a b : PerformanceIndex) : PerformanceIndex :=
  {| merit := (merit a + merit b)%S;
     totalCost := (totalCost a + totalCost b)%S;
     stateEqConstraintISE := (stateEqConstraintISE a + stateEqConstraintISE b)%S;
     stateInputEqConstraintISE :=
       (stateInputEqConstraintISE a + stateInputEqConstraintISE b)%S;
     inequalityConstraintISE :=
       (inequalityConstraintISE a + inequalityConstraintISE b)%S;
     inequalityConstraintPenalty :=
       (inequalityConstraintPenalty a + inequalityConstraintPenalty b)%S |}.

Definition set_stateEqConstraintISE (p : PerformanceIndex) (v : scalar_t) :=
  {| merit := merit p; totalCost := totalCost p; stateEqConstraintISE := v;
     stateInputEqConstraintISE := stateInputEqConstraintISE p;
     inequalityConstraintISE := inequalityConstraintISE p;
     inequalityConstraintPenalty := inequalityConstraintPenalty p |}.

Definition set_merit (p : PerformanceIndex) (v : scalar_t) :=
  {| merit := v; totalCost := totalCost p;
     stateEqConstraintISE := stateEqConstraintISE p;
     stateInputEqConstraintISE := stateInputEqConstraintISE p;
     inequalityConstraintISE := inequalityConstraintISE p;
     inequalityConstraintPenalty := inequalityConstraintPenalty p |}.

(* std::sqrt(p.stateEqConstraintISE + p.stateInputEqConstraintISE
             + p.inequalityConstraintISE) *)
Definition constraintViolation (p : PerformanceIndex) : scalar_t :=
  s_sqrt (stateEqConstraintISE p + stateInputEqConstraintISE p
          + inequalityConstraintISE p)%S.

End Performance.

(** ** Blocks of the quadratic subproblem, settings, collaborators *)

Section Blocks.
Context {S : Scalar} {D : Dense S}.

(* VectorFunctionLinearApproximation: the constraint (projection) block and
   the dynamics block of a node *)
Record VectorFunctionLinearApproximation : Type := {
  f : vector_t;
  dfdx : matrix_t;
  dfdu : matrix_t
}.

(** Modelled from the spec: [HpipmInterface::OcpSize], declared with the
    HPIPM interface: "{N, n_state[0..N], n_input[0..N-1], n_ineq[0..N]}",
    built by [OcpSize(N, n_state, n_input)] with constant sizes and no
    inequality. *)
Record OcpSize : Type := {
  numStages : nat;
  numStates : list nat;
  numInputs : list nat;
  numIneqConstraints : list nat
}.

Definition OcpSize_make (N nx nu : nat) : OcpSize :=
  {| numStages := N; numStates := repeat nx (Datatypes.S N);
     numInputs := repeat nu N; numIneqConstraints := repeat 0%nat (Datatypes.S N) |}.

(* hpipm_status *)
Inductive hpipm_status : Type :=
  | SUCCESS | MAX_ITER | MIN_STEP | NAN_SOL | INCONS_EQ.

Definition hpipm_status_eqb (a b : hpipm_status) : bool :=
  match a, b with
  | SUCCESS, SUCCESS | MAX_ITER, MAX_ITER | MIN_STEP, MIN_STEP
  | NAN_SOL, NAN_SOL | INCONS_EQ, INCONS_EQ => true
  | _, _ => false
  end.

(* ModeSchedule *)
Record ModeSchedule : Type := {
  modeSequence : list nat;
  eventTimes : scalar_array_t
}.

(* The fields of MultipleShootingSolver::Settings that the solver reads
   (the print switches and the thread priority have no effect on the model). *)
Record Settings : Type := {
  sqpIteration : nat;
  deltaTol : scalar_t;
  costTol : scalar_t;
  alpha_decay : scalar_t;
  alpha_min : scalar_t;
  gamma_c : scalar_t;
  g_max : scalar_t;
  g_min : scalar_t;
  dt : scalar_t;
  controllerFeedback : bool;
  projectStateInputEqualityConstraints : bool;
  n_state : nat;
  n_input : nat;
  nThreads : nat
}.

(* multiple_shooting::setupIntermediateNode's result *)
Record Transcription (CostBlock : Type) : Type := {
  tr_performance : PerformanceIndex;
  tr_dynamics : VectorFunctionLinearApproximation;
  tr_cost : CostBlock;
  tr_constraints : VectorFunctionLinearApproximation
}.

(* multiple_shooting::setupTerminalNode's result *)
Record TerminalTranscription (CostBlock : Type) : Type := {
  tt_performance : PerformanceIndex;
  tt_cost : CostBlock;
  tt_constraints : VectorFunctionLinearApproximation
}.

(** What the solver is built from and calls into.  All of it is defined
    outside MultipleShootingSolver.cpp, so each is a parameter:
    - the pointers handed to the constructor, as the tests the code makes on
      them ([constraintPtr_.front()], [terminalCostFunctionPtr_],
      [operatingTrajectoriesPtr_]);
    - [multiple_shooting::] time discretisation and node transcription
      (the evaluator clones of the workers are copies of one another, so a
      node's result does not depend on the worker);
    - [LinearInterpolation::interpolate];
    - the HPIPM interface, with its internal state;
    - [owner r i], the worker that claims node [i] in the [r]-th parallel
      region (a worker id, below [nThreads]). *)
Class Problem : Type := {
  CostBlock : Type;
  hasConstraint : bool;
  hasTerminalCost : bool;
  getSystemOperatingTrajectories :
    option (vector_t -> scalar_t -> scalar_t ->
            scalar_array_t * vector_array_t * vector_array_t);
  getModeSchedule : ModeSchedule;
  limitEpsilon : scalar_t;
  timeDiscretizationWithEvents :
    scalar_t -> scalar_t -> scalar_t -> scalar_array_t -> scalar_t -> scalar_array_t;
  interpolate : scalar_t -> scalar_array_t -> vector_array_t -> vector_t;
  setupIntermediateNode :
    bool -> scalar_t -> scalar_t -> vector_t -> vector_t -> vector_t ->
    Transcription CostBlock;
  setupTerminalNode : scalar_t -> vector_t -> TerminalTranscription CostBlock;
  computeIntermediatePerformance :
    scalar_t -> scalar_t -> vector_t -> vector_t -> vector_t -> PerformanceIndex;
  computeTerminalPerformance : scalar_t -> vector_t -> PerformanceIndex;
  HpipmInterface : Type;
  hpipm_resize : OcpSize -> HpipmInterface -> HpipmInterface;
  hpipm_solve :
    HpipmInterface -> vector_t -> list VectorFunctionLinearApproximation ->
    list CostBlock -> option (list VectorFunctionLinearApproximation) ->
    hpipm_status * vector_array_t * vector_array_t * HpipmInterface;
  getRiccatiFeedback :
    HpipmInterface -> VectorFunctionLinearApproximation -> CostBlock -> list matrix_t;
  owner : nat -> nat -> nat
}.

(** ** Solver state *)

(* ControllerBase: a FeedforwardController or a LinearController *)
Inductive Controller : Type :=
  | FeedforwardController (time : scalar_array_t) (uff : vector_array_t)
  | LinearController (time : scalar_array_t) (uff : vector_array_t)
                     (gain : list matrix_t).

Record PrimalSolution : Type := {
  timeTrajectory_ : scalar_array_t;
  stateTrajectory_ : vector_array_t;
  inputTrajectory_ : vector_array_t;
  modeSchedule_ : ModeSchedule;
  controllerPtr_ : option Controller
}.

Definition PrimalSolution_default : PrimalSolution :=
  {| timeTrajectory_ := []; stateTrajectory_ := []; inputTrajectory_ := [];
     modeSchedule_ := {| modeSequence := [0%nat]; eventTimes := [] |};
     controllerPtr_ := None |}.

Context {P : Problem}.

(* The data members of MultipleShootingSolver that runImpl reads or writes;
   [regions] counts the parallel regions run so far (it selects the scheduling
   oracle and is not a member of the class). *)
Record Solver : Type := {
  primalSolution_ : PrimalSolution;
  performanceIndeces_ : list PerformanceIndex;
  totalNumIterations_ : nat;
  dynamics_ : list VectorFunctionLinearApproximation;
  cost_ : list CostBlock;
  constraints_ : list VectorFunctionLinearApproximation;
  hpipmInterface_ : HpipmInterface;
  regions : nat
}.

(** ** Outcomes *)

Inductive outcome (A : Type) : Type :=
  | Ok (a : A) (s : Solver)          (* normal return *)
  | Throw (what : string) (s : Solver) (* a C++ exception leaves the call *)
  | UB                               (* undefined behaviour *)
  | OutOfFuel.                       (* the model's loop bound is used up *)
Arguments Throw {A} what s.
Arguments UB {A}.
Arguments OutOfFuel {A}.

Definition M (A : Type) : Type := Solver -> outcome A.

Definition ret {A} (a : A) : M A := fun s => Ok a s.

Definition bind {A B} (m : M A) (k : A -> M B) : M B :=
  fun s => match m s with
           | Ok a s' => k a s'
           | Throw e s' => Throw e s'
           | UB => UB
           | OutOfFuel => OutOfFuel
           end.

Definition throw {A} (what : string) : M A := fun s => Throw what s.
Definition undefined {A} : M A := fun _ => UB.
Definition get : M Solver := fun s => Ok s s.

(* What a call has returned, if it has *)
Definition returned {A} (o : outcome A) : option A :=
  match o with
  | Ok a _ => Some a
  | _ => None
  end.

(* v[i] of a std::vector: undefined past the end *)
Definition at_ {A} (v : list A) (i : nat) : M A :=
  match nth_error v i with
  | Some a => ret a
  | None => undefined
  end.

(* v.front(), v.back(): undefined on an empty vector *)
Definition front {A} (v : list A) : M A := at_ v 0.
Definition back {A} (v : list A) : M A :=
  match rev v with
  | a :: _ => ret a
  | [] => undefined
  end.

(* v[i] = a of a std::vector: undefined past the end *)
Fixpoint assign {A} (v : list A) (i : nat) (a : A) : option (list A) :=
  match v, i with
  | [], _ => None
  | _ :: v', O => Some (a :: v')
  | b :: v', Datatypes.S i' => option_map (cons b) (assign v' i' a)
  end.

Definition assign_ {A} (v : list A) (i : nat) (a : A) : M (list A) :=
  match assign v i a with
  | Some v' => ret v'
  | None => undefined
  end.

End Blocks.

Arguments Throw {S D P A} what s.
Arguments UB {S D P A}.
Arguments OutOfFuel {S D P A}.

Notation "x <- c1 ;; c2" := (bind c1 (fun x => c2))
  (at level 61, c1 at next level, right associativity).
Notation "' pat <- c1 ;; c2" := (bind c1 (fun x => match x with pat => c2 end))
  (at level 61, pat pattern, c1 at next level, right associativity).
Notation "c1 ;;; c2" := (bind c1 (fun _ => c2))
  (at level 61, right associativity).

(** ** The solver *)

Section MultipleShootingSolver.
Context {S : Scalar} {D : Dense S} {P : Problem}.
Variable settings_ : Settings.

Fixpoint mapM {A B} (g : A -> M B) (l : list A) : M (list B) :=
  match l with
  | [] => ret []
  | a :: l' => b <- g a ;; bs <- mapM g l' ;; ret (b :: bs)
  end.

Fixpoint foldM {A B} (g : B -> A -> M B) (l : list A) (b : B) : M B :=
  match l with
  | [] => ret b
  | a :: l' => b' <- g b a ;; foldM g l' b'
  end.

(* const int N = static_cast<int>(time.size()) - 1; *)
Definition horizon (time : scalar_array_t) : Z := Z.of_nat (length time) - 1.

(* Entering a parallel region: its number selects the schedule. *)
Definition nextRegion : M nat :=
  fun s => Ok (regions s)
    {| primalSolution_ := primalSolution_ s;
       performanceIndeces_ := performanceIndeces_ s;
       totalNumIterations_ := totalNumIterations_ s;
       dynamics_ := dynamics_ s; cost_ := cost_ s;
       constraints_ := constraints_ s;
       hpipmInterface_ := hpipmInterface_ s;
       regions := Datatypes.S (regions s) |}.

(* What worker [w] has in [workerPerformance] when it leaves the task: it
   starts from a default index and adds the contribution of each node it
   claimed, in increasing node order. *)
Definition workerPerformance (own : nat -> nat)
    (contributions : list PerformanceIndex) (w : nat) : PerformanceIndex :=
  fold_left
    (fun acc ip => if Nat.eqb (own (fst ip)) w
                   then PerformanceIndex_plus acc (snd ip) else acc)
    (combine (seq 0 (length contributions)) contributions)
    PerformanceIndex_default.

(* The vector [performance] after runParallel has joined:
   performance[thisWorker] = workerPerformance, one slot per thread. *)
Definition joinPerformance (own : nat -> nat)
    (contributions : list PerformanceIndex) : list PerformanceIndex :=
  map (workerPerformance own contributions) (seq 0 (nThreads settings_)).

(* performance.front().stateEqConstraintISE += (initState - x.front()).squaredNorm(); *)
Definition accountInitState (performance : list PerformanceIndex)
    (initState : vector_t) (x : vector_array_t) : M (list PerformanceIndex) :=
  x0 <- front x ;;
  p0 <- front performance ;;
  assign_ performance 0
    (set_stateEqConstraintISE p0
       (stateEqConstraintISE p0 + squaredNorm (v_sub initState x0))%S).

(* totalPerformance = std::accumulate(std::next(performance.begin()),
                                      performance.end(), performance.front());
   totalPerformance.merit = totalPerformance.totalCost
                            + totalPerformance.inequalityConstraintPenalty; *)
Definition sumPerformance (performance : list PerformanceIndex) : M PerformanceIndex :=
  match performance with
  | [] => undefined
  | p0 :: rest =>
      let totalPerformance := fold_left PerformanceIndex_plus rest p0 in
      ret (set_merit totalPerformance
             (totalCost totalPerformance
              + inequalityConstraintPenalty totalPerformance)%S)
  end.

(* The body of the worker's while loop in computePerformance, at node i < N *)
Definition intermediatePerformance (time : scalar_array_t) (x u : vector_array_t)
    (i : nat) : M PerformanceIndex :=
  ti <- at_ time i ;;
  tnext <- at_ time (Datatypes.S i) ;;
  xi <- at_ x i ;;
  xnext <- at_ x (Datatypes.S i) ;;
  ui <- at_ u i ;;
  ret (computeIntermediatePerformance ti (tnext - ti)%S xi xnext ui).

(* The contributions of the nodes 0..N in computePerformance; node N adds
   one only with a terminal cost (and is claimed only when N >= 0). *)
Definition performanceContributions (time : scalar_array_t) (x u : vector_array_t)
    : M (list PerformanceIndex) :=
  let N := horizon time in
  inter <- mapM (intermediatePerformance time x u) (seq 0 (Z.to_nat N)) ;;
  if (0 <=? N)%Z && hasTerminalCost then
    tN <- at_ time (Z.to_nat N) ;;
    xN <- at_ x (Z.to_nat N) ;;
    ret (inter ++ [computeTerminalPerformance tN xN])
  else ret inter.

(* PerformanceIndex MultipleShootingSolver::computePerformance(time, initState, x, u) *)
Definition computePerformance (time : scalar_array_t) (initState : vector_t)
    (x u : vector_array_t) : M PerformanceIndex :=
  r <- nextRegion ;;
  contributions <- performanceContributions time x u ;;
  let performance := joinPerformance (owner r) contributions in
  performance <- accountInitState performance initState x ;;
  sumPerformance performance.

(* The body of the worker's while loop in setupQuadraticSubproblem *)
Definition intermediateNode (time : scalar_array_t) (x u : vector_array_t)
    (i : nat) : M (Transcription CostBlock) :=
  ti <- at_ time i ;;
  tnext <- at_ time (Datatypes.S i) ;;
  xi <- at_ x i ;;
  xnext <- at_ x (Datatypes.S i) ;;
  ui <- at_ u i ;;
  ret (setupIntermediateNode (projectStateInputEqualityConstraints settings_)
         ti (tnext - ti)%S xi xnext ui).

(* constraintPtr_.front(): the constructor has made one clone (or nullptr)
   per thread, so the vector is empty when nThreads is 0. *)
Definition constraintPtr_front : M bool :=
  if Nat.eqb (nThreads settings_) 0 then undefined else ret hasConstraint.

(* The loop "determine sizes" of setupQuadraticSubproblem, at index i *)
Definition determineSize (ocpSize : OcpSize) (i : nat) : M OcpSize :=
  constrained <- constraintPtr_front ;;
  if (constrained : bool) then
    s <- get ;;
    c <- at_ (constraints_ s) i ;;
    if projectStateInputEqualityConstraints settings_ then
      n <- assign_ (numInputs ocpSize) i (m_cols (dfdu c)) ;;
      ret {| numStages := numStages ocpSize; numStates := numStates ocpSize;
             numInputs := n; numIneqConstraints := numIneqConstraints ocpSize |}
    else
      n <- assign_ (numIneqConstraints ocpSize) i (length (f c)) ;;
      ret {| numStages := numStages ocpSize; numStates := numStates ocpSize;
             numInputs := numInputs ocpSize; numIneqConstraints := n |}
  else ret ocpSize.

(* The blocks after the parallel region: dynamics_.resize(N), cost_.resize(N + 1),
   constraints_.resize(N + 1), then every slot 0..N-1 (and slot N of cost_ and
   constraints_) is assigned from the node's result. *)
Definition storeBlocks (nodes : list (Transcription CostBlock))
    (terminal : TerminalTranscription CostBlock) : M unit :=
  fun s => Ok tt
    {| primalSolution_ := primalSolution_ s;
       performanceIndeces_ := performanceIndeces_ s;
       totalNumIterations_ := totalNumIterations_ s;
       dynamics_ := map (@tr_dynamics _ _ _) nodes;
       cost_ := map (@tr_cost _ _ _) nodes ++ [tt_cost terminal];
       constraints_ := map (@tr_constraints _ _ _) nodes ++ [tt_constraints terminal];
       hpipmInterface_ := hpipmInterface_ s;
       regions := regions s |}.

(* hpipmInterface_.resize(std::move(ocpSize)); *)
Definition resizeSolver (ocpSize : OcpSize) : M unit :=
  fun s => Ok tt
    {| primalSolution_ := primalSolution_ s;
       performanceIndeces_ := performanceIndeces_ s;
       totalNumIterations_ := totalNumIterations_ s;
       dynamics_ := dynamics_ s; cost_ := cost_ s;
       constraints_ := constraints_ s;
       hpipmInterface_ := hpipm_resize ocpSize (hpipmInterface_ s);
       regions := regions s |}.

(* PerformanceIndex MultipleShootingSolver::setupQuadraticSubproblem(time, initState, x, u) *)
Definition setupQuadraticSubproblem (time : scalar_array_t) (initState : vector_t)
    (x u : vector_array_t) : M PerformanceIndex :=
  let N := horizon time in
  (* dynamics_.resize(N) with N = -1 asks for SIZE_MAX elements *)
  if (N <? 0)%Z then throw "vector::resize"%string else
  let ocpSize := OcpSize_make (Z.to_nat N) (n_state settings_) (n_input settings_) in
  r <- nextRegion ;;
  nodes <- mapM (intermediateNode time x u) (seq 0 (Z.to_nat N)) ;;
  tN <- at_ time (Z.to_nat N) ;;
  xN <- at_ x (Z.to_nat N) ;;
  let terminal := setupTerminalNode tN xN in
  storeBlocks nodes terminal ;;;
  let performance :=
    joinPerformance (owner r)
      (map (@tr_performance _ _ _) nodes ++ [tt_performance terminal]) in
  performance <- accountInitState performance initState x ;;
  ocpSize <- foldM determineSize (seq 0 (Z.to_nat N)) ocpSize ;;
  resizeSolver ocpSize ;;;
  sumPerformance performance.

(* hpipmInterface_.solve(...) leaves the interface in a new internal state *)
Definition setHpipmInterface (h : HpipmInterface) : M unit :=
  fun s => Ok tt
    {| primalSolution_ := primalSolution_ s;
       performanceIndeces_ := performanceIndeces_ s;
       totalNumIterations_ := totalNumIterations_ s;
       dynamics_ := dynamics_ s; cost_ := cost_ s;
       constraints_ := constraints_ s;
       hpipmInterface_ := h;
       regions := regions s |}.

(* The body of the loop "remap the tilde delta u to real delta u":
     deltaUSol[i] = constraints_[i].dfdu * deltaUSol[i];
     deltaUSol[i].noalias() += constraints_[i].dfdx * deltaXSol[i];
     deltaUSol[i] += constraints_[i].f; *)
Definition remapInput (deltaXSol : vector_array_t) (deltaUSol : vector_array_t)
    (i : nat) : M vector_array_t :=
  s <- get ;;
  c <- at_ (constraints_ s) i ;;
  du <- at_ deltaUSol i ;;
  dx <- at_ deltaXSol i ;;
  assign_ deltaUSol i (v_add (v_add (m_vec (dfdu c) du) (m_vec (dfdx c) dx)) (f c)).

(* The call of hpipmInterface_.solve in getOCPSolution: with the constraint
   blocks when there are constraints and no projection, and with nullptr
   otherwise ("without constraints, or when using QR decomposition, we have
   an unconstrained QP"). *)
Definition solveQP (delta_x0 : vector_t) (s : Solver)
    : hpipm_status * vector_array_t * vector_array_t * HpipmInterface :=
  if hasConstraint && negb (projectStateInputEqualityConstraints settings_) then
    hpipm_solve (hpipmInterface_ s) delta_x0 (dynamics_ s) (cost_ s)
                (Some (constraints_ s))
  else
    hpipm_solve (hpipmInterface_ s) delta_x0 (dynamics_ s) (cost_ s) None.

(* std::pair<vector_array_t, vector_array_t>
   MultipleShootingSolver::getOCPSolution(const vector_t& delta_x0) *)
Definition getOCPSolution (delta_x0 : vector_t) : M (vector_array_t * vector_array_t) :=
  s <- get ;;
  _ <- constraintPtr_front ;;
  let '(status, deltaXSol, deltaUSol, h) := solveQP delta_x0 s in
  setHpipmInterface h ;;;
  if negb (hpipm_status_eqb status SUCCESS) then
    throw "[MultipleShootingSolver] Failed to solve QP"%string
  else
    constrained <- constraintPtr_front ;;
    deltaUSol <-
      (if constrained && projectStateInputEqualityConstraints settings_ then
         foldM (remapInput deltaXSol) (seq 0 (length deltaUSol)) deltaUSol
       else ret deltaUSol) ;;
    ret (deltaXSol, deltaUSol).

(** *** Filter line-search *)

(* The lambda [stepAccepted] of takeStep *)
Definition stepAccepted (baseline performanceNew : PerformanceIndex) : bool :=
  let baselineConstraintViolation := constraintViolation baseline in
  let newConstraintViolation := constraintViolation performanceNew in
  if (newConstraintViolation >? g_max settings_)%S then false
  else if (newConstraintViolation <? g_min settings_)%S then
    (merit performanceNew <? merit baseline)%S
  else
    (merit performanceNew
       <? merit baseline - gamma_c settings_ * baselineConstraintViolation)%S
    || (newConstraintViolation
          <? (s_one - gamma_c settings_) * baselineConstraintViolation)%S.

(* const bool stepSizeBelowTol =
     alpha * deltaUnorm < settings_.deltaTol && alpha * deltaXnorm < settings_.deltaTol; *)
Definition stepSizeBelowTol (deltaUnorm deltaXnorm alpha : scalar_t) : bool :=
  (alpha * deltaUnorm <? deltaTol settings_)%S
  && (alpha * deltaXnorm <? deltaTol settings_)%S.

(* const bool improvementBelowTol =
     std::abs(baseline.merit - performanceNew.merit) < costTol
     && newConstraintViolation < g_min; *)
Definition improvementBelowTol (baseline performanceNew : PerformanceIndex) : bool :=
  (s_abs (merit baseline - merit performanceNew) <? costTol settings_)%S
  && (constraintViolation performanceNew <? g_min settings_)%S.

(* for (int i = 0; i < n; i++) { vNew[i] = v[i] + alpha * dv[i]; } *)
Definition computeStep (n : nat) (alpha : scalar_t) (v dv : vector_array_t)
    (vNew : vector_array_t) : M vector_array_t :=
  foldM (fun vNew i =>
           vi <- at_ v i ;;
           dvi <- at_ dv i ;;
           assign_ vNew i (v_add vi (v_scale alpha dvi)))
        (seq 0 n) vNew.

(* A candidate iterate: the buffers xNew, uNew after "Compute step" and the
   index computePerformance gives for them. *)
Record Candidate : Type := {
  xNew : vector_array_t;
  uNew : vector_array_t;
  performanceNew : PerformanceIndex
}.

(* "Compute step" and "Compute cost and constraints" of the while loop *)
Definition candidate (time : scalar_array_t) (initState : vector_t)
    (dx du x u : vector_array_t) (alpha : scalar_t)
    (xBuf uBuf : vector_array_t) : M Candidate :=
  let N := horizon time in
  uBuf <- computeStep (Z.to_nat N) alpha u du uBuf ;;
  xBuf <- computeStep (Z.to_nat (N + 1)) alpha x dx xBuf ;;
  p <- computePerformance time initState xBuf uBuf ;;
  ret {| xNew := xBuf; uNew := uBuf; performanceNew := p |}.

(* while (alpha > alpha_min) { ... } return true;
   [fuel] bounds the number of passes. *)
Fixpoint takeStep_while (fuel : nat) (baseline : PerformanceIndex)
    (time : scalar_array_t) (initState : vector_t) (dx du x u : vector_array_t)
    (deltaUnorm deltaXnorm : scalar_t)
    (alpha : scalar_t) (xBuf uBuf : vector_array_t)
    : M (bool * vector_array_t * vector_array_t) :=
  match fuel with
  | O => fun _ => OutOfFuel
  | Datatypes.S fuel' =>
      if (alpha >? alpha_min settings_)%S then
        c <- candidate time initState dx du x u alpha xBuf uBuf ;;
        if stepAccepted baseline (performanceNew c) then
          (* x = std::move(xNew); u = std::move(uNew); *)
          ret (stepSizeBelowTol deltaUnorm deltaXnorm alpha
               || improvementBelowTol baseline (performanceNew c),
               xNew c, uNew c)
        else if stepSizeBelowTol deltaUnorm deltaXnorm alpha then
          ret (true, x, u)
        else
          takeStep_while fuel' baseline time initState dx du x u
            deltaUnorm deltaXnorm (alpha * alpha_decay settings_)%S
            (xNew c) (uNew c)
      else
        ret (true, x, u)   (* Alpha_min reached and no improvement found *)
  end.

(* bool MultipleShootingSolver::takeStep(baseline, timeDiscretization, initState,
                                         dx, du, x, u);
   the in/out arguments x and u are returned next to the result. *)
Definition takeStep (fuel : nat) (baseline : PerformanceIndex)
    (timeDiscretization : scalar_array_t) (initState : vector_t)
    (dx du x u : vector_array_t) : M (bool * vector_array_t * vector_array_t) :=
  let deltaUnorm := trajectoryNorm du in
  let deltaXnorm := trajectoryNorm dx in
  let alpha := s_one in
  (* vector_array_t xNew(x.size()); vector_array_t uNew(u.size()); *)
  let xBuf := repeat ([] : vector_t) (length x) in
  let uBuf := repeat ([] : vector_t) (length u) in
  takeStep_while fuel baseline timeDiscretization initState dx du x u
    deltaUnorm deltaXnorm alpha xBuf uBuf.

(** *** Trajectory initialisation *)

(* vector_array_t MultipleShootingSolver::initializeStateTrajectory(initState,
                                                      timeDiscretization, N) const *)
Definition initializeStateTrajectory (initState : vector_t)
    (timeDiscretization : scalar_array_t) (N : Z) : M vector_array_t :=
  s <- get ;;
  if Nat.eqb (totalNumIterations_ s) 0 then   (* first iteration *)
    ret (repeat initState (Z.to_nat (N + 1)))
  else                                        (* interpolation of previous solution *)
    rest <- mapM (fun i =>
                    ti <- at_ timeDiscretization i ;;
                    ret (interpolate ti (timeTrajectory_ (primalSolution_ s))
                                     (stateTrajectory_ (primalSolution_ s))))
                 (seq 1 (Z.to_nat N)) ;;
    ret (initState :: rest).

(* vector_array_t MultipleShootingSolver::initializeInputTrajectory(timeDiscretization,
                                                      stateTrajectory, N) const *)
Definition initializeInputTrajectory (timeDiscretization : scalar_array_t)
    (stateTrajectory : vector_array_t) (N : Z) : M vector_array_t :=
  s <- get ;;
  interpolateTill <-
    (if Nat.ltb 0 (totalNumIterations_ s)
     then back (timeTrajectory_ (primalSolution_ s))
     else front timeDiscretization) ;;
  (* u.reserve(N) with N = -1 asks for SIZE_MAX elements *)
  if (N <? 0)%Z then throw "vector::reserve"%string else
  mapM (fun i =>
          ti <- at_ timeDiscretization i ;;
          if (ti <? interpolateTill)%S then
            (* Interpolate previous input trajectory *)
            ret (interpolate ti (timeTrajectory_ (primalSolution_ s))
                             (inputTrajectory_ (primalSolution_ s)))
          else
            match getSystemOperatingTrajectories with
            | Some operatingTrajectories =>
                tNext <- at_ timeDiscretization (Datatypes.S i) ;;
                xi <- at_ stateTrajectory i ;;
                let '(_, _, inputArray) := operatingTrajectories xi ti tNext in
                front inputArray
            | None => ret (v_Zero (n_input settings_))
            end)
       (seq 0 (Z.to_nat N)).

(** *** The driver *)

Definition setPrimalSolution (p : PrimalSolution) : M unit :=
  fun s => Ok tt
    {| primalSolution_ := p;
       performanceIndeces_ := performanceIndeces_ s;
       totalNumIterations_ := totalNumIterations_ s;
       dynamics_ := dynamics_ s; cost_ := cost_ s;
       constraints_ := constraints_ s;
       hpipmInterface_ := hpipmInterface_ s;
       regions := regions s |}.

Definition setPerformanceIndeces (log : list PerformanceIndex) : M unit :=
  fun s => Ok tt
    {| primalSolution_ := primalSolution_ s;
       performanceIndeces_ := log;
       totalNumIterations_ := totalNumIterations_ s;
       dynamics_ := dynamics_ s; cost_ := cost_ s;
       constraints_ := constraints_ s;
       hpipmInterface_ := hpipmInterface_ s;
       regions := regions s |}.

Definition setTotalNumIterations (n : nat) : M unit :=
  fun s => Ok tt
    {| primalSolution_ := primalSolution_ s;
       performanceIndeces_ := performanceIndeces_ s;
       totalNumIterations_ := n;
       dynamics_ := dynamics_ s; cost_ := cost_ s;
       constraints_ := constraints_ s;
       hpipmInterface_ := hpipmInterface_ s;
       regions := regions s |}.

Definition setConstraints (c : list VectorFunctionLinearApproximation) : M unit :=
  fun s => Ok tt
    {| primalSolution_ := primalSolution_ s;
       performanceIndeces_ := performanceIndeces_ s;
       totalNumIterations_ := totalNumIterations_ s;
       dynamics_ := dynamics_ s; cost_ := cost_ s;
       constraints_ := c;
       hpipmInterface_ := hpipmInterface_ s;
       regions := regions s |}.

Definition setController (c : Controller) : M unit :=
  s <- get ;;
  let p := primalSolution_ s in
  setPrimalSolution
    {| timeTrajectory_ := timeTrajectory_ p;
       stateTrajectory_ := stateTrajectory_ p;
       inputTrajectory_ := inputTrajectory_ p;
       modeSchedule_ := modeSchedule_ p;
       controllerPtr_ := Some c |}.

(* for (int iter = 0; iter < settings_.sqpIteration; iter++) { ... }
   with [iterations] passes left; x and u are the driver's local trajectories. *)
Fixpoint sqpLoop (fuel : nat) (iterations : nat)
    (timeDiscretization : scalar_array_t) (initState : vector_t)
    (x u : vector_array_t) : M (vector_array_t * vector_array_t) :=
  match iterations with
  | O => ret (x, u)
  | Datatypes.S iterations' =>
      (* Make QP approximation *)
      p <- setupQuadraticSubproblem timeDiscretization initState x u ;;
      s <- get ;;
      setPerformanceIndeces (performanceIndeces_ s ++ [p]) ;;;
      (* Solve QP *)
      x0 <- at_ x 0 ;;
      let delta_x0 := v_sub initState x0 in
      '(delta_x, delta_u) <- getOCPSolution delta_x0 ;;
      (* Apply step *)
      s <- get ;;
      baseline <- back (performanceIndeces_ s) ;;
      '(converged, x, u) <-
        takeStep fuel baseline timeDiscretization initState delta_x delta_u x u ;;
      s <- get ;;
      setTotalNumIterations (Datatypes.S (totalNumIterations_ s)) ;;;
      if (converged : bool) then ret (x, u)
      else sqpLoop fuel iterations' timeDiscretization initState x u
  end.

(* The body of the loop that builds the feedback controller when the
   projection is in use:
     controllerGain.push_back(std::move(constraints_[i].dfdx));
     controllerGain.back().noalias() += constraints_[i].dfdu * KMatrices[i];
     uff.push_back(primalSolution_.inputTrajectory_[i]);
     uff.back().noalias() -= controllerGain.back() * primalSolution_.stateTrajectory_[i];
   Moving dfdx out leaves an empty matrix in constraints_[i]. *)
Definition projectedFeedback (KMatrices : list matrix_t)
    (acc : vector_array_t * list matrix_t) (i : nat)
    : M (vector_array_t * list matrix_t) :=
  let '(uff, controllerGain) := acc in
  s <- get ;;
  c <- at_ (constraints_ s) i ;;
  cs <- assign_ (constraints_ s) i {| f := f c; dfdx := m_empty; dfdu := dfdu c |} ;;
  setConstraints cs ;;;
  K <- at_ KMatrices i ;;
  let gain := m_add (dfdx c) (m_mul (dfdu c) K) in
  ui <- at_ (inputTrajectory_ (primalSolution_ s)) i ;;
  xi <- at_ (stateTrajectory_ (primalSolution_ s)) i ;;
  ret (uff ++ [v_sub ui (m_vec gain xi)], controllerGain ++ [gain]).

(* The body of the loop that builds the feedback controller otherwise:
     uff.push_back(primalSolution_.inputTrajectory_[i]);
     uff.back().noalias() -= KMatrices[i] * primalSolution_.stateTrajectory_[i];
     controllerGain.push_back(std::move(KMatrices[i])); *)
Definition plainFeedback (KMatrices : list matrix_t)
    (acc : vector_array_t * list matrix_t) (i : nat)
    : M (vector_array_t * list matrix_t) :=
  let '(uff, controllerGain) := acc in
  s <- get ;;
  K <- at_ KMatrices i ;;
  ui <- at_ (inputTrajectory_ (primalSolution_ s)) i ;;
  xi <- at_ (stateTrajectory_ (primalSolution_ s)) i ;;
  ret (uff ++ [v_sub ui (m_vec K xi)], controllerGain ++ [K]).

(* "Compute controller" of runImpl *)
Definition computeController (N : Z) : M unit :=
  s <- get ;;
  let feedforward :=
    FeedforwardController (timeTrajectory_ (primalSolution_ s))
                          (inputTrajectory_ (primalSolution_ s)) in
  let feedback (body : list matrix_t -> vector_array_t * list matrix_t -> nat ->
                       M (vector_array_t * list matrix_t)) : M unit :=
    d0 <- at_ (dynamics_ s) 0 ;;
    c0 <- at_ (cost_ s) 0 ;;
    let KMatrices := getRiccatiFeedback (hpipmInterface_ s) d0 c0 in
    '(uff, controllerGain) <- foldM (body KMatrices) (seq 0 (Z.to_nat N)) ([], []) ;;
    (* Copy last one to get correct length *)
    uffLast <- back uff ;;
    gainLast <- back controllerGain ;;
    setController (LinearController (timeTrajectory_ (primalSolution_ s))
                                    (uff ++ [uffLast]) (controllerGain ++ [gainLast])) in
  constrained <- constraintPtr_front ;;
  if constrained && projectStateInputEqualityConstraints settings_ then
    if controllerFeedback settings_ then feedback projectedFeedback
    else setController feedforward
  else
    if controllerFeedback settings_ then feedback plainFeedback
    else setController feedforward.

(* "Store result in PrimalSolution" of runImpl *)
Definition storePrimalSolution (timeDiscretization : scalar_array_t)
    (x u : vector_array_t) : M unit :=
  s <- get ;;
  (* repeat last input to make equal length vectors *)
  uLast <- back u ;;
  setPrimalSolution
    {| timeTrajectory_ := timeDiscretization;
       stateTrajectory_ := x;
       inputTrajectory_ := u ++ [uLast];
       modeSchedule_ := getModeSchedule;
       controllerPtr_ := controllerPtr_ (primalSolution_ s) |}.

(* void MultipleShootingSolver::runImpl(initTime, initState, finalTime, partitioningTimes) *)
Definition runImpl (fuel : nat) (initTime : scalar_t) (initState : vector_t)
    (finalTime : scalar_t) (partitioningTimes : scalar_array_t) : M unit :=
  (* Determine time discretization, taking into account event times. *)
  let timeDiscretization :=
    timeDiscretizationWithEvents initTime finalTime (dt settings_)
      (eventTimes getModeSchedule) limitEpsilon in
  let N := horizon timeDiscretization in
  (* Initialize the state and input *)
  x <- initializeStateTrajectory initState timeDiscretization N ;;
  u <- initializeInputTrajectory timeDiscretization x N ;;
  (* Bookkeeping *)
  setPerformanceIndeces [] ;;;
  '(x, u) <- sqpLoop fuel (sqpIteration settings_) timeDiscretization initState x u ;;
  storePrimalSolution timeDiscretization x u ;;;
  computeController N.

(** *** Resetting and reading the log *)

(* void MultipleShootingSolver::reset(): the solution and the log are cleared
   and the iteration count is zeroed (the timers have no effect on the
   model); the blocks of the last subproblem and the HPIPM interface stay. *)
Definition reset : M unit :=
  fun s => Ok tt
    {| primalSolution_ := PrimalSolution_default;
       performanceIndeces_ := [];
       totalNumIterations_ := 0;
       dynamics_ := dynamics_ s; cost_ := cost_ s;
       constraints_ := constraints_ s;
       hpipmInterface_ := hpipmInterface_ s;
       regions := regions s |}.

(* const std::vector<PerformanceIndex>& MultipleShootingSolver::getIterationsLog() const *)
Definition getIterationsLog : M (list PerformanceIndex) :=
  s <- get ;;
  match performanceIndeces_ s with
  | [] =>
      throw "[MultipleShootingSolver]: No performance log yet, no problem solved yet?"%string
  | _ :: _ => ret (performanceIndeces_ s)
  end.

End MultipleShootingSolver.

(** ** The course of the SQP loop *)

Section SqpCourse.
Context {S : Scalar} {D : Dense S} {P : Problem}.
Variable settings_ : Settings.
Variable fuel : nat.
Variable timeDiscretization : scalar_array_t.
Variable initState : vector_t.

(* The body of the for loop of runImpl up to the call of getOCPSolution
   ("Make QP approximation" and the first statement of "Solve QP"): the
   subproblem is set up, its index is logged, and the result is
   delta_x0 = initState - x[0]. *)
Definition makeQP (x u : vector_array_t) : M vector_t :=
  p <- setupQuadraticSubproblem settings_ timeDiscretization initState x u ;;
  s <- get ;;
  setPerformanceIndeces (performanceIndeces_ s ++ [p]) ;;;
  x0 <- at_ x 0 ;;
  ret (v_sub initState x0).

(* One pass of the for loop of runImpl: the result is the flag of takeStep
   and the trajectories x, u that it leaves. *)
Definition sqpPass (x u : vector_array_t)
    : M (bool * vector_array_t * vector_array_t) :=
  delta_x0 <- makeQP x u ;;
  '(delta_x, delta_u) <- getOCPSolution settings_ delta_x0 ;;
  s <- get ;;
  baseline <- back (performanceIndeces_ s) ;;
  '(converged, x, u) <-
    takeStep settings_ fuel baseline timeDiscretization initState delta_x delta_u x u ;;
  s <- get ;;
  setTotalNumIterations (Datatypes.S (totalNumIterations_ s)) ;;;
  ret (converged, x, u).

(* [sqpPasses k x u s x' u' s']: [k] passes of the loop, none of which
   reports convergence, lead from the trajectories [x], [u] in state [s] to
   [x'], [u'] in state [s']. *)
Inductive sqpPasses :
    nat -> vector_array_t -> vector_array_t -> Solver ->
    vector_array_t -> vector_array_t -> Solver -> Prop :=
  | sqpPasses_0 : forall x u s, sqpPasses 0 x u s x u s
  | sqpPasses_S : forall k x u s x1 u1 s1 x' u' s',
      sqpPass x u s = Ok (false, x1, u1) s1 ->
      sqpPasses k x1 u1 s1 x' u' s' ->
      sqpPasses (Datatypes.S k) x u s x' u' s'.

End SqpCourse.

(* [runImpl], started in state [s], comes to pass [k] of its SQP loop
   (counted from 0) with the trajectories [x], [u] in state [s']: the
   trajectories are initialised, the log is cleared, and [k] passes have
   gone by without convergence. *)
Definition reachesIteration {S : Scalar} {D : Dense S} {P : Problem}
    (settings_ : Settings) (fuel : nat) (initTime : scalar_t) (initState : vector_t)
    (finalTime : scalar_t) (s : Solver)
    (k : nat) (x u : vector_array_t) (s' : Solver) : Prop :=
  let timeDiscretization :=
    timeDiscretizationWithEvents initTime finalTime (dt settings_)
      (eventTimes getModeSchedule) limitEpsilon in
  let N := horizon timeDiscretization in
  exists x0 s1 u0 s2 s3,
    initializeStateTrajectory initState timeDiscretization N s = Ok x0 s1 /\
    initializeInputTrajectory settings_ timeDiscretization x0 N s1 = Ok u0 s2 /\
    setPerformanceIndeces [] s2 = Ok tt s3 /\
    sqpPasses settings_ fuel timeDiscretization initState k x0 u0 s3 x u s'.

(* runImpl up to the end of its SQP loop: the trajectories x, u that it
   hands to "Store result in PrimalSolution". *)
Definition sqpResult {S : Scalar} {D : Dense S} {P : Problem}
    (settings_ : Settings) (fuel : nat) (initTime : scalar_t) (initState : vector_t)
    (finalTime : scalar_t) : M (vector_array_t * vector_array_t) :=
  let timeDiscretization :=
    timeDiscretizationWithEvents initTime finalTime (dt settings_)
      (eventTimes getModeSchedule) limitEpsilon in
  let N := horizon timeDiscretization in
  x <- initializeStateTrajectory initState timeDiscretization N ;;
  u <- initializeInputTrajectory settings_ timeDiscretization x N ;;
  setPerformanceIndeces [] ;;;
  sqpLoop settings_ fuel (sqpIteration settings_) timeDiscretization initState x u.

(** ** A model over the rationals

    Exact rational arithmetic for [scalar_t], lists of rows for Eigen's
    matrices, and a one-dimensional problem: the concrete inputs on which
    the theorems below are exercised. *)

Module Rational.

Definition Qltb (a b : Q) : bool := negb (Qle_bool b a).

(* The integer square root of the numerator over the denominator: exact on
   the squares of rationals. *)
Definition Qsqrt (q : Q) : Q := Z.sqrt (Qnum q * QDen q) # Qden q.

#[export] Instance Q_Scalar : Scalar :=
  {| scalar_t := Q; s_zero := 0%Q; s_one := 1%Q;
     s_add := Qplus; s_sub := Qminus; s_mul := Qmult;
     s_abs := Qabs; s_sqrt := Qsqrt;
     s_ltb := Qltb; s_leb := Qle_bool |}.

Definition dot (a b : list Q) : Q :=
  fold_left (fun acc ab => (acc + fst ab * snd ab)%Q) (combine a b) 0%Q.

Definition rows_cols (m : list (list Q)) : nat :=
  match m with
  | r :: _ => length r
  | [] => 0%nat
  end.

Fixpoint rows_add (a b : list (list Q)) : list (list Q) :=
  match a, b with
  | ra :: a', rb :: b' => v_add (S := Q_Scalar) ra rb :: rows_add a' b'
  | _, _ => []
  end.

Definition rows_vec (m : list (list Q)) (v : list Q) : list Q :=
  map (fun r => dot r v) m.

(* row i of A * B is the combination of the rows of B weighted by row i of A *)
Definition rows_mul (a b : list (list Q)) : list (list Q) :=
  map (fun ra =>
         fold_left (fun acc kb => v_add (S := Q_Scalar) acc
                                    (v_scale (S := Q_Scalar) (fst kb) (snd kb)))
                   (combine ra b) (repeat 0%Q (rows_cols b)))
      a.

#[export] Instance Q_Dense : Dense Q_Scalar :=
  {| matrix_t := list (list Q); m_empty := [];
     m_cols := rows_cols; m_add := rows_add; m_mul := rows_mul;
     m_vec := rows_vec |}.

(* The index of a node with stage cost |x|^2 + |u|^2 and Euler defect
   x + dt u - x_next. *)
Definition nodePerformance (t dt : Q) (x xnext u : list Q) : PerformanceIndex :=
  {| merit := 0%Q;
     totalCost := (squaredNorm (S := Q_Scalar) x + squaredNorm (S := Q_Scalar) u)%Q;
     stateEqConstraintISE :=
       squaredNorm (S := Q_Scalar)
         (v_sub (S := Q_Scalar)
            (v_add (S := Q_Scalar) x (v_scale (S := Q_Scalar) dt u)) xnext);
     stateInputEqConstraintISE := 0%Q;
     inequalityConstraintISE := 0%Q;
     inequalityConstraintPenalty := 0%Q |}.

Definition terminalPerformance (t : Q) (x : list Q) : PerformanceIndex :=
  {| merit := 0%Q;
     totalCost := squaredNorm (S := Q_Scalar) x;
     stateEqConstraintISE := 0%Q;
     stateInputEqConstraintISE := 0%Q;
     inequalityConstraintISE := 0%Q;
     inequalityConstraintPenalty := 0%Q |}.

(* An index of merit and cost [m] whose violation is the root of [v2] *)
Definition index (m v2 : Q) : PerformanceIndex :=
  @Build_PerformanceIndex Q_Scalar m m v2 0%Q 0%Q 0%Q.

(* The projection block u = 1 * u~ + 2 * x + 3 *)
Definition projection : VectorFunctionLinearApproximation :=
  {| f := [3%Q]; dfdx := [[2%Q]]; dfdu := [[1%Q]] |}.

(* The block of a node without constraint: default-constructed *)
Definition no_constraint : VectorFunctionLinearApproximation :=
  {| f := []; dfdx := []; dfdu := [] |}.

(* Three grid points when initTime < finalTime, a single one otherwise. *)
Definition grid (initTime finalTime dt : Q) (events : list Q) (eps : Q) : list Q :=
  if Qltb initTime finalTime
  then [initTime; ((initTime + finalTime) * (1 # 2))%Q; finalTime]
  else [initTime].

(* A back-end that answers [status] and the step dx = (0, -1/2, ..., -1/2),
   du = (0, ..., 0) for a horizon of as many intervals as dynamics blocks. *)
Definition solve (status : hpipm_status) (h : unit) (delta_x0 : list Q)
    (dynamics : list VectorFunctionLinearApproximation) (cost : list unit)
    (constraints : option (list VectorFunctionLinearApproximation))
    : hpipm_status * list (list Q) * list (list Q) * unit :=
  (status, [0%Q] :: repeat [(-1 # 2)%Q] (length dynamics),
   repeat [0%Q] (length dynamics), tt).

(* The problem, with or without a constraint (the projection block at every
   node, or none), a back-end answering [status], and node [i] claimed by
   worker [i mod 2]. *)
Definition problem (constraint : bool) (status : hpipm_status) : Problem :=
  {| CostBlock := unit;
     hasConstraint := constraint;
     hasTerminalCost := true;
     getSystemOperatingTrajectories := None;
     getModeSchedule := {| modeSequence := [0%nat]; eventTimes := [] |};
     limitEpsilon := (1 # 1000000)%Q;
     timeDiscretizationWithEvents := grid;
     interpolate := fun t time data => hd [] data;
     setupIntermediateNode := fun project t dt x xnext u =>
       {| tr_performance := nodePerformance t dt x xnext u;
          tr_dynamics := {| f := [0%Q]; dfdx := [[1%Q]]; dfdu := [[dt]] |};
          tr_cost := tt;
          tr_constraints := if constraint then projection else no_constraint |};
     setupTerminalNode := fun t x =>
       {| tt_performance := terminalPerformance t x;
          tt_cost := tt;
          tt_constraints := if constraint then projection else no_constraint |};
     computeIntermediatePerformance := nodePerformance;
     computeTerminalPerformance := terminalPerformance;
     HpipmInterface := unit;
     hpipm_resize := fun _ h => h;
     hpipm_solve := solve status;
     getRiccatiFeedback := fun h d c => [[[(-1)%Q]]; [[(-1)%Q]]];
     owner := fun r i => Nat.modulo i 2 |}.

Definition settings_with (least : Q) (iterations : nat) (feedback project : bool)
    : Settings :=
  {| sqpIteration := iterations;
     deltaTol := (1 # 1000)%Q;
     costTol := (1 # 1000)%Q;
     alpha_decay := (1 # 2)%Q;
     alpha_min := least;
     gamma_c := (1 # 1000)%Q;
     g_max := 10%Q;
     g_min := 1%Q;
     dt := (1 # 2)%Q;
     controllerFeedback := feedback;
     projectStateInputEqualityConstraints := project;
     n_state := 1;
     n_input := 1;
     nThreads := 2 |}.

Definition settings : nat -> bool -> bool -> Settings := settings_with (1 # 10).

(* A line search with alpha_min = 1/2 from x = (1, 1, 1), u = (0, 0) along a
   direction that raises cost and violation: the one candidate, at alpha = 1,
   is rejected, and alpha = 1/2 ends the search. *)
Definition cautious : Settings := settings_with (1 # 2) 1 false false.
Definition flat_x : list (list Q) := [[1%Q]; [1%Q]; [1%Q]].
Definition flat_u : list (list Q) := [[0%Q]; [0%Q]].
Definition uphill : list (list Q) := [[0%Q]; [1%Q]; [1%Q]].
Definition downhill : list (list Q) := [[0%Q]; [(-1 # 2)%Q]; [(-1 # 2)%Q]].
Definition still : list (list Q) := [[0%Q]; [0%Q]].
Definition unit_grid : list Q := [0%Q; 1 # 2; 1%Q].

(* A freshly constructed solver *)
Definition fresh (constraint : bool) (status : hpipm_status)
    : Solver (P := problem constraint status) :=
  @Build_Solver Q_Scalar Q_Dense (problem constraint status)
    PrimalSolution_default [] 0%nat [] [] [] tt 0%nat.

(* Two SQP iterations on the grid (0, 1/2, 1) from the state 1. *)
Definition solved :=
  Eval vm_compute in
    runImpl (P := problem false SUCCESS) (settings 2 false false)
      10 0%Q [1%Q] 1%Q [] (fresh false SUCCESS).

(* A solver about to compute its controller on the grid (0, 1/2, 1). *)
Definition ready (constraint : bool) : Solver (P := problem constraint SUCCESS) :=
  @Build_Solver Q_Scalar Q_Dense (problem constraint SUCCESS)
    {| timeTrajectory_ := unit_grid;
       stateTrajectory_ := [[1%Q]; [1 # 2]; [1 # 4]];
       inputTrajectory_ := [[(-1)%Q]; [(-1 # 2)%Q]; [(-1 # 2)%Q]];
       modeSchedule_ := {| modeSequence := [0%nat]; eventTimes := [] |};
       controllerPtr_ := None |}
    [] 1%nat
    [ {| f := [0%Q]; dfdx := [[1%Q]]; dfdu := [[1 # 2]] |};
      {| f := [0%Q]; dfdx := [[1%Q]]; dfdu := [[1 # 2]] |} ]
    [tt; tt; tt]
    (if constraint then [projection; projection; projection]
     else [no_constraint; no_constraint; no_constraint])
    tt 0%nat.

Definition stepped :=
  Eval vm_compute in
    getOCPSolution (P := problem true SUCCESS) (settings 2 true true) [0%Q] (ready true).

Definition emitted :=
  Eval vm_compute in
    computeController (P := problem true SUCCESS) (settings 2 true true) 2 (ready true).

(* The same without a constraint, the projection still enabled. *)
Definition emitted_unconstrained :=
  Eval vm_compute in
    computeController (P := problem false SUCCESS) (settings 2 true true) 2 (ready false).

(* The problem without constraint and a back-end that succeeds once: the
   state of the interface counts the calls of solve. *)
Definition flaky : Problem :=
  {| CostBlock := unit;
     hasConstraint := false;
     hasTerminalCost := true;
     getSystemOperatingTrajectories := None;
     getModeSchedule := {| modeSequence := [0%nat]; eventTimes := [] |};
     limitEpsilon := (1 # 1000000)%Q;
     timeDiscretizationWithEvents := grid;
     interpolate := fun t time data => hd [] data;
     setupIntermediateNode := fun project t dt x xnext u =>
       {| tr_performance := nodePerformance t dt x xnext u;
          tr_dynamics := {| f := [0%Q]; dfdx := [[1%Q]]; dfdu := [[dt]] |};
          tr_cost := tt;
          tr_constraints := no_constraint |};
     setupTerminalNode := fun t x =>
       {| tt_performance := terminalPerformance t x;
          tt_cost := tt;
          tt_constraints := no_constraint |};
     computeIntermediatePerformance := nodePerformance;
     computeTerminalPerformance := terminalPerformance;
     HpipmInterface := nat;
     hpipm_resize := fun _ h => h;
     hpipm_solve := fun h delta_x0 dynamics cost constraints =>
       (if Nat.eqb h 0 then SUCCESS else MAX_ITER,
        [0%Q] :: repeat [(-1 # 2)%Q] (length dynamics),
        repeat [0%Q] (length dynamics), Datatypes.S h);
     getRiccatiFeedback := fun h d c => [[[(-1)%Q]]; [[(-1)%Q]]];
     owner := fun r i => Nat.modulo i 2 |}.

Definition fresh_flaky : Solver (P := flaky) :=
  @Build_Solver Q_Scalar Q_Dense flaky PrimalSolution_default [] 0%nat [] [] [] 0%nat 0%nat.

(* The first solve, whose second SQP iteration fails. *)
Definition broken :=
  Eval vm_compute in
    runImpl (P := flaky) (settings 2 false false) 10 0%Q [1%Q] 1%Q [] fresh_flaky.

(* A solve without SQP iteration. *)
Definition unsolved :=
  Eval vm_compute in
    runImpl (P := problem false SUCCESS) (settings 0 false false)
      10 0%Q [1%Q] 1%Q [] (fresh false SUCCESS).

(* A solver that has never solved but holds blocks (of a horizon of one
   interval). *)
Definition stale : Solver (P := problem false SUCCESS) :=
  @Build_Solver Q_Scalar Q_Dense (problem false SUCCESS)
    PrimalSolution_default [] 0%nat
    [ {| f := [7%Q]; dfdx := [[7%Q]]; dfdu := [[7%Q]] |} ]
    [tt; tt]
    [projection; projection]
    tt 0%nat.

(* Directions of line searches from x = (1, 1, 1), u = (0, 0) against a
   baseline of merit 3 (the merit of x, u): a short step downhill, a longer
   step that lowers the merit by less than costTol, a short step uphill,
   and a step downhill that is too long at full size. *)
Definition creeping : list (list Q) := [[0%Q]; [(-1 # 2000)%Q]; [(-1 # 2000)%Q]].
Definition sidestep : list (list Q) := [[0%Q]; [(-1 # 100)%Q]; [(97 # 10000)%Q]].
Definition creeping_up : list (list Q) := [[0%Q]; [(1 # 2000)%Q]; [(1 # 2000)%Q]].
Definition overshoot : list (list Q) := [[0%Q]; [(-3)%Q]; [(-3)%Q]].

(* The problem without constraint and a back-end that succeeds [n] times:
   the state of the interface counts the calls of solve. *)
Definition tiring (n : nat) : Problem :=
  {| CostBlock := unit;
     hasConstraint := false;
     hasTerminalCost := true;
     getSystemOperatingTrajectories := None;
     getModeSchedule := {| modeSequence := [0%nat]; eventTimes := [] |};
     limitEpsilon := (1 # 1000000)%Q;
     timeDiscretizationWithEvents := grid;
     interpolate := fun t time data => hd [] data;
     setupIntermediateNode := fun project t dt x xnext u =>
       {| tr_performance := nodePerformance t dt x xnext u;
          tr_dynamics := {| f := [0%Q]; dfdx := [[1%Q]]; dfdu := [[dt]] |};
          tr_cost := tt;
          tr_constraints := no_constraint |};
     setupTerminalNode := fun t x =>
       {| tt_performance := terminalPerformance t x;
          tt_cost := tt;
          tt_constraints := no_constraint |};
     computeIntermediatePerformance := nodePerformance;
     computeTerminalPerformance := terminalPerformance;
     HpipmInterface := nat;
     hpipm_resize := fun _ h => h;
     hpipm_solve := fun h delta_x0 dynamics cost constraints =>
       (if Nat.ltb h n then SUCCESS else MAX_ITER,
        [0%Q] :: repeat [(-1 # 2)%Q] (length dynamics),
        repeat [0%Q] (length dynamics), Datatypes.S h);
     getRiccatiFeedback := fun h d c => [[[(-1)%Q]]; [[(-1)%Q]]];
     owner := fun r i => Nat.modulo i 2 |}.

Definition fresh_tiring (n : nat) : Solver (P := tiring n) :=
  @Build_Solver Q_Scalar Q_Dense (tiring n)
    PrimalSolution_default [] 0%nat [] [] [] 0%nat 0%nat.

(* The solver after a first solve of two SQP iterations, with a back-end
   that succeeds three times *)
Definition warm :=
  Eval vm_compute in
    match runImpl (P := tiring 3) (settings 2 false false) 10 0%Q [1%Q] 1%Q []
            (fresh_tiring 3) with
    | Ok _ s => s
    | _ => fresh_tiring 3
    end.

(* The second solve from [warm]: the state in which its SQP loop starts, its
   first pass, and the QP of its second pass *)
Definition restarted :=
  Eval vm_compute in
    match setPerformanceIndeces (P := tiring 3) [] warm with
    | Ok _ s => s
    | _ => warm
    end.

Definition passed :=
  Eval vm_compute in
    sqpPass (P := tiring 3) (settings 2 false false) 10 unit_grid [1%Q]
      flat_x flat_u restarted.

Definition posed :=
  Eval vm_compute in
    match passed with
    | Ok (_, x, u) s =>
        makeQP (P := tiring 3) (settings 2 false false) unit_grid [1%Q] x u s
    | _ => UB
    end.

(* The SQP loop on the degenerate window initTime = finalTime = 0, whose
   grid is the single point 0 *)
Definition collapsed :=
  Eval vm_compute in
    sqpResult (P := problem false SUCCESS) (settings 2 false false)
      10 0%Q [1%Q] 0%Q (fresh false SUCCESS).

End Rational.

(** ** The course of the line search, in the words of the specification *)

Section LineSearchCourse.
Context {S : Scalar} {D : Dense S} {P : Problem}.
Variable settings_ : Settings.
Variable baseline : PerformanceIndex.
Variable timeDiscretization : scalar_array_t.
Variable initState : vector_t.
Variables dx du x u : vector_array_t.
Variable s0 : Solver.

(* The step size after [k] rejections: it starts at 1 and is multiplied by
   alpha_decay on each of them. *)
Fixpoint alphaAfter (k : nat) : scalar_t :=
  match k with
  | O => s_one
  | Datatypes.S k' => (alphaAfter k' * alpha_decay settings_)%S
  end.

(* [tries k alpha xBuf uBuf s]: started in state [s0], the search comes to
   its [k]-th candidate (counted from 0) with step size [alpha], buffers
   [xBuf], [uBuf] and solver state [s]; each candidate before was rejected
   with a step size not yet below the tolerance. *)
Inductive tries : nat -> scalar_t -> vector_array_t -> vector_array_t -> Solver -> Prop :=
  | tries_first :
      tries 0 s_one (repeat [] (length x)) (repeat [] (length u)) s0
  | tries_next : forall k alpha xBuf uBuf s c s',
      tries k alpha xBuf uBuf s ->
      (alpha >? alpha_min settings_)%S = true ->
      candidate settings_ timeDiscretization initState dx du x u alpha xBuf uBuf s
        = Ok c s' ->
      stepAccepted settings_ baseline (performanceNew c) = false ->
      stepSizeBelowTol settings_ (trajectoryNorm du) (trajectoryNorm dx) alpha = false ->
      tries (Datatypes.S k) (alpha * alpha_decay settings_)%S (xNew c) (uNew c) s'.

(* The four ways in which the search reports convergence. *)
Definition reportsConvergence : Prop :=
  exists k alpha xBuf uBuf s,
    tries k alpha xBuf uBuf s /\
    ((* (d) alpha has decayed to alpha_min or below *)
     (alpha >? alpha_min settings_)%S = false
     \/
     ((alpha >? alpha_min settings_)%S = true /\
      exists c s',
        candidate settings_ timeDiscretization initState dx du x u alpha xBuf uBuf s
          = Ok c s' /\
        ((* (a) accepted, and the step is below deltaTol *)
         (stepAccepted settings_ baseline (performanceNew c) = true /\
          (alpha * trajectoryNorm du <? deltaTol settings_)%S = true /\
          (alpha * trajectoryNorm dx <? deltaTol settings_)%S = true)
         \/
         (* (b) accepted, and the merit moved by less than costTol with a
            violation below g_min *)
         (stepAccepted settings_ baseline (performanceNew c) = true /\
          (s_abs (merit baseline - merit (performanceNew c)) <? costTol settings_)%S
            = true /\
          (constraintViolation (performanceNew c) <? g_min settings_)%S = true)
         \/
         (* (c) rejected, with a step already below deltaTol *)
         (stepAccepted settings_ baseline (performanceNew c) = false /\
          (alpha * trajectoryNorm du <? deltaTol settings_)%S = true /\
          (alpha * trajectoryNorm dx <? deltaTol settings_)%S = true)))).

(* How the search leaves the loop at a candidate it has come to. *)
Definition leavesAt (alpha : scalar_t) (xBuf uBuf : vector_array_t) (s : Solver)
    (r : bool * vector_array_t * vector_array_t) (s' : Solver) : Prop :=
  ((alpha >? alpha_min settings_)%S = false /\ r = (true, x, u) /\ s' = s)
  \/
  ((alpha >? alpha_min settings_)%S = true /\
   exists c,
     candidate settings_ timeDiscretization initState dx du x u alpha xBuf uBuf s
       = Ok c s' /\
     ((stepAccepted settings_ baseline (performanceNew c) = true /\
       r = (stepSizeBelowTol settings_ (trajectoryNorm du) (trajectoryNorm dx) alpha
            || improvementBelowTol settings_ baseline (performanceNew c),
            xNew c, uNew c))
      \/
      (stepAccepted settings_ baseline (performanceNew c) = false /\
       stepSizeBelowTol settings_ (trajectoryNorm du) (trajectoryNorm dx) alpha = true /\
       r = (true, x, u)))).

End LineSearchCourse.

(* The status that the solve call of getOCPSolution answers in state [s] *)
Definition qpStatus {S : Scalar} {D : Dense S} {P : Problem}
    (settings_ : Settings) (delta_x0 : vector_t) (s : Solver) : hpipm_status :=
  let '(status, _, _, _) := solveQP settings_ delta_x0 s in status.

(* The stored primal solution is the same in both states. *)
Definition samePrimal {S : Scalar} {D : Dense S} {P : Problem}
    (s s' : Solver) : Prop :=
  primalSolution_ s' = primalSolution_ s.

(* The trajectories of the stored primal solution are the same in both states. *)
Definition sameTrajectories {S : Scalar} {D : Dense S} {P : Problem}
    (s s' : Solver) : Prop :=
  timeTrajectory_ (primalSolution_ s') = timeTrajectory_ (primalSolution_ s) /\
  stateTrajectory_ (primalSolution_ s') = stateTrajectory_ (primalSolution_ s) /\
  inputTrajectory_ (primalSolution_ s') = inputTrajectory_ (primalSolution_ s).

(* The sum of a sequence of scalars, left to right *)
Definition sum {S : Scalar} (l : list scalar_t) : scalar_t :=
  fold_left s_add l s_zero.

(* Two indices that agree on every field but the merit *)
Definition sameButMerit {S : Scalar} (a b : PerformanceIndex) : Prop :=
  totalCost a = totalCost b /\
  stateEqConstraintISE a = stateEqConstraintISE b /\
  stateInputEqConstraintISE a = stateInputEqConstraintISE b /\
  inequalityConstraintISE a = inequalityConstraintISE b /\
  inequalityConstraintPenalty a = inequalityConstraintPenalty b.

(* [m] keeps the relation [R] between the state it starts in and the state
   it returns or throws in. *)
Definition preserves {S : Scalar} {D : Dense S} {P : Problem}
    (R : Solver -> Solver -> Prop) {A} (m : M A) : Prop :=
  forall s, match m s with
            | Ok _ s' => R s s'
            | Throw _ s' => R s s'
            | UB | OutOfFuel => True
            end.

(* [m] throws no exception. *)
Definition nothrow {S : Scalar} {D : Dense S} {P : Problem} {A} (m : M A) : Prop :=
  forall s what s', m s <> Throw what s'.

(* Step 3c of section 4.8: [(deltaX, deltaU)] is the solution of the QP that
   getOCPSolution poses in state [s], with the inputs mapped back from the
   reduced space, [du = dfdu * du~ + dfdx * dx + f], when there is a
   constraint and the projection is enabled. *)
Definition remapped {S : Scalar} {D : Dense S} {P : Problem}
    (settings_ : Settings) (delta_x0 : vector_t) (s : Solver)
    (deltaX deltaU : vector_array_t) : Prop :=
  let '(_, deltaXSol, deltaUSol, _) := solveQP settings_ delta_x0 s in
  deltaX = deltaXSol /\
  if hasConstraint && projectStateInputEqualityConstraints settings_ then
    length deltaU = length deltaUSol /\
    forall i, (i < length deltaUSol)%nat ->
      exists c du dx,
        nth_error (constraints_ s) i = Some c /\
        nth_error deltaUSol i = Some du /\
        nth_error deltaXSol i = Some dx /\
        nth_error deltaU i
        = Some (v_add (v_add (m_vec (dfdu c) du) (m_vec (dfdx c) dx)) (f c))
  else deltaU = deltaUSol.

(* The feedback controller of section 4.8: in state [s'] the controller is
   linear over the time grid of [s], with gains and feedforward terms made
   from the Riccati gains of the last QP, the trajectories and (when
   [projecting]) the constraint blocks of [s], for the nodes below [N], and
   their last samples repeated once. *)
Definition emitsFeedbackWhen {S : Scalar} {D : Dense S} {P : Problem}
    (projecting : bool) (N : Z) (s s' : Solver) : Prop :=
  exists d0 c0 uff gain uffLast gainLast,
    nth_error (dynamics_ s) 0 = Some d0 /\
    nth_error (cost_ s) 0 = Some c0 /\
    let KMatrices := getRiccatiFeedback (hpipmInterface_ s) d0 c0 in
    controllerPtr_ (primalSolution_ s')
    = Some (LinearController (timeTrajectory_ (primalSolution_ s))
              (uff ++ [uffLast]) (gain ++ [gainLast])) /\
    Z.of_nat (length uff) = N /\ Z.of_nat (length gain) = N /\
    (exists uff0, uff = uff0 ++ [uffLast]) /\
    (exists gain0, gain = gain0 ++ [gainLast]) /\
    forall i, (Z.of_nat i < N)%Z ->
      exists K u_i x_i,
        nth_error KMatrices i = Some K /\
        nth_error (inputTrajectory_ (primalSolution_ s)) i = Some u_i /\
        nth_error (stateTrajectory_ (primalSolution_ s)) i = Some x_i /\
        if projecting then
          exists c,
            nth_error (constraints_ s) i = Some c /\
            let K_eff := m_add (dfdx c) (m_mul (dfdu c) K) in
            nth_error gain i = Some K_eff /\
            nth_error uff i = Some (v_sub u_i (m_vec K_eff x_i))
        else
          nth_error gain i = Some K /\
          nth_error uff i = Some (v_sub u_i (m_vec K x_i)).

(* The controller as the code emits it: the projection is in use when there
   is a constraint and the projection is enabled. *)
Definition emitsFeedback {S : Scalar} {D : Dense S} {P : Problem}
    (settings_ : Settings) (N : Z) (s s' : Solver) : Prop :=
  emitsFeedbackWhen
    (hasConstraint && projectStateInputEqualityConstraints settings_) N s s'.

(* The controller as the specification words it: the projection is in use
   when it is enabled. *)
Definition emitsFeedback_as_enabled {S : Scalar} {D : Dense S} {P : Problem}
    (settings_ : Settings) (N : Z) (s s' : Solver) : Prop :=
  emitsFeedbackWhen (projectStateInputEqualityConstraints settings_) N s s'.

(* [m] does not depend on the fuel of the model. *)
Definition fuelfree {S : Scalar} {D : Dense S} {P : Problem} {A} (m : M A) : Prop :=
  forall s, m s <> OutOfFuel.

(** ** Further notions for the statements *)


(* [m] reads nothing of the solver and leaves it as it is: its result is the
   same in every state. *)
Definition stateless {S : Scalar} {D : Dense S} {P : Problem} {A} (m : M A) : Prop :=
  forall s t,
    m t = match m s with
          | Ok a _ => Ok a t
          | Throw what _ => Throw what t
          | UB => UB
          | OutOfFuel => OutOfFuel
          end.

(* [m] leaves the solver as it is. *)
Definition readonly {S : Scalar} {D : Dense S} {P : Problem} {A} (m : M A) : Prop :=
  preserves (fun s s' => s' = s) m.

(* Every data member of the solver is the same in both states (the count
   of parallel regions, which is not a member, may differ). *)
Definition sameMembers {S : Scalar} {D : Dense S} {P : Problem}
    (s s' : Solver) : Prop :=
  primalSolution_ s' = primalSolution_ s /\
  performanceIndeces_ s' = performanceIndeces_ s /\
  totalNumIterations_ s' = totalNumIterations_ s /\
  dynamics_ s' = dynamics_ s /\
  cost_ s' = cost_ s /\
  constraints_ s' = constraints_ s /\
  hpipmInterface_ s' = hpipmInterface_ s.

(* The stored solution, the iteration log and the iteration count are the
   same in both states. *)
Definition sameBookkeeping {S : Scalar} {D : Dense S} {P : Problem}
    (s s' : Solver) : Prop :=
  primalSolution_ s' = primalSolution_ s /\
  performanceIndeces_ s' = performanceIndeces_ s /\
  totalNumIterations_ s' = totalNumIterations_ s.

(* The two states differ at most in the blocks of the subproblem
   (dynamics_, cost_, constraints_). *)
Definition sameButBlocks {S : Scalar} {D : Dense S} {P : Problem}
    (s t : Solver) : Prop :=
  primalSolution_ t = primalSolution_ s /\
  performanceIndeces_ t = performanceIndeces_ s /\
  totalNumIterations_ t = totalNumIterations_ s /\
  hpipmInterface_ t = hpipmInterface_ s /\
  regions t = regions s.

(* Two calls end alike: with the same result in the same state, or with the
   same exception in states that differ at most in the blocks. *)
Definition agree {S : Scalar} {D : Dense S} {P : Problem} {A}
    (o1 o2 : outcome A) : Prop :=
  match o1, o2 with
  | Ok a s, Ok b t => a = b /\ s = t
  | Throw what s, Throw what' t => what = what' /\ sameButBlocks s t
  | UB, UB => True
  | OutOfFuel, OutOfFuel => True
  | _, _ => False
  end.

(* [m] reads no block and leaves the solver as it is. *)
Definition blind {S : Scalar} {D : Dense S} {P : Problem} {A} (m : M A) : Prop :=
  forall s t, sameButBlocks s t ->
    m t = match m s with
          | Ok a _ => Ok a t
          | Throw what _ => Throw what t
          | UB => UB
          | OutOfFuel => OutOfFuel
          end.

(* The sizes that setupQuadraticSubproblem hands to the HPIPM interface for
   a horizon of [N] intervals and the constraint blocks [constraints]: with
   a constraint and the projection, the inputs of node [i] are the columns
   of its [dfdu]; with a constraint and no projection, the rows of its [f]
   are declared as general inequalities (for the nodes below [N]); without
   a constraint the sizes are constant. *)
Definition subproblemSize {S : Scalar} {D : Dense S} {P : Problem}
    (settings_ : Settings) (N : nat)
    (constraints : list VectorFunctionLinearApproximation) : OcpSize :=
  if hasConstraint then
    if projectStateInputEqualityConstraints settings_ then
      {| numStages := N;
         numStates := repeat (n_state settings_) (Datatypes.S N);
         numInputs := map (fun c => m_cols (dfdu c)) (firstn N constraints);
         numIneqConstraints := repeat 0%nat (Datatypes.S N) |}
    else
      {| numStages := N;
         numStates := repeat (n_state settings_) (Datatypes.S N);
         numInputs := repeat (n_input settings_) N;
         numIneqConstraints :=
           map (fun c => length (f c)) (firstn N constraints) ++ [0%nat] |}
  else OcpSize_make N (n_state settings_) (n_input settings_).

(* [new] is [old] with the entries [k .. k + n - 1] written from the
   constraint blocks of [s]. *)
Definition written {S : Scalar} {D : Dense S} {P : Problem}
    (s : Solver) (g : VectorFunctionLinearApproximation -> nat)
    (k n : nat) (old new : list nat) : Prop :=
  length new = length old /\
  (forall i, (k <= i < k + n)%nat ->
     exists c, nth_error (constraints_ s) i = Some c /\ nth_error new i = Some (g c)) /\
  (forall i, ~ (k <= i < k + n)%nat -> nth_error new i = nth_error old i).

(* What takeStep has done when it returns [converged] with the trajectories
   [x'], [u'] in state [s']: either it hands back [x], [u] and reports
   convergence, or it has moved them along the step [(dx, du)] by a step
   size [alpha_decay ^ k] above [alpha_min], the candidate has passed the
   filter against the baseline, and [converged] is the test of the exit
   conditions on it. *)
Definition stepTaken {S : Scalar} {D : Dense S} {P : Problem}
    (settings_ : Settings) (baseline : PerformanceIndex) (time : scalar_array_t)
    (initState : vector_t) (dx du x u : vector_array_t)
    (converged : bool) (x' u' : vector_array_t) (s' : Solver) : Prop :=
  (x' = x /\ u' = u /\ converged = true)
  \/
  exists k s1 p,
    let alpha := alphaAfter settings_ k in
    (alpha >? alpha_min settings_)%S = true /\
    (forall i, (Z.of_nat i < horizon time + 1)%Z ->
       exists xi dxi,
         nth_error x i = Some xi /\ nth_error dx i = Some dxi /\
         nth_error x' i = Some (v_add xi (v_scale alpha dxi))) /\
    (forall i, (Z.of_nat i < horizon time)%Z ->
       exists ui dui,
         nth_error u i = Some ui /\ nth_error du i = Some dui /\
         nth_error u' i = Some (v_add ui (v_scale alpha dui))) /\
    computePerformance settings_ time initState x' u' s1 = Ok p s' /\
    stepAccepted settings_ baseline p = true /\
    converged = stepSizeBelowTol settings_ (trajectoryNorm du) (trajectoryNorm dx) alpha
                || improvementBelowTol settings_ baseline p.

(* C1 in the words of the specification: the candidate [C] is accepted
   against the baseline [B] when [v <= g_max] and either [v < g_min] with a
   merit below the baseline's, or [g_min <= v <= g_max] with a merit below
   the baseline's minus [gamma_c * v_B] or a violation below
   [(1 - gamma_c) * v_B]. *)
Definition acceptedAsStated {S : Scalar} (settings_ : Settings)
    (B C : PerformanceIndex) : Prop :=
  let v := constraintViolation C in
  let v_B := constraintViolation B in
  (v <=? g_max settings_)%S = true /\
  (((v <? g_min settings_)%S = true /\ (merit C <? merit B)%S = true)
   \/
   ((g_min settings_ <=? v)%S = true /\ (v <=? g_max settings_)%S = true /\
    ((merit C <? merit B - gamma_c settings_ * v_B)%S = true
     \/ (v <? (s_one - gamma_c settings_) * v_B)%S = true))).

(* C5 in the words of the specification: the aggregate is the sum over the
   workers of their stateEqConstraintISE, plus the residual. *)
Definition stateEq_as_stated {S : Scalar} (performance : list PerformanceIndex)
    (residual aggregate : scalar_t) : Prop :=
  aggregate = (sum (map stateEqConstraintISE performance) + residual)%S.

(* C5 as the code sums: the residual is added to worker 0's
   stateEqConstraintISE, and the other workers' are added to that from left
   to right. *)
Definition stateEq_as_summed {S : Scalar} (performance : list PerformanceIndex)
    (residual aggregate : scalar_t) : Prop :=
  exists w0 rest,
    performance = w0 :: rest /\
    aggregate
    = fold_left s_add (map stateEqConstraintISE rest)
        (stateEqConstraintISE w0 + residual)%S.

(** Modelled from the spec: the contract of the time-grid builder
    [multiple_shooting::timeDiscretizationWithEvents], whose code is not in
    MultipleShootingSolver.cpp: section 4.1, "Output: a grid t_0..t_N with
    t_0=t0, t_N=tf". *)
Definition gridContract {S : Scalar} (t0 tf : scalar_t) (grid : scalar_array_t) : Prop :=
  nth_error grid 0 = Some t0 /\ exists g, grid = g ++ [tf].

(** ** IEEE doubles

    [scalar_t] as the binary64 floating-point numbers of the machine, with
    the comparisons of IEEE 754 (every comparison with a NaN is false). *)

Module Double.
Import Floats.

#[export] Instance double_Scalar : Scalar :=
  {| scalar_t := float; s_zero := 0%float; s_one := 1%float;
     s_add := PrimFloat.add; s_sub := PrimFloat.sub; s_mul := PrimFloat.mul;
     s_abs := PrimFloat.abs; s_sqrt := PrimFloat.sqrt;
     s_ltb := PrimFloat.ltb; s_leb := PrimFloat.leb |}.

(* Settings of a line search, in doubles *)
Definition settings : Settings :=
  {| sqpIteration := 1;
     deltaTol := 0x1p-10%float;
     costTol := 0x1p-10%float;
     alpha_decay := 0.5%float;
     alpha_min := 0.125%float;
     gamma_c := 0x1p-10%float;
     g_max := 10%float;
     g_min := 1%float;
     dt := 0.5%float;
     controllerFeedback := false;
     projectStateInputEqualityConstraints := false;
     n_state := 1;
     n_input := 1;
     nThreads := 2 |}.

(* A baseline of merit 3 without violation, and a candidate of merit 1 whose
   dynamics defect is NaN *)
Definition baseline : PerformanceIndex :=
  @Build_PerformanceIndex double_Scalar 3%float 3%float 0%float 0%float 0%float 0%float.
Definition diverged : PerformanceIndex :=
  @Build_PerformanceIndex double_Scalar 1%float 1%float nan 0%float 0%float 0%float.

(* Two more candidates against the baseline: one of merit 2 and violation
   1/2, one of merit 2 and violation 20 *)
Definition improved : PerformanceIndex :=
  @Build_PerformanceIndex double_Scalar 2%float 2%float 0.25%float 0%float 0%float 0%float.
Definition violating : PerformanceIndex :=
  @Build_PerformanceIndex double_Scalar 2%float 2%float 400%float 0%float 0%float 0%float.

(* Eigen's dense matrices over doubles, as lists of rows *)
Definition dot (a b : list float) : float :=
  fold_left (fun acc ab => (acc + fst ab * snd ab)%float) (combine a b) 0%float.

Definition rows_cols (m : list (list float)) : nat :=
  match m with
  | r :: _ => length r
  | [] => 0%nat
  end.

Fixpoint rows_add (a b : list (list float)) : list (list float) :=
  match a, b with
  | ra :: a', rb :: b' => v_add (S := double_Scalar) ra rb :: rows_add a' b'
  | _, _ => []
  end.

Definition rows_vec (m : list (list float)) (v : list float) : list float :=
  map (fun r => dot r v) m.

Definition rows_mul (a b : list (list float)) : list (list float) :=
  map (fun ra =>
         fold_left (fun acc kb => v_add (S := double_Scalar) acc
                                    (v_scale (S := double_Scalar) (fst kb) (snd kb)))
                   (combine ra b) (repeat 0%float (rows_cols b)))
      a.

#[export] Instance double_Dense : Dense double_Scalar :=
  {| matrix_t := list (list float); m_empty := [];
     m_cols := rows_cols; m_add := rows_add; m_mul := rows_mul;
     m_vec := rows_vec |}.

(* The index of a node with stage cost |x|^2 + |u|^2 and Euler defect
   x + dt u - x_next, and of the terminal node with cost |x|^2 *)
Definition nodePerformance (t dt : float) (x xnext u : list float) : PerformanceIndex :=
  {| merit := 0%float;
     totalCost := (squaredNorm (S := double_Scalar) x
                   + squaredNorm (S := double_Scalar) u)%float;
     stateEqConstraintISE :=
       squaredNorm (S := double_Scalar)
         (v_sub (S := double_Scalar)
            (v_add (S := double_Scalar) x (v_scale (S := double_Scalar) dt u)) xnext);
     stateInputEqConstraintISE := 0%float;
     inequalityConstraintISE := 0%float;
     inequalityConstraintPenalty := 0%float |}.

Definition terminalPerformance (t : float) (x : list float) : PerformanceIndex :=
  {| merit := 0%float;
     totalCost := squaredNorm (S := double_Scalar) x;
     stateEqConstraintISE := 0%float;
     stateInputEqConstraintISE := 0%float;
     inequalityConstraintISE := 0%float;
     inequalityConstraintPenalty := 0%float |}.

Definition no_constraint : VectorFunctionLinearApproximation :=
  {| f := []; dfdx := []; dfdu := [] |}.

(* A problem without constraint on a grid of three points, with a back-end
   that answers the zero step, and node [i] of region [r] claimed by worker
   [schedule r i]. *)
Definition problem (schedule : nat -> nat -> nat) : Problem :=
  {| CostBlock := unit;
     hasConstraint := false;
     hasTerminalCost := true;
     getSystemOperatingTrajectories := None;
     getModeSchedule := {| modeSequence := [0%nat]; eventTimes := [] |};
     limitEpsilon := 0x1p-20%float;
     timeDiscretizationWithEvents := fun t0 tf dt events eps =>
       [t0; ((t0 + tf) * 0.5)%float; tf];
     interpolate := fun t time data => hd [] data;
     setupIntermediateNode := fun project t dt x xnext u =>
       {| tr_performance := nodePerformance t dt x xnext u;
          tr_dynamics := {| f := [0%float]; dfdx := [[1%float]]; dfdu := [[dt]] |};
          tr_cost := tt;
          tr_constraints := no_constraint |};
     setupTerminalNode := fun t x =>
       {| tt_performance := terminalPerformance t x;
          tt_cost := tt;
          tt_constraints := no_constraint |};
     computeIntermediatePerformance := nodePerformance;
     computeTerminalPerformance := terminalPerformance;
     HpipmInterface := unit;
     hpipm_resize := fun _ h => h;
     hpipm_solve := fun h delta_x0 dynamics cost constraints =>
       (SUCCESS, repeat [0%float] (Datatypes.S (length dynamics)),
        repeat [0%float] (length dynamics), tt);
     getRiccatiFeedback := fun h d c => [];
     owner := schedule |}.

(* Node [i] goes to worker [i mod 2]. *)
Definition alternating (r i : nat) : nat := Nat.modulo i 2.

(* A freshly constructed solver *)
Definition fresh (schedule : nat -> nat -> nat) : Solver (P := problem schedule) :=
  @Build_Solver double_Scalar double_Dense (problem schedule)
    PrimalSolution_default [] 0%nat [] [] [] tt 0%nat.

(* Two intervals with defects of squared norm 1 and 2^-53, from a state at
   squared distance 2^-52 of x[0]: worker 0 holds 1, worker 1 holds 2^-53. *)
Definition grid : list float := [0; 0.5; 1]%float.
Definition xs : list (list float) :=
  [[0; 0]; [-1; 0]; [-0x1.0000002p+0; -0x1p-27]]%float.
Definition us : list (list float) := [[0; 0]; [0; 0]]%float.
Definition start : list float := [0x1p-26; 0]%float.

Definition assembled :=
  Eval vm_compute in
    setupQuadraticSubproblem (P := problem alternating) settings grid start xs us
      (fresh alternating).

(* The residual 2^-52, the aggregate (1 + 2^-52) + 2^-53 that the code
   returns, and the sum over the workers plus the residual,
   (1 + 2^-53) + 2^-52 *)
Definition residual : float := 0x1p-52%float.
Definition summed : float := 0x1.0000000000002p+0%float.
Definition stated : float := 0x1.0000000000001p+0%float.

(* A direction whose norm depends on the order of the sum: 0.1, then
   (0.1, 0.3) *)
Definition zigzag : list (list float) :=
  [[0x1.999999999999ap-4]; [0x1.999999999999ap-4; 0x1.3333333333333p-2]]%float.


(* Settings inside the ranges of section 6 with which the step size never
   decays to alpha_min: 3/4 of the smallest double above alpha_min = 2^-1074
   rounds to that double. *)
Definition stalling : Settings :=
  {| sqpIteration := 1;
     deltaTol := 0x1p-10%float;
     costTol := 0x1p-10%float;
     alpha_decay := 0.75%float;
     alpha_min := 0x1p-1074%float;
     gamma_c := 0x1p-10%float;
     g_max := 10%float;
     g_min := 1%float;
     dt := 0.5%float;
     controllerFeedback := false;
     projectStateInputEqualityConstraints := false;
     n_state := 1;
     n_input := 1;
     nThreads := 2 |}.

End Double.

(** ** LeggedRobotMpcnetDefinition
    (ocs2_legged_robot_mpcnet/LeggedRobotMpcnetDefinition.cpp)

    The state check [validState] and the generalized time
    [getGeneralizedTime], over doubles. *)

Module LeggedRobotMpcnetDefinition.
Import Floats.
Import Double.

(* A line written to std::cerr: the text and the number streamed after it *)
Definition cerr_line : Type := (string * float)%type.

(* M_PI of <cmath>, 3.14159265358979323846 as a double *)
Definition M_PI : float := 0x1.921fb54442d18p+1%float.

(* Coefficient i of an Eigen vector: undefined past the end *)
Definition coeff (v : vector_t (S := double_Scalar)) (i : nat) : option float :=
  nth_error v i.

(* bool LeggedRobotMpcnetDefinition::validState(const vector_t& x): the
   verdict and the lines written to std::cerr; [None] when the sizes of [x]
   and [defaultState_] differ or a coefficient is read past the end.  The
   literal 0.2 is the double 0x1.999999999999ap-3. *)
Definition validState (defaultState_ x : vector_t (S := double_Scalar))
    : option (bool * list cerr_line) :=
  if negb (Nat.eqb (length x) (length defaultState_)) then None else
  let deviation := v_sub x defaultState_ in
  match coeff deviation 8 with
  | None => None
  | Some d8 =>
      if (0x1.999999999999ap-3 <? abs d8)%float then
        option_map
          (fun x8 =>
             (false,
              [("LeggedRobotMpcnetDefinition::validState Height diverged: "%string, x8)]))
          (coeff x 8)
      else
        match coeff deviation 10 with
        | None => None
        | Some d10 =>
            if (30 * M_PI / 180 <? abs d10)%float then
              option_map
                (fun x10 =>
                   (false,
                    [("LeggedRobotMpcnetDefinition::validState Pitch diverged: "%string,
                      x10)]))
                (coeff x 10)
            else
              match coeff deviation 11 with
              | None => None
              | Some d11 =>
                  if (30 * M_PI / 180 <? abs d11)%float then
                    option_map
                      (fun x11 =>
                         (false,
                          [("LeggedRobotMpcnetDefinition::validState Roll diverged: "%string,
                            x11)]))
                      (coeff x 11)
                  else Some (true, [])
              end
        end
  end.

(* LegPhase of ocs2_legged_robot, as getGeneralizedTime reads it *)
Record LegPhase : Type := {
  phase : float;
  duration : float
}.

Section GeneralizedTime.
(* Defined outside LeggedRobotMpcnetDefinition.cpp: the number of contact
   points, the phases of the legs (a feet_array_t, one LegPhase per contact
   point) and std::sin. *)
Variable NUM_CONTACT_POINTS : nat.
Variable getSwingPhasePerLeg : float -> ModeSchedule (S := double_Scalar) -> list LegPhase.
Variable sin : float -> float.

(* for (int i = first; i < first + n; i++) { v[i] = entry(i); } *)
Definition fill (entry : nat -> option float) (first n : nat) (v : list float)
    : option (list float) :=
  fold_left
    (fun acc i =>
       match acc, entry i with
       | Some w, Some e => assign w i e
       | _, _ => None
       end)
    (seq first n) (Some v).

(* vector_t LeggedRobotMpcnetDefinition::getGeneralizedTime(scalar_t t,
                                                 const ModeSchedule& modeSchedule);
   [garbage] is what resize leaves in the coefficients. *)
Definition getGeneralizedTime (garbage : float) (t : float)
    (modeSchedule : ModeSchedule (S := double_Scalar)) : option (list float) :=
  let swingPhasePerLeg := getSwingPhasePerLeg t modeSchedule in
  let leg (i : nat) := nth_error swingPhasePerLeg (Nat.modulo i NUM_CONTACT_POINTS) in
  let generalizedTime := repeat garbage (3 * NUM_CONTACT_POINTS) in
  (* phase *)
  match fill (fun i => option_map
                         (fun l => if (phase l <? 0)%float then 0%float else phase l)
                         (leg i))
             (0 * NUM_CONTACT_POINTS) NUM_CONTACT_POINTS generalizedTime with
  | None => None
  | Some generalizedTime =>
      (* phase rate *)
      match fill (fun i => option_map
                             (fun l => if (phase l <? 0)%float then 0%float
                                       else (1 / duration l)%float)
                             (leg i))
                 (1 * NUM_CONTACT_POINTS) NUM_CONTACT_POINTS generalizedTime with
      | None => None
      | Some generalizedTime =>
          (* sin(pi * phase) *)
          fill (fun i => option_map
                           (fun l => if (phase l <? 0)%float then 0%float
                                     else sin (M_PI * phase l)%float)
                           (leg i))
               (2 * NUM_CONTACT_POINTS) NUM_CONTACT_POINTS generalizedTime
      end
  end.

End GeneralizedTime.

(* Four legs, two of them in stance (negative phase) *)
Definition trot : list LegPhase :=
  [ {| phase := 0.25%float; duration := 0.5%float |};
    {| phase := (-1)%float; duration := 0.5%float |};
    {| phase := (-1)%float; duration := 0.5%float |};
    {| phase := 0.25%float; duration := 0.5%float |} ].

(* The Taylor polynomial of the sine to the fifth order *)
Definition sine (a : float) : float :=
  (a - a * a * a / 6 + a * a * a * a * a / 120)%float.

(* A twelve-dimensional state that is NaN in height, pitch and roll *)
Definition lost : list float :=
  [0; 0; 0; 0; 0; 0; 0; 0; nan; 0; nan; nan]%float.

End LeggedRobotMpcnetDefinition.

(** * Properties *)

(** ** The rationals have an exact sum *)

Lemma Q_ExactSum : ExactSum Rational.Q_Scalar.
Proof.
  constructor.
  - intros [a b] [c d] [e g]. change ((a # b) + ((c # d) + (e # g)) = (a # b) + (c # d) + (e # g))%Q.
    unfold Qplus. simpl Qnum. simpl Qden. f_equal.
    + rewrite !Pos2Z.inj_mul. ring.
    + apply Pos.mul_assoc.
  - intros [a b] [c d]. change ((a # b) + (c # d) = (c # d) + (a # b))%Q.
    unfold Qplus. simpl Qnum. simpl Qden. f_equal.
    + ring.
    + apply Pos.mul_comm.
  - intros [a b]. change (0 + (a # b) = a # b)%Q.
    unfold Qplus. simpl Qnum. simpl Qden. f_equal.
    rewrite Z.mul_0_l, Z.add_0_l. apply Z.mul_1_r.
Qed.

(** ** C1: the acceptance rule of the filter *)

Section Filter.
Context {S : Scalar}.

(** C1, amended.  A candidate with violation
    [v = sqrt (stateEq + stateInputEq + ineq)] is accepted exactly when
    [v > g_max] does not hold and either [v < g_min] and its merit is below
    the baseline's, or [v < g_min] does not hold and (its merit is below the
    baseline's minus [gamma_c * v_B], or [v < (1 - gamma_c) * v_B]); a
    candidate with [v > g_max] is rejected.  When [v] is comparable with the
    two bounds ([v <= g_max] is the complement of [v > g_max], [g_min <= v]
    that of [v < g_min]: every [v] that is a number), this is the acceptance
    rule as the specification states it.  An accepted candidate has a merit
    below the baseline's, or below the baseline's minus [gamma_c * v_B], or
    a violation below [(1 - gamma_c) * v_B]. *)
Theorem stepAccepted_filter (settings_ : Settings) (B C : PerformanceIndex) :
  let v := s_sqrt (stateEqConstraintISE C + stateInputEqConstraintISE C
                   + inequalityConstraintISE C)%S in
  let v_B := s_sqrt (stateEqConstraintISE B + stateInputEqConstraintISE B
                     + inequalityConstraintISE B)%S in
  (stepAccepted settings_ B C = true <->
     (v >? g_max settings_)%S = false /\
     (((v <? g_min settings_)%S = true /\ (merit C <? merit B)%S = true)
      \/
      ((v <? g_min settings_)%S = false /\
       ((merit C <? merit B - gamma_c settings_ * v_B)%S = true
        \/ (v <? (s_one - gamma_c settings_) * v_B)%S = true))))
  /\
  ((v >? g_max settings_)%S = true -> stepAccepted settings_ B C = false)
  /\
  ((v <=? g_max settings_)%S = negb (v >? g_max settings_)%S ->
   (g_min settings_ <=? v)%S = negb (v <? g_min settings_)%S ->
   (stepAccepted settings_ B C = true <-> acceptedAsStated settings_ B C))
  /\
  (stepAccepted settings_ B C = true ->
   (merit C <? merit B)%S = true
   \/ (merit C <? merit B - gamma_c settings_ * v_B)%S = true
   \/ (v <? (s_one - gamma_c settings_) * v_B)%S = true).
Proof.
  intros v v_B. unfold acceptedAsStated, stepAccepted, constraintViolation. fold v v_B.
  destruct (v >? g_max settings_)%S eqn:Hmax.
  - split; [ | split; [ | split]].
    + split; [discriminate | ]. intros [H _]. discriminate.
    + reflexivity.
    + intros -> _. cbn. split; [discriminate | ]. intros [H _]. discriminate.
    + discriminate.
  - destruct (v <? g_min settings_)%S eqn:Hmin.
    + split; [ | split; [ | split]].
      * split.
        -- intros H. split; [reflexivity | ]. left. now split.
        -- intros [_ [[_ H] | [H _]]]; [exact H | discriminate].
      * discriminate.
      * intros -> ->. cbn. split.
        -- intros H. split; [reflexivity | ]. left. now split.
        -- intros [_ [[_ H] | [H _]]]; [exact H | discriminate].
      * intros H. now left.
    + rewrite orb_true_iff. split; [ | split; [ | split]].
      * split.
        -- intros H. split; [reflexivity | ]. right. now split.
        -- intros [_ [[H _] | [_ H]]]; [discriminate | exact H].
      * discriminate.
      * intros -> ->. cbn. split.
        -- intros H. split; [reflexivity | ]. right. repeat split. exact H.
        -- intros [_ [[H _] | [_ [_ H]]]]; [discriminate | exact H].
      * intros H. right. exact H.
Qed.

End Filter.

(* Over doubles, against a baseline of merit 3: a candidate of merit 2 and
   violation 1/2 < g_min is accepted, one of violation 20 > g_max is
   rejected. *)
Lemma stepAccepted_filter_witness :
  stepAccepted Double.settings Double.baseline Double.improved = true /\
  stepAccepted Double.settings Double.baseline Double.violating = false.
Proof.
  split.
  - destruct (stepAccepted_filter Double.settings Double.baseline Double.improved)
      as (_ & _ & Hstated & _).
    apply Hstated; [reflexivity | reflexivity | ].
    split; [reflexivity | ]. left. split; reflexivity.
  - destruct (stepAccepted_filter Double.settings Double.baseline Double.violating)
      as (_ & Hmax & _).
    apply Hmax. reflexivity.
Defined.

(** C1 as stated fails: over doubles, a candidate of merit 1 whose violation
    is NaN is accepted against a baseline of merit 3, although [v <= g_max]
    does not hold. *)
Lemma stepAccepted_filter_as_stated_fails :
  stepAccepted Double.settings Double.baseline Double.diverged = true /\
  ~ acceptedAsStated Double.settings Double.baseline Double.diverged.
Proof.
  split; [reflexivity | ].
  intros [H _]. vm_compute in H. discriminate H.
Qed.

(** ** Reasoning about outcomes *)

Section Outcomes.
Context {S : Scalar} {D : Dense S} {P : Problem}.

Lemma bind_Ok {A B} (m : M A) (k : A -> M B) s b s' :
  bind m k s = Ok b s' ->
  exists a s1, m s = Ok a s1 /\ k a s1 = Ok b s'.
Proof.
  unfold bind. destruct (m s) as [a s1 | | | ]; try discriminate.
  intros H. now exists a, s1.
Qed.

Lemma at_Ok {A} (v : list A) i s a s' :
  at_ v i s = Ok a s' -> nth_error v i = Some a /\ s' = s.
Proof.
  unfold at_. destruct (nth_error v i); cbn; [ | discriminate].
  intros H. inversion H. now split.
Qed.

Lemma front_Ok {A} (v : list A) s a s' :
  front v s = Ok a s' -> nth_error v 0 = Some a /\ s' = s.
Proof. apply at_Ok. Qed.

Lemma back_Ok {A} (v : list A) s a s' :
  back v s = Ok a s' -> (exists v0, v = v0 ++ [a]) /\ s' = s.
Proof.
  unfold back. destruct (rev v) as [ | b r] eqn:E; cbn; [discriminate | ].
  intros H. inversion H; subst. split; [ | reflexivity].
  exists (rev r). rewrite <- (rev_involutive v), E. reflexivity.
Qed.

Lemma assign_length {A} (v : list A) i a v' :
  assign v i a = Some v' -> length v' = length v.
Proof.
  revert i v'. induction v as [ | b v IH]; intros [ | i] v'; cbn; try discriminate.
  - intros H. now inversion H.
  - destruct (assign v i a) as [w | ] eqn:E; cbn; [ | discriminate].
    intros H. inversion H. cbn. f_equal. now apply (IH i).
Qed.

Lemma assign_nth_error {A} (v : list A) i a v' j :
  assign v i a = Some v' ->
  nth_error v' j = if Nat.eqb i j then Some a else nth_error v j.
Proof.
  revert i v' j. induction v as [ | b v IH]; intros [ | i] v' j; cbn; try discriminate.
  - intros H. inversion H. now destruct j.
  - destruct (assign v i a) as [w | ] eqn:E; cbn; [ | discriminate].
    intros H. inversion H. destruct j as [ | j]; cbn; [reflexivity | ].
    now apply IH.
Qed.

Lemma assign_Ok {A} (v : list A) i a s v' s' :
  assign_ v i a s = Ok v' s' -> assign v i a = Some v' /\ s' = s.
Proof.
  unfold assign_. destruct (assign v i a); cbn; [ | discriminate].
  intros H. inversion H. now split.
Qed.

Lemma mapM_length {A B} (g : A -> M B) l s bs s' :
  mapM g l s = Ok bs s' -> length bs = length l.
Proof.
  revert s bs. induction l as [ | a l IH]; intros s bs; cbn.
  - intros H. now inversion H.
  - intros H. apply bind_Ok in H. destruct H as (b & s1 & _ & H).
    apply bind_Ok in H. destruct H as (bs0 & s2 & E & H).
    inversion H; subst. cbn. f_equal. eapply IH, E.
Qed.

Section Frame.
Variable R : Solver -> Solver -> Prop.
Hypothesis R_refl : forall s, R s s.
Hypothesis R_trans : forall s1 s2 s3, R s1 s2 -> R s2 s3 -> R s1 s3.

Lemma preserves_ret {A} (a : A) : preserves R (ret a).
Proof. intros s. apply R_refl. Qed.

Lemma preserves_throw {A} what : preserves R (throw (A := A) what).
Proof. intros s. apply R_refl. Qed.

Lemma preserves_undefined {A} : preserves R (undefined (A := A)).
Proof. intros s. exact I. Qed.

Lemma preserves_get : preserves R get.
Proof. intros s. apply R_refl. Qed.

Lemma preserves_bind {A B} (m : M A) (k : A -> M B) :
  preserves R m -> (forall a, preserves R (k a)) -> preserves R (bind m k).
Proof.
  intros Hm Hk s. unfold bind. specialize (Hm s).
  destruct (m s) as [a s1 | what s1 | | ]; try exact I; [ | exact Hm].
  specialize (Hk a s1). destruct (k a s1); try exact I; eapply R_trans; eauto.
Qed.

Lemma preserves_at {A} (v : list A) i : preserves R (at_ v i).
Proof.
  unfold at_. destruct (nth_error v i); [apply preserves_ret | apply preserves_undefined].
Qed.

Lemma preserves_back {A} (v : list A) : preserves R (back v).
Proof.
  unfold back. destruct (rev v); [apply preserves_undefined | apply preserves_ret].
Qed.

Lemma preserves_assign {A} (v : list A) i a : preserves R (assign_ v i a).
Proof.
  unfold assign_. destruct (assign v i a); [apply preserves_ret | apply preserves_undefined].
Qed.

Lemma preserves_mapM {A B} (g : A -> M B) l :
  (forall a, preserves R (g a)) -> preserves R (mapM g l).
Proof.
  intros Hg. induction l as [ | a l IH]; cbn; [apply preserves_ret | ].
  apply preserves_bind; [apply Hg | intros b].
  apply preserves_bind; [apply IH | intros bs]. apply preserves_ret.
Qed.

Lemma preserves_foldM {A B} (g : B -> A -> M B) l :
  (forall b a, preserves R (g b a)) -> forall b, preserves R (foldM g l b).
Proof.
  intros Hg. induction l as [ | a l IH]; intros b; cbn; [apply preserves_ret | ].
  apply preserves_bind; [apply Hg | exact IH].
Qed.

Lemma preserves_Ok {A} (m : M A) s a s' :
  preserves R m -> m s = Ok a s' -> R s s'.
Proof. intros H E. specialize (H s). now rewrite E in H. Qed.

Lemma preserves_Throw {A} (m : M A) s what s' :
  preserves R m -> m s = Throw what s' -> R s s'.
Proof. intros H E. specialize (H s). now rewrite E in H. Qed.

End Frame.

Lemma nothrow_bind {A B} (m : M A) (k : A -> M B) :
  nothrow m -> (forall a, nothrow (k a)) -> nothrow (bind m k).
Proof.
  intros Hm Hk s what s'. unfold bind.
  destruct (m s) as [a s1 | w s1 | | ] eqn:E; try discriminate.
  - apply Hk.
  - now apply Hm in E.
Qed.

Lemma nothrow_ret {A} (a : A) : nothrow (ret a).
Proof. intros s what s'. discriminate. Qed.

Lemma nothrow_undefined {A} : nothrow (undefined (A := A)).
Proof. intros s what s'. discriminate. Qed.

Lemma nothrow_get : nothrow get.
Proof. intros s what s'. discriminate. Qed.

Lemma nothrow_at {A} (v : list A) i : nothrow (at_ v i).
Proof.
  unfold at_. destruct (nth_error v i); [apply nothrow_ret | apply nothrow_undefined].
Qed.

Lemma nothrow_back {A} (v : list A) : nothrow (back v).
Proof.
  unfold back. destruct (rev v); [apply nothrow_undefined | apply nothrow_ret].
Qed.

Lemma nothrow_assign {A} (v : list A) i a : nothrow (assign_ v i a).
Proof.
  unfold assign_. destruct (assign v i a); [apply nothrow_ret | apply nothrow_undefined].
Qed.

Lemma nothrow_foldM {A B} (g : B -> A -> M B) l :
  (forall b a, nothrow (g b a)) -> forall b, nothrow (foldM g l b).
Proof.
  intros Hg. induction l as [ | a l IH]; intros b; cbn; [apply nothrow_ret | ].
  apply nothrow_bind; [apply Hg | exact IH].
Qed.

Lemma fuelfree_bind {A B} (m : M A) (k : A -> M B) :
  fuelfree m -> (forall a, fuelfree (k a)) -> fuelfree (bind m k).
Proof.
  intros Hm Hk s. unfold bind.
  destruct (m s) as [a s1 | w s1 | | ] eqn:E; try discriminate.
  - apply Hk.
  - now apply Hm in E.
Qed.

Lemma fuelfree_ret {A} (a : A) : fuelfree (ret a).
Proof. intros s. discriminate. Qed.

Lemma fuelfree_undefined {A} : fuelfree (undefined (A := A)).
Proof. intros s. discriminate. Qed.

Lemma fuelfree_get : fuelfree get.
Proof. intros s. discriminate. Qed.

Lemma fuelfree_at {A} (v : list A) i : fuelfree (at_ v i).
Proof.
  unfold at_. destruct (nth_error v i); [apply fuelfree_ret | apply fuelfree_undefined].
Qed.

Lemma fuelfree_assign {A} (v : list A) i a : fuelfree (assign_ v i a).
Proof.
  unfold assign_. destruct (assign v i a); [apply fuelfree_ret | apply fuelfree_undefined].
Qed.

Lemma fuelfree_mapM {A B} (g : A -> M B) l :
  (forall a, fuelfree (g a)) -> fuelfree (mapM g l).
Proof.
  intros Hg. induction l as [ | a l IH]; cbn; [apply fuelfree_ret | ].
  apply fuelfree_bind; [apply Hg | intros b].
  apply fuelfree_bind; [apply IH | intros bs]. apply fuelfree_ret.
Qed.

Lemma fuelfree_foldM {A B} (g : B -> A -> M B) l :
  (forall b a, fuelfree (g b a)) -> forall b, fuelfree (foldM g l b).
Proof.
  intros Hg. induction l as [ | a l IH]; intros b; cbn; [apply fuelfree_ret | ].
  apply fuelfree_bind; [apply Hg | exact IH].
Qed.

End Outcomes.

(* Goals [preserves R m] and [nothrow m], by the structure of [m]. *)
Ltac frame_step :=
  match goal with
  | |- preserves _ (bind _ _) => apply preserves_bind; [assumption | | intros ?]
  | |- preserves _ (ret _) => apply preserves_ret; assumption
  | |- preserves _ (throw _) => apply preserves_throw; assumption
  | |- preserves _ undefined => apply preserves_undefined
  | |- preserves _ get => apply preserves_get; assumption
  | |- preserves _ (at_ _ _) => apply preserves_at; assumption
  | |- preserves _ (front _) => apply preserves_at; assumption
  | |- preserves _ (back _) => apply preserves_back; assumption
  | |- preserves _ (assign_ _ _ _) => apply preserves_assign; assumption
  | |- preserves _ (mapM _ _) => apply preserves_mapM; [assumption | assumption | intros ?]
  | |- preserves _ (foldM _ _ _) => apply preserves_foldM; [assumption | assumption | intros ? ?]
  | |- nothrow (bind _ _) => apply nothrow_bind; [ | intros ?]
  | |- nothrow (ret _) => apply nothrow_ret
  | |- nothrow undefined => apply nothrow_undefined
  | |- nothrow get => apply nothrow_get
  | |- nothrow (at_ _ _) => apply nothrow_at
  | |- nothrow (back _) => apply nothrow_back
  | |- nothrow (assign_ _ _ _) => apply nothrow_assign
  | |- nothrow (foldM _ _ _) => apply nothrow_foldM; intros ? ?
  | |- fuelfree (bind _ _) => apply fuelfree_bind; [ | intros ?]
  | |- fuelfree (ret _) => apply fuelfree_ret
  | |- fuelfree undefined => apply fuelfree_undefined
  | |- fuelfree get => apply fuelfree_get
  | |- fuelfree (at_ _ _) => apply fuelfree_at
  | |- fuelfree (front _) => apply fuelfree_at
  | |- fuelfree (assign_ _ _ _) => apply fuelfree_assign
  | |- fuelfree (mapM _ _) => apply fuelfree_mapM; intros ?
  | |- fuelfree (foldM _ _ _) => apply fuelfree_foldM; intros ? ?
  | |- context [if ?b then _ else _] => destruct b
  | |- context [let '(_, _) := ?p in _] => destruct p
  | |- context [match ?o with Some _ => _ | None => _ end] => destruct o
  end.
Ltac frame := repeat frame_step.

(* [H : bind m k s = Ok b s'] becomes the run of [m] and the run of [k]. *)
Ltac bind_inv H :=
  let a := fresh "a" in
  let s := fresh "s" in
  let E := fresh "E" in
  apply bind_Ok in H; destruct H as (a & s & E & H).

(* [H : m s = Ok a s'] for a read-only [m]: the state is unchanged. *)
Ltac pure_inv H :=
  first
    [ apply at_Ok in H | apply front_Ok in H | apply back_Ok in H
    | apply assign_Ok in H ];
  let E := fresh "E" in destruct H as [H E]; subst.

Ltac pure_all :=
  repeat match goal with
  | R : at_ _ _ _ = Ok _ _ |- _ => pure_inv R
  | R : front _ _ = Ok _ _ |- _ => pure_inv R
  | R : back _ _ = Ok _ _ |- _ => pure_inv R
  | R : assign_ _ _ _ _ = Ok _ _ |- _ => pure_inv R
  | R : ret _ _ = Ok _ _ |- _ => inversion R; subst; clear R
  | R : get _ = Ok _ _ |- _ => inversion R; subst; clear R
  end.

(* Split [H] along its binds, resolving the read-only steps on the way. *)
Ltac monad_inv H := repeat (bind_inv H; pure_all); pure_all.

(** ** C4 and C5: the reduction of the workers' indices *)

Section Reduction.
Context {S : Scalar} {D : Dense S} {P : Problem}.

Lemma sumPerformance_merit performance s p s' :
  sumPerformance performance s = Ok p s' ->
  merit p = (totalCost p + inequalityConstraintPenalty p)%S.
Proof.
  destruct performance as [ | p0 rest]; cbn; [discriminate | ].
  intros H. inversion H. reflexivity.
Qed.

Lemma sameButMerit_plus a a' b b' :
  sameButMerit a a' -> sameButMerit b b' ->
  sameButMerit (PerformanceIndex_plus a b) (PerformanceIndex_plus a' b').
Proof.
  unfold sameButMerit. cbn. intros (-> & -> & -> & -> & ->) (-> & -> & -> & -> & ->).
  repeat split.
Qed.

Lemma sameButMerit_accumulate rest rest' :
  Forall2 sameButMerit rest rest' ->
  forall p p', sameButMerit p p' ->
  sameButMerit (fold_left PerformanceIndex_plus rest p)
               (fold_left PerformanceIndex_plus rest' p').
Proof.
  induction 1 as [ | a a' rest rest' Ha _ IH]; intros p p' Hp; cbn; [exact Hp | ].
  apply IH. now apply sameButMerit_plus.
Qed.

Lemma sameButMerit_set_merit a a' :
  sameButMerit a a' ->
  set_merit a (totalCost a + inequalityConstraintPenalty a)%S
  = set_merit a' (totalCost a' + inequalityConstraintPenalty a')%S.
Proof.
  destruct a, a'. unfold sameButMerit, set_merit. cbn.
  intros (-> & -> & -> & -> & ->). reflexivity.
Qed.

(** C4.  The index that [setupQuadraticSubproblem] returns, and the one that
    [computePerformance] returns, has [merit = totalCost +
    inequalityConstraintPenalty]; the merits that the workers accumulated
    play no part: the reduction of two sequences of worker indices that
    differ in their merits only is the same. *)
Theorem merit_identity (settings_ : Settings) :
  (forall time initState x u s p s',
      setupQuadraticSubproblem settings_ time initState x u s = Ok p s' ->
      merit p = (totalCost p + inequalityConstraintPenalty p)%S)
  /\
  (forall time initState x u s p s',
      computePerformance settings_ time initState x u s = Ok p s' ->
      merit p = (totalCost p + inequalityConstraintPenalty p)%S)
  /\
  (forall performance performance' s,
      Forall2 sameButMerit performance performance' ->
      sumPerformance performance s = sumPerformance performance' s).
Proof.
  split; [ | split].
  - intros time initState x u s p s'. unfold setupQuadraticSubproblem.
    destruct (horizon time <? 0)%Z; [discriminate | ].
    intros H. do 8 bind_inv H. eapply sumPerformance_merit, H.
  - intros time initState x u s p s'. unfold computePerformance.
    intros H. do 3 bind_inv H. eapply sumPerformance_merit, H.
  - intros performance performance' s [ | a a' rest rest' Ha Hrest]; cbn;
      [reflexivity | ].
    unfold ret. f_equal.
    apply sameButMerit_set_merit. now apply sameButMerit_accumulate.
Qed.

Lemma accumulate_stateEq rest p :
  stateEqConstraintISE (fold_left PerformanceIndex_plus rest p)
  = fold_left s_add (map stateEqConstraintISE rest) (stateEqConstraintISE p).
Proof.
  revert p. induction rest as [ | a rest IH]; intros p; cbn; [reflexivity | ].
  now rewrite IH.
Qed.

Lemma fold_add_shift (E : ExactSum S) (l : list scalar_t) a b :
  fold_left s_add l (a + b)%S = (fold_left s_add l a + b)%S.
Proof.
  revert a. induction l as [ | c l IH]; intros a; cbn; [reflexivity | ].
  rewrite <- IH. f_equal.
  rewrite <- !add_assoc. f_equal. apply add_comm.
Qed.

Lemma sumPerformance_stateEq (E : ExactSum S) performance initState x s1 adjusted s2 p s3 s' :
  accountInitState performance initState x s1 = Ok adjusted s2 ->
  sumPerformance adjusted s3 = Ok p s' ->
  exists x0, nth_error x 0 = Some x0 /\
    stateEqConstraintISE p
    = (sum (map stateEqConstraintISE performance)
       + squaredNorm (v_sub initState x0))%S.
Proof.
  unfold accountInitState. intros H Hsum. monad_inv H.
  match goal with R : nth_error x 0 = Some ?a |- _ => exists a; split; [exact R | ] end.
  destruct performance as [ | p0 rest]; [discriminate | ].
  repeat match goal with
         | R : nth_error (_ :: _) 0 = Some _ |- _ => cbn in R; inversion R; subst; clear R
         | R : assign (_ :: _) 0 _ = Some _ |- _ => cbn in R; inversion R; subst; clear R
         end.
  cbn in Hsum. inversion Hsum; subst p. cbn.
  rewrite accumulate_stateEq. cbn. unfold sum. cbn.
  rewrite add_0_l. apply fold_add_shift, E.
Qed.

Lemma sumPerformance_stateEq_summed performance initState x s1 adjusted s2 p s3 s' :
  accountInitState performance initState x s1 = Ok adjusted s2 ->
  sumPerformance adjusted s3 = Ok p s' ->
  exists x0, nth_error x 0 = Some x0 /\
    stateEq_as_summed performance (squaredNorm (v_sub initState x0))
      (stateEqConstraintISE p).
Proof.
  unfold accountInitState. intros H Hsum. monad_inv H.
  match goal with R : nth_error x 0 = Some ?a |- _ => exists a; split; [exact R | ] end.
  destruct performance as [ | p0 rest]; [discriminate | ].
  repeat match goal with
         | R : nth_error (_ :: _) 0 = Some _ |- _ => cbn in R; inversion R; subst; clear R
         | R : assign (_ :: _) 0 _ = Some _ |- _ => cbn in R; inversion R; subst; clear R
         end.
  cbn in Hsum. inversion Hsum; subst p. cbn.
  eexists _, rest. split; [reflexivity | ]. now rewrite accumulate_stateEq.
Qed.

(** C5, amended.  The [stateEqConstraintISE] of the index that
    [setupQuadraticSubproblem] returns is the left-to-right sum, in worker
    order, that starts from worker 0's [stateEqConstraintISE] plus the
    residual [|initState - x.front()|^2] and adds the other workers':
    [((w_0 + r) + w_1) + ...], each [w] being what the worker has
    accumulated over the nodes it claimed.  With an exact sum this is the
    sum over the workers plus the residual. *)
Theorem assembly_stateEq (settings_ : Settings) time initState x u s p s' :
  setupQuadraticSubproblem settings_ time initState x u s = Ok p s' ->
  exists s1 nodes tN xN x0,
    mapM (intermediateNode settings_ time x u)
         (seq 0 (Z.to_nat (horizon time))) s1 = Ok nodes s1 /\
    nth_error time (Z.to_nat (horizon time)) = Some tN /\
    nth_error x (Z.to_nat (horizon time)) = Some xN /\
    nth_error x 0 = Some x0 /\
    let performance :=
      joinPerformance settings_ (owner (regions s))
        (map (@tr_performance _ _ _) nodes
         ++ [tt_performance (setupTerminalNode tN xN)]) in
    let residual := squaredNorm (v_sub initState x0) in
    stateEq_as_summed performance residual (stateEqConstraintISE p) /\
    (ExactSum S -> stateEq_as_stated performance residual (stateEqConstraintISE p)).
Proof.
  unfold setupQuadraticSubproblem.
  destruct (horizon time <? 0)%Z; [discriminate | ].
  intros H. bind_inv H.
  match goal with R : nextRegion _ = Ok _ _ |- _ =>
    unfold nextRegion in R; inversion R; subst; clear R end.
  bind_inv H.
  match goal with R : mapM _ _ ?sa = Ok ?nodes ?sb |- _ =>
    rename R into Hnodes; rename nodes into nodes0;
    assert (Hs : sa = sb) end.
  { eapply (preserves_Ok (R := eq)); [ | exact Hnodes].
    assert (Ht : forall a b c : Solver, a = b -> b = c -> a = c) by congruence.
    assert (Hr : forall a : Solver, a = a) by reflexivity.
    unfold intermediateNode. frame. }
  subst. monad_inv H.
  match goal with R : accountInitState _ _ _ _ = Ok _ _ |- _ =>
    rename R into Hacc end.
  edestruct sumPerformance_stateEq_summed as (x0 & Hx0 & Hsummed);
    [exact Hacc | exact H | ].
  eexists _, nodes0, _, _, x0.
  split; [eassumption | ]. split; [eassumption | ]. split; [eassumption | ].
  split; [exact Hx0 | ]. split; [exact Hsummed | ].
  intros Hexact. unfold stateEq_as_stated.
  edestruct (@sumPerformance_stateEq Hexact) as (x0' & Hx0' & Heq);
    [exact Hacc | exact H | ].
  rewrite Hx0 in Hx0'. injection Hx0' as <-. exact Heq.
Qed.

End Reduction.

(* The subproblem of the one-dimensional problem on the grid (0, 1/2, 1), at
   x = (1, 1/2, 1/2), u = (0, 0), from the state 2, with two workers. *)
Lemma merit_identity_witness :
  match setupQuadraticSubproblem (P := Rational.problem false SUCCESS)
          (Rational.settings 1 false false) [0%Q; 1 # 2; 1%Q] [2%Q]
          [[1%Q]; [1 # 2]; [1 # 2]] [[0%Q]; [0%Q]] (Rational.fresh false SUCCESS)
  with
  | Ok p _ => merit p = (totalCost p + inequalityConstraintPenalty p)%S
  | _ => False
  end.
Proof.
  destruct (setupQuadraticSubproblem _ _ _ _ _ _) as [p s' | what s' | | ] eqn:H.
  - exact (proj1 (merit_identity (Rational.settings 1 false false)) _ _ _ _ _ _ _ H).
  - discriminate H.
  - discriminate H.
  - discriminate H.
Defined.

(* Over doubles, two workers holding 1 and 2^-53 and a residual of 2^-52:
   (1 + 2^-52) + 2^-53 is 1 + 2^-51.  Over the rationals, the subproblem
   above: the sum over the two workers plus the residual 1. *)
Lemma assembly_stateEq_witness :
  match Double.assembled with
  | Ok p _ =>
      setupQuadraticSubproblem (P := Double.problem Double.alternating)
        Double.settings Double.grid Double.start Double.xs Double.us
        (Double.fresh Double.alternating) = Double.assembled /\
      stateEqConstraintISE p = Double.summed /\
      exists performance : list (PerformanceIndex (S := Double.double_Scalar)),
        length performance = 2%nat /\
        stateEq_as_summed performance Double.residual (stateEqConstraintISE p)
  | _ => False
  end
  /\
  match setupQuadraticSubproblem (P := Rational.problem false SUCCESS)
          (Rational.settings 1 false false) [0%Q; 1 # 2; 1%Q] [2%Q]
          [[1%Q]; [1 # 2]; [1 # 2]] [[0%Q]; [0%Q]] (Rational.fresh false SUCCESS)
  with
  | Ok p _ =>
      exists performance : list (PerformanceIndex (S := Rational.Q_Scalar)),
        length performance = 2%nat /\
        stateEq_as_stated performance (squaredNorm (S := Rational.Q_Scalar) [1%Q])
          (stateEqConstraintISE p)
  | _ => False
  end.
Proof.
  split.
  - unfold Double.assembled.
    match goal with |- ?run = ?ret /\ _ => assert (H : run = ret) by reflexivity end.
    split; [exact H | ]. split; [reflexivity | ].
    destruct (assembly_stateEq _ _ _ _ _ _ H)
      as (s1 & nodes & tN & xN & x0 & Hnodes & HtN & HxN & Hx0 & Hsummed & _).
    injection Hx0 as <-.
    eexists. split; [ | exact Hsummed]. reflexivity.
  - destruct (setupQuadraticSubproblem _ _ _ _ _ _) as [p s' | what s' | | ] eqn:H.
    + destruct (assembly_stateEq _ _ _ _ _ _ H)
        as (s1 & nodes & tN & xN & x0 & Hnodes & HtN & HxN & Hx0 & _ & Hstated).
      injection Hx0 as <-.
      eexists. split; [ | exact (Hstated Q_ExactSum)]. reflexivity.
    + discriminate H.
    + discriminate H.
    + discriminate H.
Defined.

(** C5 as stated fails: over doubles, with worker 0 holding 1, worker 1
    holding 2^-53 and the residual 2^-52, the aggregate is
    (1 + 2^-52) + 2^-53 = 1 + 2^-51, while the sum over the workers plus the
    residual is (1 + 2^-53) + 2^-52 = 1 + 2^-52. *)
Lemma assembly_stateEq_as_stated_fails :
  exists p s',
    setupQuadraticSubproblem (P := Double.problem Double.alternating)
      Double.settings Double.grid Double.start Double.xs Double.us
      (Double.fresh Double.alternating) = Ok p s' /\
    forall s1 nodes tN xN x0,
      mapM (intermediateNode (P := Double.problem Double.alternating)
              Double.settings Double.grid Double.xs Double.us)
           (seq 0 2) s1 = Ok nodes s1 ->
      nth_error Double.grid 2 = Some tN ->
      nth_error Double.xs 2 = Some xN ->
      nth_error Double.xs 0 = Some x0 ->
      ~ stateEq_as_stated
          (joinPerformance Double.settings
             (owner (Problem := Double.problem Double.alternating)
                (regions (Double.fresh Double.alternating)))
             (map (@tr_performance _ _ _) nodes
              ++ [tt_performance
                    (setupTerminalNode (Problem := Double.problem Double.alternating) tN xN)]))
          (squaredNorm (S := Double.double_Scalar)
             (v_sub (S := Double.double_Scalar) Double.start x0))
          (stateEqConstraintISE p).
Proof.
  assert (H : setupQuadraticSubproblem (P := Double.problem Double.alternating)
                Double.settings Double.grid Double.start Double.xs Double.us
                (Double.fresh Double.alternating) = Double.assembled) by reflexivity.
  unfold Double.assembled in H.
  eexists _, _. split; [exact H | ]. clear H.
  intros s1 nodes tN xN x0 Hnodes HtN HxN Hx0.
  injection HtN as <-. injection HxN as <-. injection Hx0 as <-.
  cbv in Hnodes. injection Hnodes as <-.
  unfold stateEq_as_stated. intros H.
  apply (f_equal (fun a => PrimFloat.ltb Double.stated a)) in H.
  vm_compute in H. discriminate H.
Qed.

(** ** C2 and C9: the course of the line search *)

Section LineSearch.
Context {S : Scalar} {D : Dense S} {P : Problem}.

Lemma squaredNorm_from (E : ExactSum S) (v : vector_t) acc :
  fold_left (fun a c => (a + c * c)%S) v acc = (acc + squaredNorm v)%S.
Proof.
  unfold squaredNorm. revert acc. induction v as [ | c v IH]; intros acc; cbn.
  - rewrite (add_comm acc). symmetry. apply add_0_l.
  - rewrite IH, (IH (s_zero + c * c)%S), add_0_l. symmetry. apply add_assoc.
Qed.

Lemma squaredNorm_concat_from (E : ExactSum S) (v : vector_array_t) acc :
  fold_left (fun norm vi => (norm + squaredNorm vi)%S) v acc
  = fold_left (fun a c => (a + c * c)%S) (concat v) acc.
Proof.
  revert acc. induction v as [ | vi v IH]; intros acc; cbn; [reflexivity | ].
  rewrite fold_left_app, IH. f_equal. symmetry. now apply squaredNorm_from.
Qed.

Lemma trajectoryNorm_concat (E : ExactSum S) (v : vector_array_t) :
  trajectoryNorm v = v_norm (concat v).
Proof.
  unfold trajectoryNorm, v_norm. f_equal. now apply squaredNorm_concat_from.
Qed.

Lemma fuelfree_computePerformance settings_ time initState x u :
  fuelfree (computePerformance settings_ time initState x u).
Proof.
  unfold computePerformance, performanceContributions, intermediatePerformance,
    accountInitState, sumPerformance.
  frame.
  - intros s. discriminate.
  - match goal with |- fuelfree (match ?l with _ => _ end) => destruct l end;
      [apply fuelfree_undefined | apply fuelfree_ret].
Qed.

Lemma fuelfree_candidate settings_ time initState dx du x u alpha xBuf uBuf :
  fuelfree (candidate settings_ time initState dx du x u alpha xBuf uBuf).
Proof.
  unfold candidate, computeStep. frame.
  apply fuelfree_computePerformance.
Qed.

Variable settings_ : Settings.
Variable baseline : PerformanceIndex.
Variable timeDiscretization : scalar_array_t.
Variable initState : vector_t.
Variables dx du x u : vector_array_t.
Variable s0 : Solver.

Local Abbreviation tries := (tries settings_ baseline timeDiscretization initState dx du x u s0).
Local Abbreviation leavesAt := (leavesAt settings_ baseline timeDiscretization initState dx du x u).
Local Abbreviation candidate := (candidate settings_ timeDiscretization initState dx du x u).
Local Abbreviation loop fuel :=
  (takeStep_while settings_ fuel baseline timeDiscretization initState dx du x u
     (trajectoryNorm du) (trajectoryNorm dx)).

Lemma tries_alpha k alpha xBuf uBuf s :
  tries k alpha xBuf uBuf s -> alpha = alphaAfter settings_ k.
Proof. induction 1; cbn; [reflexivity | now subst]. Qed.

Lemma tries_functional k alpha xBuf uBuf s alpha' xBuf' uBuf' s' :
  tries k alpha xBuf uBuf s -> tries k alpha' xBuf' uBuf' s' ->
  alpha = alpha' /\ xBuf = xBuf' /\ uBuf = uBuf' /\ s = s'.
Proof.
  intros H. revert alpha' xBuf' uBuf' s'.
  induction H as [ | k alpha xBuf uBuf s c s1 H IH Hmin Hc Hacc Htol];
    intros alpha' xBuf' uBuf' s' H'; inversion H'; subst.
  - repeat split.
  - match goal with R : tries k _ _ _ _ |- _ =>
      destruct (IH _ _ _ _ R) as (-> & -> & -> & ->) end.
    match goal with R : candidate _ _ _ _ = Ok _ _ |- _ =>
      rewrite Hc in R; inversion R; subst end.
    repeat split.
Qed.

(* A candidate before the one the search has come to was rejected, and the
   search went on. *)
Lemma tries_earlier k' alpha' xBuf' uBuf' s' :
  tries k' alpha' xBuf' uBuf' s' ->
  forall k, (k < k')%nat ->
  exists alpha xBuf uBuf s c s1,
    tries k alpha xBuf uBuf s /\
    (alpha >? alpha_min settings_)%S = true /\
    candidate alpha xBuf uBuf s = Ok c s1 /\
    stepAccepted settings_ baseline (performanceNew c) = false /\
    stepSizeBelowTol settings_ (trajectoryNorm du) (trajectoryNorm dx) alpha = false.
Proof.
  induction 1 as [ | k0 alpha xBuf uBuf s c s1 H IH Hmin Hc Hacc Htol];
    intros k Hk; [lia | ].
  destruct (Nat.eq_dec k k0) as [-> | Hne].
  - now exists alpha, xBuf, uBuf, s, c, s1.
  - apply IH. lia.
Qed.

(* A run of the loop from a candidate the search has come to leaves at a
   candidate it comes to later. *)
Lemma takeStep_while_leaves fuel :
  forall k alpha xBuf uBuf s r s',
    tries k alpha xBuf uBuf s ->
    loop fuel alpha xBuf uBuf s = Ok r s' ->
    exists k' alpha' xBuf' uBuf' s1,
      tries k' alpha' xBuf' uBuf' s1 /\ leavesAt alpha' xBuf' uBuf' s1 r s'.
Proof.
  induction fuel as [ | fuel IH]; intros k alpha xBuf uBuf s r s' Hk; cbn;
    [discriminate | ].
  destruct (alpha >? alpha_min settings_)%S eqn:Hmin.
  - intros H. apply bind_Ok in H. destruct H as (c & sc & Hc & H).
    destruct (stepAccepted settings_ baseline (performanceNew c)) eqn:Hacc.
    + unfold ret in H. injection H as <- <-.
      exists k, alpha, xBuf, uBuf, s. split; [exact Hk | ].
      right. split; [exact Hmin | ]. exists c. split; [exact Hc | ]. left. now split.
    + destruct (stepSizeBelowTol settings_ (trajectoryNorm du) (trajectoryNorm dx) alpha)
        eqn:Htol.
      * unfold ret in H. injection H as <- <-.
        exists k, alpha, xBuf, uBuf, s. split; [exact Hk | ].
        right. split; [exact Hmin | ]. exists c. split; [exact Hc | ]. right.
        now repeat split.
      * eapply IH; [ | exact H]. eapply tries_next; eassumption.
  - intros H. unfold ret in H. injection H as <- <-.
    exists k, alpha, xBuf, uBuf, s.
    split; [exact Hk | ]. left. now repeat split.
Qed.

(* The loop returns once alpha has decayed to alpha_min, if not before. *)
Lemma takeStep_while_returns n :
  forall fuel k alpha xBuf uBuf s,
    tries k alpha xBuf uBuf s ->
    (alphaAfter settings_ (k + n) >? alpha_min settings_)%S = false ->
    (n < fuel)%nat ->
    loop fuel alpha xBuf uBuf s <> OutOfFuel.
Proof.
  induction n as [ | n IH]; intros fuel k alpha xBuf uBuf s Hk Hmin Hfuel;
    (destruct fuel as [ | fuel]; [lia | ]); cbn.
  - rewrite Nat.add_0_r, <- (tries_alpha Hk) in Hmin. rewrite Hmin. discriminate.
  - destruct (alpha >? alpha_min settings_)%S eqn:Ha; [ | discriminate].
    unfold bind.
    destruct (candidate alpha xBuf uBuf s) as [c sc | | | ] eqn:Hc; try discriminate.
    + destruct (stepAccepted settings_ baseline (performanceNew c)) eqn:Hacc;
        [discriminate | ].
      destruct (stepSizeBelowTol settings_ (trajectoryNorm du) (trajectoryNorm dx) alpha)
        eqn:Htol; [discriminate | ].
      apply (IH fuel (Datatypes.S k)); [ | | lia].
      * eapply tries_next; eassumption.
      * now rewrite <- Nat.add_succ_comm in Hmin.
    + now apply fuelfree_candidate in Hc.
Qed.

(* A candidate after which the search goes on is not one at which it leaves. *)
Lemma goes_on_not_leaves alpha xBuf uBuf s c s1 r s' :
  (alpha >? alpha_min settings_)%S = true ->
  candidate alpha xBuf uBuf s = Ok c s1 ->
  stepAccepted settings_ baseline (performanceNew c) = false ->
  stepSizeBelowTol settings_ (trajectoryNorm du) (trajectoryNorm dx) alpha = false ->
  leavesAt alpha xBuf uBuf s r s' -> False.
Proof.
  intros Hmin Hc Hacc Htol
    [(Hmin' & _) | (_ & c' & Hc' & [(Hacc' & _) | (_ & Htol' & _)])].
  - congruence.
  - rewrite Hc in Hc'. inversion Hc'; subst. congruence.
  - congruence.
Qed.

Lemma trajectoryNorm_sum (v : vector_array_t) :
  trajectoryNorm v = s_sqrt (sum (map squaredNorm v)).
Proof.
  unfold trajectoryNorm, sum. f_equal. generalize (@s_zero S) as acc.
  induction v as [ | vi v IH]; intros acc; cbn; [reflexivity | apply IH].
Qed.

(** C2, amended.  The search starts at step size 1 and multiplies it by
    [alpha_decay] on each rejection; when it returns, it reports convergence
    exactly in the four cases of [reportsConvergence]: (a) a candidate is
    accepted with [alpha |du| < deltaTol] and [alpha |dx| < deltaTol], (b) a
    candidate is accepted with [|merit_B - merit_C| < costTol] and
    [v < g_min], (c) a rejected candidate has its step below [deltaTol],
    (d) [alpha] is at [alpha_min] or below.  It returns once [alpha] has
    decayed that far, if not before.  The norms [|dx|], [|du|] are the
    square roots of the sum, over the vectors of the sequence from left to
    right, of their squared norms; with an exact sum they are the Euclidean
    norms of the concatenated sequences. *)
Theorem takeStep_convergence :
  (trajectoryNorm du = s_sqrt (sum (map squaredNorm du)) /\
   trajectoryNorm dx = s_sqrt (sum (map squaredNorm dx)) /\
   (ExactSum S ->
    trajectoryNorm du = v_norm (concat du) /\ trajectoryNorm dx = v_norm (concat dx)))
  /\
  (forall k alpha xBuf uBuf s,
      tries k alpha xBuf uBuf s -> alpha = alphaAfter settings_ k)
  /\
  (forall fuel converged x' u' s',
      takeStep settings_ fuel baseline timeDiscretization initState dx du x u s0
        = Ok (converged, x', u') s' ->
      (converged = true <->
       reportsConvergence settings_ baseline timeDiscretization initState dx du x u s0))
  /\
  (forall k fuel,
      (alphaAfter settings_ k >? alpha_min settings_)%S = false ->
      (k < fuel)%nat ->
      takeStep settings_ fuel baseline timeDiscretization initState dx du x u s0
        <> OutOfFuel).
Proof.
  split.
  { split; [apply trajectoryNorm_sum | ]. split; [apply trajectoryNorm_sum | ].
    intros E. split; now apply trajectoryNorm_concat. }
  split; [exact tries_alpha | ].
  split.
  - intros fuel converged x' u' s' H. unfold takeStep in H.
    destruct (takeStep_while_leaves fuel (tries_first _ _ _ _ _ _ _ _ _) H)
      as (k & alpha & xBuf & uBuf & s & Hk & Hleave).
    split.
    + intros ->. exists k, alpha, xBuf, uBuf, s. split; [exact Hk | ].
      destruct Hleave
        as [(Hmin & _) | (Hmin & c & Hc & [(Hacc & Hr) | (Hacc & Htol & _)])].
      * now left.
      * right. split; [exact Hmin | ]. exists c, s'. split; [exact Hc | ].
        inversion Hr as [[Hb Hx Hu]]. symmetry in Hb.
        apply orb_true_iff in Hb. destruct Hb as [Hb | Hb].
        -- left. apply andb_true_iff in Hb. now split.
        -- right. left. apply andb_true_iff in Hb. now split.
      * right. split; [exact Hmin | ]. exists c, s'. split; [exact Hc | ].
        right. right. apply andb_true_iff in Htol. now split.
    + intros (k2 & alpha2 & xBuf2 & uBuf2 & s2 & Hk2 & Hcase).
      destruct (lt_eq_lt_dec k2 k) as [[Hlt | Heq] | Hlt].
      * (* the search went on after candidate k2 *)
        exfalso.
        destruct (tries_earlier Hk Hlt)
          as (a3 & xb3 & ub3 & s3 & c3 & sc3 & Hk3 & Hmin3 & Hc3 & Hacc3 & Htol3).
        destruct (tries_functional Hk2 Hk3) as (-> & -> & -> & ->).
        destruct Hcase as [Hmin | (_ & c & sc & Hc & Hcase)]; [congruence | ].
        rewrite Hc3 in Hc. inversion Hc; subst.
        unfold stepSizeBelowTol in Htol3.
        destruct Hcase as [(Hacc & _) | [(Hacc & _) | (_ & Hu & Hx)]];
          try congruence.
        rewrite Hu, Hx in Htol3. discriminate.
      * subst k2. destruct (tries_functional Hk2 Hk) as (-> & -> & -> & ->).
        destruct Hleave
          as [(Hmin & Hr & _) | (Hmin & c & Hc & [(Hacc & Hr) | (Hacc & Htol & Hr)])];
          try (now inversion Hr).
        destruct Hcase as [Hmin' | (_ & c' & sc' & Hc' & Hcase)]; [congruence | ].
        rewrite Hc in Hc'. inversion Hc'; subst.
        inversion Hr as [[Hb Hx Hu]]. unfold stepSizeBelowTol, improvementBelowTol.
        destruct Hcase as [(_ & -> & ->) | [(_ & -> & ->) | (Hacc' & _)]];
          [reflexivity | apply orb_true_r | congruence].
      * (* the search went on after the candidate at which the run left *)
        exfalso.
        destruct (tries_earlier Hk2 Hlt)
          as (a3 & xb3 & ub3 & s3 & c3 & sc3 & Hk3 & Hmin3 & Hc3 & Hacc3 & Htol3).
        destruct (tries_functional Hk Hk3) as (-> & -> & -> & ->).
        eapply goes_on_not_leaves; eassumption.
  - intros k fuel Hmin Hfuel. unfold takeStep.
    eapply (takeStep_while_returns (n := k) (k := 0)); [apply tries_first | exact Hmin | exact Hfuel].
Qed.

(** C9.  When the search returns and every candidate it has come to was
    rejected, the trajectories [x] and [u] are the ones it was given (and it
    reports convergence): the candidates live in the buffers, which are
    moved into [x], [u] on acceptance only. *)
Theorem takeStep_rejected_unchanged fuel converged x' u' s' :
  takeStep settings_ fuel baseline timeDiscretization initState dx du x u s0
    = Ok (converged, x', u') s' ->
  (forall k alpha xBuf uBuf s c s1,
      tries k alpha xBuf uBuf s ->
      (alpha >? alpha_min settings_)%S = true ->
      candidate alpha xBuf uBuf s = Ok c s1 ->
      stepAccepted settings_ baseline (performanceNew c) = false) ->
  x' = x /\ u' = u /\ converged = true.
Proof.
  intros H Hrej. unfold takeStep in H.
  destruct (takeStep_while_leaves fuel (tries_first _ _ _ _ _ _ _ _ _) H)
    as (k & alpha & xBuf & uBuf & s & Hk & Hleave).
  destruct Hleave
    as [(_ & Hr & _) | (Hmin & c & Hc & [(Hacc & _) | (_ & _ & Hr)])].
  - now inversion Hr.
  - rewrite (Hrej _ _ _ _ _ _ _ Hk Hmin Hc) in Hacc. discriminate.
  - now inversion Hr.
Qed.

End LineSearch.

(** *** Over the rationals the search returns

    With [0 < alpha_decay < 1] and [0 < alpha_min] (the ranges of the
    settings) the step size decays to [alpha_min] after finitely many
    rejections, by Bernoulli's inequality, so that some fuel is enough for
    every search. *)

Section RationalDecay.
Variable P : Problem (S := Rational.Q_Scalar) (D := Rational.Q_Dense).
Variable settings_ : Settings (S := Rational.Q_Scalar).
Hypothesis decay_pos : (0 < alpha_decay settings_)%Q.
Hypothesis decay_lt_1 : (alpha_decay settings_ < 1)%Q.
Hypothesis min_pos : (0 < alpha_min settings_)%Q.

Lemma alphaAfter_nonneg k : (0 <= alphaAfter settings_ k)%Q.
Proof.
  induction k as [ | k IH].
  - change (alphaAfter settings_ 0) with 1%Q. lra.
  - change (alphaAfter settings_ (Datatypes.S k))
      with (alphaAfter settings_ k * alpha_decay settings_)%Q.
    nra.
Qed.

Lemma alphaAfter_bernoulli k :
  (alphaAfter settings_ k * (1 + inject_Z (Z.of_nat k) * (1 - alpha_decay settings_))
   <= 1)%Q.
Proof.
  induction k as [ | k IH].
  - change (alphaAfter settings_ 0) with 1%Q.
    change (inject_Z (Z.of_nat 0)) with 0%Q. lra.
  - change (alphaAfter settings_ (Datatypes.S k))
      with (alphaAfter settings_ k * alpha_decay settings_)%Q.
    rewrite Nat2Z.inj_succ. unfold Z.succ. rewrite inject_Z_plus.
    pose proof (alphaAfter_nonneg k) as Ha.
    assert (Hk : (0 <= inject_Z (Z.of_nat k))%Q).
    { change 0%Q with (inject_Z 0). rewrite <- Zle_Qle. lia. }
    set (n := inject_Z (Z.of_nat k)) in *.
    set (ak := alphaAfter settings_ k) in *.
    set (d := alpha_decay settings_) in *.
    change (inject_Z 1) with 1%Q.
    assert (H0 : (0 <= (1 - d) * ((1 - d) + n * (1 - d)))%Q).
    { apply Qmult_le_0_compat; [lra | ].
      assert (0 <= n * (1 - d))%Q by (apply Qmult_le_0_compat; lra). lra. }
    assert (H1 : (ak * d * (1 + (n + 1) * (1 - d))
                  == ak * (1 + n * (1 - d))
                     - ak * ((1 - d) * ((1 - d) + n * (1 - d))))%Q) by ring.
    assert (H2 : (0 <= ak * ((1 - d) * ((1 - d) + n * (1 - d))))%Q)
      by (apply Qmult_le_0_compat; assumption).
    rewrite H1. lra.
Qed.

Lemma alphaAfter_decays :
  exists k, (alphaAfter settings_ k >? alpha_min settings_)%S = false.
Proof.
  set (d := alpha_decay settings_) in *. set (m := alpha_min settings_) in *.
  set (c := (/ (m * (1 - d)))%Q).
  assert (Hmd : (0 < m * (1 - d))%Q) by nra.
  exists (Z.to_nat (Qceiling c)).
  change (negb (Qle_bool (alphaAfter settings_ (Z.to_nat (Qceiling c))) m) = false).
  apply negb_false_iff, Qle_bool_iff.
  pose proof (alphaAfter_bernoulli (Z.to_nat (Qceiling c))) as Hb. fold d in Hb.
  pose proof (alphaAfter_nonneg (Z.to_nat (Qceiling c))) as Ha.
  assert (Hc : (c <= inject_Z (Z.of_nat (Z.to_nat (Qceiling c))))%Q).
  { eapply Qle_trans; [apply Qle_ceiling | ]. rewrite <- Zle_Qle. lia. }
  set (n := inject_Z (Z.of_nat (Z.to_nat (Qceiling c)))) in *.
  set (ak := alphaAfter settings_ (Z.to_nat (Qceiling c))) in *.
  assert (Hn : (1 <= n * (m * (1 - d)))%Q).
  { assert (Hone : (c * (m * (1 - d)) == 1)%Q) by (unfold c; field; lra).
    apply Qle_trans with (c * (m * (1 - d)))%Q; [rewrite Hone; lra | ].
    apply Qmult_le_compat_r; [exact Hc | lra]. }
  assert (Hn0 : (0 <= n)%Q).
  { assert (0 < c)%Q by (unfold c; apply Qinv_lt_0_compat; exact Hmd). lra. }
  nra.
Qed.

Lemma takeStep_returns_rational :
  exists fuel, forall baseline time initState dx du x u s,
    takeStep (P := P) settings_ fuel baseline time initState dx du x u s <> OutOfFuel.
Proof.
  destruct alphaAfter_decays as [k Hk]. exists (Datatypes.S k).
  intros baseline time initState dx du x u s. unfold takeStep.
  eapply (takeStep_while_returns (n := k) (k := 0)); [apply tries_first | exact Hk | lia].
Qed.

End RationalDecay.

(* The result of a search, read off the outcome of takeStep *)
Ltac search_result H :=
  match goal with
  | |- returned ?run = Some ?r /\ _ =>
      assert (Hv : returned run = Some r) by reflexivity;
      destruct run as [[[converged x'] u'] s' | what s' | | ] eqn:H;
      [ | discriminate Hv | discriminate Hv | discriminate Hv];
      split; [exact Hv | ];
      cbn [returned] in Hv; injection Hv as Hconverged _ _
  end.

(* Six searches over the rationals from x = (1, 1, 1), u = (0, 0) against a
   baseline of merit 3: (a) a short step downhill is accepted, with a step
   below deltaTol; (b) a step that lowers the merit by less than costTol is
   accepted; (c) a short step uphill is rejected, with a step below
   deltaTol; (d) a step uphill is rejected, and alpha decays to
   alpha_min = 1/2; a step downhill is accepted at full size, and one that
   is too long at half size after one rejection: these two do not report
   convergence. *)
Lemma takeStep_convergence_witness :
  let search settings_ direction :=
    takeStep (P := Rational.problem false SUCCESS) settings_ 10 (Rational.index 3 0)
      Rational.unit_grid [1%Q] direction Rational.still
      Rational.flat_x Rational.flat_u (Rational.fresh false SUCCESS) in
  let reports settings_ direction :=
    reportsConvergence (P := Rational.problem false SUCCESS) settings_
      (Rational.index 3 0) Rational.unit_grid [1%Q] direction Rational.still
      Rational.flat_x Rational.flat_u (Rational.fresh false SUCCESS) in
  (returned (search (Rational.settings 1 false false) Rational.creeping)
   = Some (true, [[1%Q]; [1999 # 2000]; [1999 # 2000]], [[0%Q]; [0%Q]]) /\
   reports (Rational.settings 1 false false) Rational.creeping)
  /\
  (returned (search (Rational.settings 1 false false) Rational.sidestep)
   = Some (true, [[1%Q]; [99 # 100]; [10097 # 10000]], [[0%Q]; [0%Q]]) /\
   reports (Rational.settings 1 false false) Rational.sidestep)
  /\
  (returned (search (Rational.settings 1 false false) Rational.creeping_up)
   = Some (true, Rational.flat_x, Rational.flat_u) /\
   reports (Rational.settings 1 false false) Rational.creeping_up)
  /\
  (returned (search Rational.cautious Rational.uphill)
   = Some (true, Rational.flat_x, Rational.flat_u) /\
   reports Rational.cautious Rational.uphill)
  /\
  (returned (search (Rational.settings 1 false false) Rational.downhill)
   = Some (false, [[1%Q]; [1 # 2]; [1 # 2]], [[0%Q]; [0%Q]]) /\
   ~ reports (Rational.settings 1 false false) Rational.downhill)
  /\
  (returned (search (Rational.settings 1 false false) Rational.overshoot)
   = Some (false, [[2 # 2]; [(-1) # 2]; [(-1) # 2]], [[0 # 2]; [0 # 2]]) /\
   ~ reports (Rational.settings 1 false false) Rational.overshoot).
Proof.
  intros search reports. unfold search, reports.
  split; [ | split; [ | split; [ | split; [ | split]]]]; search_result H.
  - apply (proj1 (proj2 (proj2 (takeStep_convergence _ _ _ _ _ _ _ _ _))) _ _ _ _ _ H).
    exact Hconverged.
  - apply (proj1 (proj2 (proj2 (takeStep_convergence _ _ _ _ _ _ _ _ _))) _ _ _ _ _ H).
    exact Hconverged.
  - apply (proj1 (proj2 (proj2 (takeStep_convergence _ _ _ _ _ _ _ _ _))) _ _ _ _ _ H).
    exact Hconverged.
  - apply (proj1 (proj2 (proj2 (takeStep_convergence _ _ _ _ _ _ _ _ _))) _ _ _ _ _ H).
    exact Hconverged.
  - intros Hreports.
    apply (proj1 (proj2 (proj2 (takeStep_convergence _ _ _ _ _ _ _ _ _))) _ _ _ _ _ H)
      in Hreports.
    congruence.
  - intros Hreports.
    apply (proj1 (proj2 (proj2 (takeStep_convergence _ _ _ _ _ _ _ _ _))) _ _ _ _ _ H)
      in Hreports.
    congruence.
Defined.

(** C2 as stated fails: over doubles the norm of the sequence
    (0.1), (0.1, 0.3) is not the Euclidean norm of the concatenation
    (0.1, 0.1, 0.3); the two differ in the last bit. *)
Lemma trajectoryNorm_as_stated_fails :
  trajectoryNorm (S := Double.double_Scalar) Double.zigzag
  <> v_norm (S := Double.double_Scalar) (concat Double.zigzag).
Proof.
  intros H.
  apply (f_equal (fun a => PrimFloat.ltb
                             (v_norm (S := Double.double_Scalar) (concat Double.zigzag))
                             a)) in H.
  vm_compute in H. discriminate H.
Qed.

(* The cautious search comes to one candidate only. *)
Lemma cautious_tries k alpha xBuf uBuf s :
  tries (P := Rational.problem false SUCCESS) Rational.cautious (Rational.index 3 0)
    Rational.unit_grid [1%Q] Rational.uphill Rational.still
    Rational.flat_x Rational.flat_u (Rational.fresh false SUCCESS)
    k alpha xBuf uBuf s ->
  (k = 0%nat /\ alpha = 1%Q /\ xBuf = [[]; []; []] /\ uBuf = [[]; []]
   /\ s = Rational.fresh false SUCCESS)
  \/ (k = 1%nat /\ alpha = (1 * (1 # 2))%Q).
Proof.
  induction 1 as [ | k alpha xBuf uBuf s c s1 H IH Hmin Hc Hacc Htol].
  - left. repeat split.
  - destruct IH as [(-> & -> & _) | (_ & ->)].
    + right. split; reflexivity.
    + discriminate Hmin.
Qed.

Lemma cautious_rejects k alpha xBuf uBuf s c s1 :
  tries (P := Rational.problem false SUCCESS) Rational.cautious (Rational.index 3 0)
    Rational.unit_grid [1%Q] Rational.uphill Rational.still
    Rational.flat_x Rational.flat_u (Rational.fresh false SUCCESS)
    k alpha xBuf uBuf s ->
  (alpha >? alpha_min Rational.cautious)%S = true ->
  candidate Rational.cautious Rational.unit_grid [1%Q] Rational.uphill Rational.still
    Rational.flat_x Rational.flat_u alpha xBuf uBuf s = Ok c s1 ->
  stepAccepted Rational.cautious (Rational.index 3 0) (performanceNew c) = false.
Proof.
  intros Hk Hmin Hc.
  destruct (cautious_tries Hk) as [(-> & -> & -> & -> & ->) | (_ & ->)];
    [ | discriminate Hmin].
  apply (f_equal (fun o => option_map (fun c => performanceNew c) (returned o))) in Hc.
  cbn [returned option_map] in Hc.
  rewrite <- (f_equal (fun o => match o with Some p => stepAccepted Rational.cautious (Rational.index 3 0) p | None => true end) Hc).
  reflexivity.
Qed.

Lemma takeStep_rejected_unchanged_witness :
  match takeStep (P := Rational.problem false SUCCESS)
          Rational.cautious 10 (Rational.index 3 0)
          Rational.unit_grid [1%Q] Rational.uphill Rational.still
          Rational.flat_x Rational.flat_u (Rational.fresh false SUCCESS)
  with
  | Ok (converged, x', u') _ =>
      x' = Rational.flat_x /\ u' = Rational.flat_u /\ converged = true
  | _ => False
  end.
Proof.
  destruct (takeStep _ _ _ _ _ _ _ _ _ _) as [[[converged x'] u'] s' | what s' | | ] eqn:H.
  - exact (takeStep_rejected_unchanged _ H (@cautious_rejects)).
  - discriminate H.
  - discriminate H.
  - discriminate H.
Defined.

(** ** C7 and C3: the QP step *)

Section QP.
Context {S : Scalar} {D : Dense S} {P : Problem}.
Variable settings_ : Settings.

Lemma constraintPtr_front_Ok s b s' :
  constraintPtr_front settings_ s = Ok b s' ->
  b = hasConstraint /\ s' = s /\ nThreads settings_ <> 0%nat.
Proof.
  unfold constraintPtr_front.
  destruct (Nat.eqb_spec (nThreads settings_) 0) as [_ | Hn]; [discriminate | ].
  intros H. injection H as <- <-. repeat split. exact Hn.
Qed.

(* The remap loop rewrites the slots of its range, each from the slot's own
   old value, and nothing else. *)
Lemma remap_loop deltaXSol n :
  forall k buf s buf' s',
    foldM (remapInput deltaXSol) (seq k n) buf s = Ok buf' s' ->
    s' = s /\ length buf' = length buf /\
    (forall i, (k <= i < k + n)%nat ->
       exists c du dx,
         nth_error (constraints_ s) i = Some c /\
         nth_error buf i = Some du /\
         nth_error deltaXSol i = Some dx /\
         nth_error buf' i
         = Some (v_add (v_add (m_vec (dfdu c) du) (m_vec (dfdx c) dx)) (f c))) /\
    (forall i, ~ (k <= i < k + n)%nat -> nth_error buf' i = nth_error buf i).
Proof.
  induction n as [ | n IH]; intros k buf s buf' s'; cbn.
  - intros H. injection H as <- <-. repeat split. intros i Hi. lia.
  - intros H. apply bind_Ok in H. destruct H as (buf1 & s1 & Hbody & H).
    unfold remapInput in Hbody. monad_inv Hbody.
    match goal with R : assign buf k _ = Some buf1 |- _ => rename R into Hassign end.
    apply IH in H. destruct H as (-> & Hlen & Hin & Hout).
    split; [reflexivity | ]. split; [rewrite Hlen; exact (assign_length _ _ _ Hassign) | ].
    split.
    + intros i Hi. destruct (Nat.eq_dec i k) as [-> | Hne].
      * rewrite Hout by lia. rewrite (assign_nth_error _ _ _ k Hassign), Nat.eqb_refl.
        eauto 10.
      * destruct (Hin i ltac:(lia)) as (c & du & dx & Hc & Hdu & Hdx & Hr).
        rewrite (assign_nth_error _ _ _ i Hassign) in Hdu.
        destruct (Nat.eqb_spec k i) as [-> | _]; [contradiction | ].
        eauto 10.
    + intros i Hi. rewrite Hout by lia. rewrite (assign_nth_error _ _ _ i Hassign).
      destruct (Nat.eqb_spec k i) as [-> | _]; [lia | reflexivity].
Qed.

(** C7.  When [getOCPSolution] returns: with a constraint and the projection
    enabled, every [deltaU[i]] is [dfdu[i] * du~[i] + dfdx[i] * deltaX[i] + f[i]]
    for the QP solution [(deltaX, du~)] and the constraint block of node [i];
    with the projection disabled or no constraint, the QP solution is
    returned as it is. *)
Theorem getOCPSolution_remap delta_x0 s deltaX deltaU s' :
  getOCPSolution settings_ delta_x0 s = Ok (deltaX, deltaU) s' ->
  remapped settings_ delta_x0 s deltaX deltaU.
Proof.
  unfold getOCPSolution, remapped. intros H. apply bind_Ok in H.
  destruct H as (s_ & s1 & Hget & H). injection Hget as <- <-.
  apply bind_Ok in H. destruct H as (b0 & s1 & Hfront & H).
  apply constraintPtr_front_Ok in Hfront. destruct Hfront as (_ & -> & _).
  destruct (solveQP settings_ delta_x0 s) as [[[status deltaXSol] deltaUSol] h].
  apply bind_Ok in H. destruct H as ([] & s2 & Hset & H).
  destruct (negb (hpipm_status_eqb status SUCCESS)); [discriminate | ].
  apply bind_Ok in H. destruct H as (constrained & s3 & Hfront & H).
  apply constraintPtr_front_Ok in Hfront. destruct Hfront as (-> & -> & _).
  apply bind_Ok in H. destruct H as (dU & s3 & Hremap & H).
  injection H as <- <- <-. split; [reflexivity | ].
  destruct (hasConstraint && projectStateInputEqualityConstraints settings_).
  - apply remap_loop in Hremap. destruct Hremap as (-> & Hlen & Hin & _).
    split; [exact Hlen | ]. intros i Hi.
    destruct (Hin i ltac:(lia)) as (c & du & dx & Hc & Hr).
    exists c, du, dx. split; [ | exact Hr].
    injection Hset as <-. exact Hc.
  - now injection Hremap as <- <-.
Qed.

Lemma preserves_nextRegion : preserves samePrimal nextRegion.
Proof. intros s. reflexivity. Qed.

Lemma preserves_storeBlocks nodes terminal :
  preserves samePrimal (storeBlocks nodes terminal).
Proof. intros s. reflexivity. Qed.

Lemma preserves_resizeSolver ocpSize : preserves samePrimal (resizeSolver ocpSize).
Proof. intros s. reflexivity. Qed.

Lemma preserves_setHpipmInterface h : preserves samePrimal (setHpipmInterface h).
Proof. intros s. reflexivity. Qed.

Lemma preserves_setPerformanceIndeces l : preserves samePrimal (setPerformanceIndeces l).
Proof. intros s. reflexivity. Qed.

Lemma preserves_setTotalNumIterations n : preserves samePrimal (setTotalNumIterations n).
Proof. intros s. reflexivity. Qed.

Lemma preserves_sumPerformance performance :
  preserves samePrimal (sumPerformance performance).
Proof. intros s. destruct performance; cbn; [exact I | reflexivity]. Qed.

End QP.

(* Goals [preserves samePrimal m], by the structure of [m]. *)
Ltac primal_frame :=
  assert (Hr : forall s, samePrimal s s) by reflexivity;
  assert (Ht : forall s1 s2 s3, samePrimal s1 s2 -> samePrimal s2 s3 -> samePrimal s1 s3)
    by (unfold samePrimal; congruence);
  repeat first
    [ apply preserves_nextRegion | apply preserves_storeBlocks
    | apply preserves_resizeSolver | apply preserves_setHpipmInterface
    | apply preserves_setPerformanceIndeces | apply preserves_setTotalNumIterations
    | apply preserves_sumPerformance | frame_step ].

Section Fatal.
Context {S : Scalar} {D : Dense S} {P : Problem}.
Variable settings_ : Settings.

Lemma preserves_computePerformance time initState x u :
  preserves samePrimal (computePerformance settings_ time initState x u).
Proof.
  unfold computePerformance, performanceContributions, intermediatePerformance,
    accountInitState.
  primal_frame.
Qed.

Lemma preserves_setupQuadraticSubproblem time initState x u :
  preserves samePrimal (setupQuadraticSubproblem settings_ time initState x u).
Proof.
  unfold setupQuadraticSubproblem, intermediateNode, accountInitState, determineSize,
    constraintPtr_front.
  primal_frame.
Qed.

Lemma preserves_getOCPSolution delta_x0 :
  preserves samePrimal (getOCPSolution settings_ delta_x0).
Proof.
  unfold getOCPSolution, remapInput, constraintPtr_front.
  primal_frame.
Qed.

Lemma preserves_takeStep fuel baseline time initState dx du x u :
  preserves samePrimal (takeStep settings_ fuel baseline time initState dx du x u).
Proof.
  unfold takeStep.
  generalize (repeat ([] : vector_t) (length x)) as xBuf.
  generalize (repeat ([] : vector_t) (length u)) as uBuf.
  generalize (@s_one S) as alpha.
  induction fuel as [ | fuel IH]; intros alpha uBuf xBuf; cbn; [intros s; exact I | ].
  unfold candidate, computeStep.
  primal_frame; try apply preserves_computePerformance; apply IH.
Qed.

Lemma preserves_sqpLoop fuel iterations time initState :
  forall x u, preserves samePrimal (sqpLoop settings_ fuel iterations time initState x u).
Proof.
  induction iterations as [ | n IH]; intros x u; cbn.
  - primal_frame.
  - primal_frame;
      first [ apply preserves_setupQuadraticSubproblem | apply preserves_getOCPSolution
            | apply preserves_takeStep | apply IH ].
Qed.

Lemma preserves_initializeStateTrajectory initState time N :
  preserves samePrimal (initializeStateTrajectory initState time N).
Proof. unfold initializeStateTrajectory. primal_frame. Qed.

Lemma preserves_initializeInputTrajectory time x N :
  preserves samePrimal (initializeInputTrajectory settings_ time x N).
Proof. unfold initializeInputTrajectory. primal_frame. Qed.

Lemma bind_Throw {A B} (m : M A) (k : A -> M B) s what s' :
  bind m k s = Throw what s' ->
  m s = Throw what s' \/ exists a s1, m s = Ok a s1 /\ k a s1 = Throw what s'.
Proof.
  unfold bind. destruct (m s) as [a s1 | w s1 | | ]; try discriminate.
  - intros H. right. exists a, s1. split; [reflexivity | exact H].
  - intros H. injection H as -> ->. left. reflexivity.
Qed.

Lemma nothrow_setPrimalSolution p : nothrow (setPrimalSolution p).
Proof. intros s what s'. discriminate. Qed.

Lemma nothrow_setConstraints c : nothrow (setConstraints c).
Proof. intros s what s'. discriminate. Qed.

Lemma nothrow_setController c : nothrow (setController c).
Proof. unfold setController. frame. apply nothrow_setPrimalSolution. Qed.

Lemma nothrow_storePrimalSolution time x u : nothrow (storePrimalSolution time x u).
Proof. unfold storePrimalSolution. frame. apply nothrow_setPrimalSolution. Qed.

Lemma nothrow_computeController N : nothrow (computeController settings_ N).
Proof.
  unfold computeController, projectedFeedback, plainFeedback, constraintPtr_front.
  frame; first [apply nothrow_setController | apply nothrow_setConstraints].
Qed.

Lemma getOCPSolution_throws delta_x0 s :
  nThreads settings_ <> 0%nat ->
  qpStatus settings_ delta_x0 s <> SUCCESS ->
  exists s',
    getOCPSolution settings_ delta_x0 s
    = Throw "[MultipleShootingSolver] Failed to solve QP"%string s' /\
    primalSolution_ s' = primalSolution_ s.
Proof.
  unfold qpStatus, getOCPSolution, bind, get, constraintPtr_front.
  destruct (Nat.eqb_spec (nThreads settings_) 0) as [Hn | _]; [contradiction | ].
  intros _. cbn.
  destruct (solveQP settings_ delta_x0 s) as [[[status deltaXSol] deltaUSol] h].
  intros Hstatus. cbn.
  destruct status; try contradiction; cbn; eexists; split; reflexivity.
Qed.

Lemma getOCPSolution_succeeds delta_x0 s r s' :
  getOCPSolution settings_ delta_x0 s = Ok r s' ->
  qpStatus settings_ delta_x0 s = SUCCESS.
Proof.
  unfold qpStatus, getOCPSolution. intros H.
  apply bind_Ok in H. destruct H as (s_ & s1 & Hget & H). injection Hget as <- <-.
  bind_inv H.
  destruct (solveQP settings_ delta_x0 s) as [[[status deltaXSol] deltaUSol] h].
  bind_inv H. destruct status; cbn in H; try discriminate. reflexivity.
Qed.

Lemma setupQuadraticSubproblem_threads time initState x u s p s' :
  setupQuadraticSubproblem settings_ time initState x u s = Ok p s' ->
  nThreads settings_ <> 0%nat.
Proof.
  unfold setupQuadraticSubproblem.
  destruct (horizon time <? 0)%Z; [discriminate | ].
  intros H. do 5 bind_inv H.
  apply bind_Ok in H. destruct H as (adjusted & sa & Hacc & _).
  unfold accountInitState in Hacc.
  apply bind_Ok in Hacc. destruct Hacc as (x0 & sx & _ & Hacc).
  apply bind_Ok in Hacc. destruct Hacc as (p0 & sp & Hfront & _).
  apply front_Ok in Hfront. destruct Hfront as [Hfront _].
  unfold joinPerformance in Hfront. intros Hzero. rewrite Hzero in Hfront.
  discriminate Hfront.
Qed.

(* A pass of the loop of runImpl is a pass of [sqpPass]. *)
Lemma sqpLoop_unfold fuel n time initState x u s :
  sqpLoop settings_ fuel (Datatypes.S n) time initState x u s
  = ('(converged, x', u') <- sqpPass settings_ fuel time initState x u ;;
     if (converged : bool) then ret (x', u')
     else sqpLoop settings_ fuel n time initState x' u') s.
Proof.
  cbn [sqpLoop]. unfold sqpPass, makeQP, bind.
  destruct (setupQuadraticSubproblem settings_ time initState x u s)
    as [p s1 | | | ]; try reflexivity.
  cbn [get setPerformanceIndeces].
  destruct (at_ x 0 _) as [x0 s2 | | | ]; try reflexivity.
  cbn [ret].
  destruct (getOCPSolution settings_ (v_sub initState x0) s2)
    as [[delta_x delta_u] s3 | | | ]; try reflexivity.
  destruct (back (performanceIndeces_ s3) s3) as [baseline s4 | | | ]; try reflexivity.
  destruct (takeStep settings_ fuel baseline time initState delta_x delta_u x u s4)
    as [[[converged x'] u'] s5 | | | ]; try reflexivity.
Qed.

Lemma sqpLoop_iterates fuel time initState k x u s xk uk sk :
  sqpPasses settings_ fuel time initState k x u s xk uk sk ->
  forall n,
    sqpLoop settings_ fuel (k + n) time initState x u s
    = sqpLoop settings_ fuel n time initState xk uk sk.
Proof.
  induction 1 as [ | k x u s x1 u1 s1 x' u' s' Hpass _ IH]; intros n;
    [reflexivity | ].
  cbn [Nat.add]. rewrite sqpLoop_unfold. unfold bind at 1. rewrite Hpass. apply IH.
Qed.

(* An exception that leaves runImpl leaves the stored solution as it was. *)
Lemma runImpl_throws_samePrimal fuel initTime initState finalTime partitioningTimes
    s what s' :
  runImpl settings_ fuel initTime initState finalTime partitioningTimes s
  = Throw what s' ->
  primalSolution_ s' = primalSolution_ s.
Proof.
  unfold runImpl. intros H.
  assert (Ht : forall s1 s2 s3 : Solver,
             samePrimal s1 s2 -> samePrimal s2 s3 -> samePrimal s1 s3)
    by (unfold samePrimal; congruence).
  apply bind_Throw in H. destruct H as [H | (x & s1 & Hx & H)];
    [exact (preserves_Throw _ (preserves_initializeStateTrajectory _ _ _) H) | ].
  apply (preserves_Ok _ (preserves_initializeStateTrajectory _ _ _)) in Hx.
  apply bind_Throw in H. destruct H as [H | (u & s2 & Hu & H)];
    [exact (Ht _ _ _ Hx (preserves_Throw _ (preserves_initializeInputTrajectory _ _ _) H)) | ].
  apply (preserves_Ok _ (preserves_initializeInputTrajectory _ _ _)) in Hu.
  apply bind_Throw in H. destruct H as [H | ([] & s3 & Hlog & H)];
    [discriminate H | ].
  apply (preserves_Ok _ (preserves_setPerformanceIndeces _)) in Hlog.
  apply bind_Throw in H. destruct H as [H | ([x' u'] & s4 & Hloop & H)];
    [exact (Ht _ _ _ Hx (Ht _ _ _ Hu (Ht _ _ _ Hlog
              (preserves_Throw _ (preserves_sqpLoop _ _ _ _ _ _) H)))) | ].
  exfalso. revert H. apply nothrow_bind;
    [apply nothrow_storePrimalSolution | intros _; apply nothrow_computeController].
Qed.

(** C3.  A status other than SUCCESS makes [getOCPSolution] throw (with at
    least one thread, so that [constraintPtr_.front()] is defined).
    Whenever [runImpl] comes to a pass of its SQP loop, any pass before the
    limit [sqpIteration], in which the back-end answers the QP with a status
    other than SUCCESS, [runImpl] throws "Failed to solve QP" and the stored
    primal solution is as it was when [runImpl] started.  The passes of the
    loop are the passes of [sqpPass]; every exception that leaves
    [runImpl] leaves the stored primal solution as it was. *)
Theorem QP_failure_fatal :
  (forall delta_x0 s,
      nThreads settings_ <> 0%nat ->
      qpStatus settings_ delta_x0 s <> SUCCESS ->
      exists s',
        getOCPSolution settings_ delta_x0 s
        = Throw "[MultipleShootingSolver] Failed to solve QP"%string s' /\
        primalSolution_ s' = primalSolution_ s)
  /\
  (forall fuel initTime initState finalTime partitioningTimes s k x u sk delta_x0 sq,
      let timeDiscretization :=
        timeDiscretizationWithEvents initTime finalTime (dt settings_)
          (eventTimes getModeSchedule) limitEpsilon in
      reachesIteration settings_ fuel initTime initState finalTime s k x u sk ->
      (k < sqpIteration settings_)%nat ->
      makeQP settings_ timeDiscretization initState x u sk = Ok delta_x0 sq ->
      qpStatus settings_ delta_x0 sq <> SUCCESS ->
      exists s',
        runImpl settings_ fuel initTime initState finalTime partitioningTimes s
        = Throw "[MultipleShootingSolver] Failed to solve QP"%string s' /\
        primalSolution_ s' = primalSolution_ s)
  /\
  (forall fuel n time initState x u s,
      sqpLoop settings_ fuel (Datatypes.S n) time initState x u s
      = ('(converged, x', u') <- sqpPass settings_ fuel time initState x u ;;
         if (converged : bool) then ret (x', u')
         else sqpLoop settings_ fuel n time initState x' u') s)
  /\
  (forall fuel initTime initState finalTime partitioningTimes s what s',
      runImpl settings_ fuel initTime initState finalTime partitioningTimes s
      = Throw what s' ->
      primalSolution_ s' = primalSolution_ s).
Proof.
  split; [exact getOCPSolution_throws | ].
  split; [ | split; [exact sqpLoop_unfold | exact runImpl_throws_samePrimal]].
  intros fuel initTime initState finalTime partitioningTimes s k x u sk delta_x0 sq
    time (x0 & s1 & u0 & s2 & s3 & Hx & Hu & Hclear & Hpasses) Hk Hmake Hstatus.
  fold time in Hx, Hu, Hpasses.
  assert (Hthreads : nThreads settings_ <> 0%nat).
  { unfold makeQP in Hmake. apply bind_Ok in Hmake.
    destruct Hmake as (p & sp & Hsetup & _).
    exact (setupQuadraticSubproblem_threads _ _ _ _ _ Hsetup). }
  destruct (getOCPSolution_throws delta_x0 sq Hthreads Hstatus) as (s' & Hthrow & _).
  assert (Hrun : runImpl settings_ fuel initTime initState finalTime partitioningTimes s
                 = Throw "[MultipleShootingSolver] Failed to solve QP"%string s').
  { unfold runImpl. fold time.
    unfold bind at 1. rewrite Hx. unfold bind at 1. rewrite Hu.
    unfold bind at 1. rewrite Hclear. unfold bind at 1.
    replace (sqpIteration settings_)
      with (k + Datatypes.S (sqpIteration settings_ - Datatypes.S k))%nat by lia.
    rewrite (sqpLoop_iterates Hpasses), sqpLoop_unfold.
    unfold bind at 1. unfold sqpPass.
    unfold bind at 1. rewrite Hmake. unfold bind at 1. rewrite Hthrow. reflexivity. }
  exists s'. split; [exact Hrun | ].
  exact (runImpl_throws_samePrimal _ _ _ _ _ _ Hrun).
Qed.

End Fatal.

(* The QP step of the one-dimensional problem with the projection
   u = u~ + 2 x + 3. *)
Lemma getOCPSolution_remap_witness :
  match Rational.stepped with
  | Ok (deltaX, deltaU) s' =>
      getOCPSolution (P := Rational.problem true SUCCESS)
        (Rational.settings 2 true true) [0%Q] (Rational.ready true)
      = Ok (deltaX, deltaU) s' /\
      remapped (Rational.settings 2 true true) [0%Q] (Rational.ready true)
        deltaX deltaU
  | _ => False
  end.
Proof.
  unfold Rational.stepped.
  match goal with |- ?run = ?ret /\ _ => assert (H : run = ret) by reflexivity end.
  split; [exact H | ].
  exact (getOCPSolution_remap _ _ _ H).
Defined.

(* A solver that holds the solution of a first solve is asked to solve
   again; the back-end answers SUCCESS in the first pass of the loop and
   MAX_ITER in the second. *)
Lemma QP_failure_fatal_witness :
  timeTrajectory_ (primalSolution_ Rational.warm) = [0%Q; 1 # 2; 1%Q] /\
  exists s',
    runImpl (P := Rational.tiring 3) (Rational.settings 2 false false)
      10 0%Q [1%Q] 1%Q [] Rational.warm
    = Throw "[MultipleShootingSolver] Failed to solve QP"%string s' /\
    primalSolution_ s' = primalSolution_ Rational.warm.
Proof.
  split; [reflexivity | ].
  assert (Hpass : sqpPass (P := Rational.tiring 3) (Rational.settings 2 false false)
                    10 Rational.unit_grid [1%Q] Rational.flat_x Rational.flat_u
                    Rational.restarted = Rational.passed) by reflexivity.
  unfold Rational.passed in Hpass.
  eapply (proj1 (proj2 (QP_failure_fatal (P := Rational.tiring 3)
                          (Rational.settings 2 false false)))
            10%nat 0%Q [1%Q] 1%Q [] Rational.warm 1%nat).
  - exists Rational.flat_x, Rational.warm, Rational.flat_u, Rational.warm,
      Rational.restarted.
    split; [reflexivity | ]. split; [reflexivity | ]. split; [reflexivity | ].
    eapply sqpPasses_S; [exact Hpass | apply sqpPasses_0].
  - cbn. lia.
  - match goal with
    | |- ?make = Ok _ _ => assert (Hmake : make = Rational.posed) by reflexivity
    end.
    unfold Rational.posed in Hmake. exact Hmake.
  - intros Hstatus. discriminate Hstatus.
Defined.

(** ** C6 and C10: the lengths of the emitted trajectories *)

Section Driver.
Context {S : Scalar} {D : Dense S} {P : Problem}.
Variable settings_ : Settings.

Lemma computeStep_length n alpha v dv :
  forall vNew s vNew' s',
    computeStep n alpha v dv vNew s = Ok vNew' s' -> length vNew' = length vNew.
Proof.
  unfold computeStep. generalize (seq 0 n) as l.
  induction l as [ | i l IH]; intros vNew s vNew' s'; cbn.
  - intros H. now injection H as <- _.
  - intros H. apply bind_Ok in H. destruct H as (v1 & s1 & Hbody & H).
    monad_inv Hbody.
    match goal with R : assign vNew i _ = Some v1 |- _ =>
      rewrite <- (assign_length _ _ _ R) end.
    eapply IH, H.
Qed.

Lemma candidate_length time initState dx du x u alpha xBuf uBuf s c s' :
  candidate settings_ time initState dx du x u alpha xBuf uBuf s = Ok c s' ->
  length (xNew c) = length xBuf /\ length (uNew c) = length uBuf.
Proof.
  unfold candidate. intros H.
  apply bind_Ok in H. destruct H as (uBuf' & s1 & Hu & H).
  apply bind_Ok in H. destruct H as (xBuf' & s2 & Hx & H).
  apply bind_Ok in H. destruct H as (p & s3 & _ & H).
  injection H as <- _. cbn.
  split; eapply computeStep_length; eassumption.
Qed.

Lemma takeStep_length fuel baseline time initState dx du x u s converged x' u' s' :
  takeStep settings_ fuel baseline time initState dx du x u s
  = Ok (converged, x', u') s' ->
  length x' = length x /\ length u' = length u.
Proof.
  unfold takeStep.
  assert (Hx : length (repeat ([] : vector_t) (length x)) = length x)
    by apply repeat_length.
  assert (Hu : length (repeat ([] : vector_t) (length u)) = length u)
    by apply repeat_length.
  revert Hx Hu.
  generalize (repeat ([] : vector_t) (length x)) as xBuf.
  generalize (repeat ([] : vector_t) (length u)) as uBuf.
  generalize (@s_one S) as alpha. revert s.
  induction fuel as [ | fuel IH]; intros s alpha uBuf xBuf Hx Hu; cbn;
    [discriminate | ].
  destruct (alpha >? alpha_min settings_)%S.
  - intros H. apply bind_Ok in H. destruct H as (c & s1 & Hc & H).
    apply candidate_length in Hc. destruct Hc as [Hcx Hcu].
    destruct (stepAccepted settings_ baseline (performanceNew c)).
    + injection H as _ <- <- _. split; congruence.
    + destruct (stepSizeBelowTol settings_ (trajectoryNorm du) (trajectoryNorm dx) alpha).
      * injection H as _ <- <- _. split; reflexivity.
      * eapply IH; [ | | exact H]; congruence.
  - intros H. injection H as _ <- <- _. split; reflexivity.
Qed.

Lemma sqpLoop_length fuel iterations time initState :
  forall x u s x' u' s',
    sqpLoop settings_ fuel iterations time initState x u s = Ok (x', u') s' ->
    length x' = length x /\ length u' = length u.
Proof.
  induction iterations as [ | n IH]; intros x u s x' u' s'; cbn.
  - intros H. injection H as <- <- _. split; reflexivity.
  - intros H. do 4 bind_inv H.
    apply bind_Ok in H. destruct H as ([delta_x delta_u] & sq & _ & H).
    do 2 bind_inv H.
    apply bind_Ok in H. destruct H as ([[converged x1] u1] & st & Hstep & H).
    apply takeStep_length in Hstep. destruct Hstep as [Hx Hu].
    do 2 bind_inv H. destruct converged.
    + injection H as <- <- _. now split.
    + apply IH in H. destruct H as [Hx' Hu']. split; congruence.
Qed.

Lemma initializeStateTrajectory_length initState time N s x s' :
  initializeStateTrajectory initState time N s = Ok x s' ->
  length x = Z.to_nat (N + 1) \/ length x = Datatypes.S (Z.to_nat N).
Proof.
  unfold initializeStateTrajectory. intros H. bind_inv H.
  destruct (Nat.eqb (totalNumIterations_ a) 0).
  - injection H as <- _. left. apply repeat_length.
  - right. apply bind_Ok in H. destruct H as (rest & s1 & Hrest & H).
    injection H as <- _. cbn. f_equal.
    rewrite (mapM_length _ _ _ Hrest). apply length_seq.
Qed.

Lemma initializeInputTrajectory_length time x N s u s' :
  initializeInputTrajectory settings_ time x N s = Ok u s' ->
  (0 <= N)%Z /\ length u = Z.to_nat N.
Proof.
  unfold initializeInputTrajectory. intros H. do 2 bind_inv H.
  destruct (Z.ltb_spec N 0) as [Hneg | Hpos]; [discriminate | ].
  split; [exact Hpos | ].
  rewrite (mapM_length _ _ _ H). apply length_seq.
Qed.

Lemma trajectories_setController c : preserves sameTrajectories (setController c).
Proof. intros s. cbn. repeat split. Qed.

Lemma trajectories_setConstraints c : preserves sameTrajectories (setConstraints c).
Proof. intros s. cbn. repeat split. Qed.

Lemma trajectories_computeController N :
  preserves sameTrajectories (computeController settings_ N).
Proof.
  assert (Hr : forall s, sameTrajectories s s) by (intros s; repeat split).
  assert (Ht : forall s1 s2 s3,
             sameTrajectories s1 s2 -> sameTrajectories s2 s3 -> sameTrajectories s1 s3).
  { unfold sameTrajectories. intros s1 s2 s3 (? & ? & ?) (? & ? & ?).
    repeat split; congruence. }
  unfold computeController, projectedFeedback, plainFeedback, constraintPtr_front.
  repeat first [ apply trajectories_setController | apply trajectories_setConstraints
               | frame_step ].
Qed.

(* What a normal return of runImpl has stored. *)
Lemma runImpl_stores fuel initTime initState finalTime partitioningTimes s s' :
  runImpl settings_ fuel initTime initState finalTime partitioningTimes s = Ok tt s' ->
  let time := timeDiscretizationWithEvents initTime finalTime (dt settings_)
                (eventTimes getModeSchedule) limitEpsilon in
  exists x u0 uLast,
    length x = length time /\
    Datatypes.S (Datatypes.S (length u0)) = length time /\
    timeTrajectory_ (primalSolution_ s') = time /\
    stateTrajectory_ (primalSolution_ s') = x /\
    inputTrajectory_ (primalSolution_ s') = (u0 ++ [uLast]) ++ [uLast].
Proof.
  intros H time. unfold runImpl in H. fold time in H.
  apply bind_Ok in H. destruct H as (x & s1 & Hx & H).
  apply bind_Ok in H. destruct H as (u & s2 & Hu & H).
  apply bind_Ok in H. destruct H as ([] & s3 & _ & H).
  apply bind_Ok in H. destruct H as ([x' u'] & s4 & Hloop & H).
  apply bind_Ok in H. destruct H as ([] & s5 & Hstore & H).
  apply initializeStateTrajectory_length in Hx.
  apply initializeInputTrajectory_length in Hu. destruct Hu as [HN Hu].
  apply sqpLoop_length in Hloop. destruct Hloop as [Hx' Hu'].
  unfold storePrimalSolution in Hstore.
  apply bind_Ok in Hstore. destruct Hstore as (s_ & s6 & Hget & Hstore).
  injection Hget as <- <-.
  apply bind_Ok in Hstore. destruct Hstore as (uLast & s7 & Hback & Hstore).
  apply back_Ok in Hback. destruct Hback as [[u0 ->] ->].
  injection Hstore as <-.
  apply (preserves_Ok _ (trajectories_computeController _)) in H.
  destruct H as (Htime & Hstate & Hinput). cbn in Htime, Hstate, Hinput.
  exists x', u0, uLast.
  rewrite length_app in Hu'. cbn in Hu'.
  unfold horizon in *. fold time in HN, Hu, Hx.
  repeat split; try assumption.
  - rewrite Hx'. destruct Hx as [Hx | Hx]; rewrite Hx; lia.
  - lia.
Qed.

(** C6.  When [runImpl] returns normally on a time grid of [N + 1] points,
    the stored time, state and input trajectories all have [N + 1] elements,
    and the input trajectory is a sequence of [N] inputs followed by a copy
    of its last element. *)
Theorem primal_lengths fuel initTime initState finalTime partitioningTimes s s' :
  runImpl settings_ fuel initTime initState finalTime partitioningTimes s = Ok tt s' ->
  let time := timeDiscretizationWithEvents initTime finalTime (dt settings_)
                (eventTimes getModeSchedule) limitEpsilon in
  let primal := primalSolution_ s' in
  timeTrajectory_ primal = time /\
  Z.of_nat (length (timeTrajectory_ primal)) = (horizon time + 1)%Z /\
  Z.of_nat (length (stateTrajectory_ primal)) = (horizon time + 1)%Z /\
  Z.of_nat (length (inputTrajectory_ primal)) = (horizon time + 1)%Z /\
  exists u0 uLast,
    inputTrajectory_ primal = (u0 ++ [uLast]) ++ [uLast] /\
    Z.of_nat (length (u0 ++ [uLast])) = horizon time.
Proof.
  intros H time primal.
  destruct (runImpl_stores _ _ _ _ _ _ H)
    as (x & u0 & uLast & Hx & Hu & Htime & Hstate & Hinput).
  fold time in Hx, Hu, Htime. fold primal in Htime, Hstate, Hinput.
  unfold horizon. rewrite Htime, Hstate, Hinput, !length_app. cbn.
  repeat split; try lia.
  exists u0, uLast. split; [reflexivity | ]. rewrite length_app. cbn. lia.
Qed.

(* runImpl is its SQP part followed by the emission. *)
Lemma runImpl_sqpResult fuel initTime initState finalTime partitioningTimes s :
  let time := timeDiscretizationWithEvents initTime finalTime (dt settings_)
                (eventTimes getModeSchedule) limitEpsilon in
  runImpl settings_ fuel initTime initState finalTime partitioningTimes s
  = ('(x, u) <- sqpResult settings_ fuel initTime initState finalTime ;;
     storePrimalSolution time x u ;;;
     computeController settings_ (horizon time)) s.
Proof.
  intros time. unfold runImpl, sqpResult. fold time. unfold bind.
  destruct (initializeStateTrajectory initState time (horizon time) s)
    as [x s1 | | | ]; try reflexivity.
  destruct (initializeInputTrajectory settings_ time x (horizon time) s1)
    as [u s2 | | | ]; try reflexivity.
Qed.

(* The result of the SQP part has as many inputs as the grid has intervals. *)
Lemma sqpResult_length fuel initTime initState finalTime s x u s' :
  let time := timeDiscretizationWithEvents initTime finalTime (dt settings_)
                (eventTimes getModeSchedule) limitEpsilon in
  sqpResult settings_ fuel initTime initState finalTime s = Ok (x, u) s' ->
  (0 <= horizon time)%Z /\ length u = Z.to_nat (horizon time).
Proof.
  intros time H. unfold sqpResult in H. fold time in H.
  apply bind_Ok in H. destruct H as (x0 & s1 & _ & H).
  apply bind_Ok in H. destruct H as (u0 & s2 & Hu & H).
  apply bind_Ok in H. destruct H as ([] & s3 & _ & H).
  apply initializeInputTrajectory_length in Hu. destruct Hu as [HN Hu].
  apply sqpLoop_length in H. destruct H as [_ H].
  split; [exact HN | congruence].
Qed.

(** C10.  [runImpl] returns normally only on a grid of at least two points
    ([N >= 1]).  On a grid of a single point the initial input trajectory is
    empty, and so is the one the SQP loop hands on, if it comes to its end:
    storing it takes [back()] of an empty vector, and [runImpl] runs into
    undefined behaviour; the loops that build a feedback controller would
    run over no index, and the copy of the last sample is undefined.  With
    the grid builder's contract of section 4.1 ([t_0 = t0], [t_N = tf]) and
    a strict order, [initTime < finalTime] gives a grid of at least two
    points. *)
Theorem degenerate_grid :
  (forall fuel initTime initState finalTime partitioningTimes s s',
      runImpl settings_ fuel initTime initState finalTime partitioningTimes s
      = Ok tt s' ->
      (1 <= horizon (timeDiscretizationWithEvents initTime finalTime (dt settings_)
                       (eventTimes getModeSchedule) limitEpsilon))%Z)
  /\
  (forall fuel initTime initState finalTime partitioningTimes s,
      let time := timeDiscretizationWithEvents initTime finalTime (dt settings_)
                    (eventTimes getModeSchedule) limitEpsilon in
      length time = 1%nat ->
      (forall x s1 u s2,
          initializeStateTrajectory initState time (horizon time) s = Ok x s1 ->
          initializeInputTrajectory settings_ time x (horizon time) s1 = Ok u s2 ->
          u = [])
      /\
      (forall x u s1,
          sqpResult settings_ fuel initTime initState finalTime s = Ok (x, u) s1 ->
          u = [] /\
          storePrimalSolution time x u s1 = UB /\
          runImpl settings_ fuel initTime initState finalTime partitioningTimes s = UB)
      /\
      (forall s1,
          controllerFeedback settings_ = true ->
          computeController settings_ (horizon time) s1 = UB))
  /\
  (forall fuel initTime initState finalTime partitioningTimes s,
      let time := timeDiscretizationWithEvents initTime finalTime (dt settings_)
                    (eventTimes getModeSchedule) limitEpsilon in
      runImpl settings_ fuel initTime initState finalTime partitioningTimes s
      = ('(x, u) <- sqpResult settings_ fuel initTime initState finalTime ;;
         storePrimalSolution time x u ;;;
         computeController settings_ (horizon time)) s)
  /\
  (forall initTime finalTime,
      let time := timeDiscretizationWithEvents initTime finalTime (dt settings_)
                    (eventTimes getModeSchedule) limitEpsilon in
      gridContract initTime finalTime time ->
      (forall a : scalar_t, (a <? a)%S = false) ->
      (initTime <? finalTime)%S = true ->
      (1 <= horizon time)%Z).
Proof.
  split; [ | split; [ | split]].
  - intros fuel initTime initState finalTime partitioningTimes s s' H.
    destruct (runImpl_stores _ _ _ _ _ _ H) as (x & u0 & uLast & _ & Hu & _).
    unfold horizon. lia.
  - intros fuel initTime initState finalTime partitioningTimes s time Htime.
    assert (HN : horizon time = 0%Z) by (unfold horizon; rewrite Htime; reflexivity).
    split; [ | split].
    + intros x s1 u s2 _ Hu.
      apply initializeInputTrajectory_length in Hu. destruct Hu as [_ Hu].
      rewrite HN in Hu. now destruct u.
    + intros x u s1 H.
      pose proof (sqpResult_length _ _ _ _ _ H) as [_ Hu]. fold time in Hu.
      rewrite HN in Hu. destruct u; [ | discriminate Hu].
      split; [reflexivity | ]. split; [reflexivity | ].
      rewrite runImpl_sqpResult. unfold bind at 1. rewrite H. reflexivity.
    + intros s1 Hfb. rewrite HN. unfold computeController, constraintPtr_front.
      rewrite Hfb. unfold bind, get.
      destruct (Nat.eqb (nThreads settings_) 0); [reflexivity | ]. cbn.
      destruct (hasConstraint && projectStateInputEqualityConstraints settings_);
        destruct (at_ (dynamics_ s1) 0 s1) as [d0 sd | | | ] eqn:Hd0;
        try reflexivity;
        try (unfold at_ in Hd0; destruct (nth_error (dynamics_ s1) 0); discriminate Hd0);
        destruct (at_ (cost_ s1) 0 sd) as [c0 sc | | | ] eqn:Hc0;
        try reflexivity;
        unfold at_ in Hc0; destruct (nth_error (cost_ s1) 0); discriminate Hc0.
  - intros fuel initTime initState finalTime partitioningTimes s.
    apply runImpl_sqpResult.
  - intros initTime finalTime time (Hfirst & g & Hgrid) Hstrict Hlt.
    unfold horizon. rewrite Hgrid in Hfirst |- *. rewrite length_app.
    destruct g as [ | t1 g]; [ | cbn [length]; lia].
    cbn in Hfirst. injection Hfirst as <-.
    rewrite Hstrict in Hlt. discriminate Hlt.
Qed.

End Driver.

(* Two SQP iterations of the one-dimensional problem on the grid (0, 1/2, 1). *)
Lemma primal_lengths_witness :
  match Rational.solved with
  | Ok _ s' =>
      runImpl (P := Rational.problem false SUCCESS) (Rational.settings 2 false false)
        10 0%Q [1%Q] 1%Q [] (Rational.fresh false SUCCESS) = Ok tt s' /\
      length (timeTrajectory_ (primalSolution_ s')) = 3%nat /\
      length (stateTrajectory_ (primalSolution_ s')) = 3%nat /\
      length (inputTrajectory_ (primalSolution_ s')) = 3%nat
  | _ => False
  end.
Proof.
  unfold Rational.solved.
  match goal with |- ?run = ?ret /\ _ => assert (H : run = ret) by reflexivity end.
  split; [exact H | ].
  destruct (primal_lengths _ _ _ _ _ _ _ H) as (_ & Ht & Hx & Hu & _).
  change (horizon _) with 2%Z in Ht, Hx, Hu. repeat split; lia.
Defined.

(* The window from 0 to 1 gives the grid (0, 1/2, 1), which keeps the
   contract; on the degenerate window from 0 to 0 the grid is the single
   point 0, the SQP loop converges in its first pass with no input, and
   runImpl runs into undefined behaviour. *)
Lemma degenerate_grid_witness :
  (1 <= horizon (timeDiscretizationWithEvents
                   (Problem := Rational.problem false SUCCESS)
                   0%Q 1%Q (1 # 2)%Q [] (1 # 1000000)%Q))%Z /\
  returned Rational.collapsed = Some ([[1%Q]], []) /\
  runImpl (P := Rational.problem false SUCCESS) (Rational.settings 2 false false)
    10 0%Q [1%Q] 0%Q [] (Rational.fresh false SUCCESS) = UB.
Proof.
  split; [ | split; [reflexivity | ]].
  - apply (proj2 (proj2 (proj2 (degenerate_grid (P := Rational.problem false SUCCESS)
                                  (Rational.settings 2 false false)))) 0%Q 1%Q).
    + split; [reflexivity | ]. exists [0%Q; (1 # 2)%Q]. reflexivity.
    + intros a. cbn. unfold Rational.Qltb.
      apply negb_false_iff, Qle_bool_iff, Qle_refl.
    + reflexivity.
  - assert (H : sqpResult (P := Rational.problem false SUCCESS)
                  (Rational.settings 2 false false) 10 0%Q [1%Q] 0%Q
                  (Rational.fresh false SUCCESS) = Rational.collapsed) by reflexivity.
    unfold Rational.collapsed in H.
    eapply (proj1 (proj2 (degenerate_grid (P := Rational.problem false SUCCESS)
                            (Rational.settings 2 false false)))
              10%nat 0%Q [1%Q] 0%Q [] (Rational.fresh false SUCCESS) eq_refl).
    exact H.
Defined.

(** ** C8: the feedback controller *)

Section Feedback.
Context {S : Scalar} {D : Dense S} {P : Problem}.
Variable settings_ : Settings.

(* One pass of the loop with the projection appends the gain
   dfdx + dfdu * K and the matching feedforward term. *)
Lemma projected_loop KMatrices n :
  forall k uff gain s uff' gain' s',
    foldM (projectedFeedback KMatrices) (seq k n) (uff, gain) s = Ok (uff', gain') s' ->
    primalSolution_ s' = primalSolution_ s /\
    exists newU newG,
      uff' = uff ++ newU /\ gain' = gain ++ newG /\
      length newU = n /\ length newG = n /\
      forall i, (i < n)%nat ->
        exists K u_i x_i c,
          nth_error KMatrices (k + i) = Some K /\
          nth_error (inputTrajectory_ (primalSolution_ s)) (k + i) = Some u_i /\
          nth_error (stateTrajectory_ (primalSolution_ s)) (k + i) = Some x_i /\
          nth_error (constraints_ s) (k + i) = Some c /\
          nth_error newG i = Some (m_add (dfdx c) (m_mul (dfdu c) K)) /\
          nth_error newU i
          = Some (v_sub u_i (m_vec (m_add (dfdx c) (m_mul (dfdu c) K)) x_i)).
Proof.
  induction n as [ | n IH]; intros k uff gain s uff' gain' s'; cbn.
  - intros H. injection H as <- <- <-. split; [reflexivity | ].
    exists [], []. rewrite !app_nil_r. repeat split. intros i Hi. lia.
  - intros H. apply bind_Ok in H. destruct H as ([uff1 gain1] & s1 & Hbody & H).
    unfold projectedFeedback in Hbody.
    apply bind_Ok in Hbody. destruct Hbody as (s_ & s2 & Hget & Hbody).
    injection Hget as <- <-.
    apply bind_Ok in Hbody. destruct Hbody as (c & s2 & Hc & Hbody).
    apply at_Ok in Hc. destruct Hc as [Hc ->].
    apply bind_Ok in Hbody. destruct Hbody as (cs & s2 & Hcs & Hbody).
    apply assign_Ok in Hcs. destruct Hcs as [Hcs ->].
    apply bind_Ok in Hbody. destruct Hbody as ([] & s2 & Hset & Hbody).
    injection Hset as <-.
    apply bind_Ok in Hbody. destruct Hbody as (K & s2 & HK & Hbody).
    apply at_Ok in HK. destruct HK as [HK ->].
    apply bind_Ok in Hbody. destruct Hbody as (u_k & s2 & Hu & Hbody).
    apply at_Ok in Hu. destruct Hu as [Hu ->].
    apply bind_Ok in Hbody. destruct Hbody as (x_k & s2 & Hx & Hbody).
    apply at_Ok in Hx. destruct Hx as [Hx ->].
    injection Hbody as <- <- <-. cbn in Hu, Hx.
    apply IH in H. cbn [primalSolution_ constraints_] in H.
    destruct H as (Hprimal & newU & newG & -> & -> & HlenU & HlenG & Hnew).
    split; [exact Hprimal | ].
    exists (v_sub u_k (m_vec (m_add (dfdx c) (m_mul (dfdu c) K)) x_k) :: newU),
           (m_add (dfdx c) (m_mul (dfdu c) K) :: newG).
    rewrite <- !app_assoc. cbn. repeat split; try (f_equal; assumption).
    intros [ | i] Hi.
    + rewrite Nat.add_0_r. exists K, u_k, x_k, c. repeat split; assumption.
    + destruct (Hnew i ltac:(lia)) as (K' & u' & x' & c' & HK' & Hu' & Hx' & Hc' & Hr).
      rewrite (assign_nth_error _ _ _ (Datatypes.S k + i) Hcs) in Hc'.
      destruct (Nat.eqb_spec k (Datatypes.S k + i)) as [Heq | _]; [lia | ].
      rewrite <- Nat.add_succ_comm. exists K', u', x', c'. repeat split; tauto.
Qed.

(* One pass of the loop without the projection appends the Riccati gain and
   the matching feedforward term. *)
Lemma plain_loop KMatrices n :
  forall k uff gain s uff' gain' s',
    foldM (plainFeedback KMatrices) (seq k n) (uff, gain) s = Ok (uff', gain') s' ->
    s' = s /\
    exists newU newG,
      uff' = uff ++ newU /\ gain' = gain ++ newG /\
      length newU = n /\ length newG = n /\
      forall i, (i < n)%nat ->
        exists K u_i x_i,
          nth_error KMatrices (k + i) = Some K /\
          nth_error (inputTrajectory_ (primalSolution_ s)) (k + i) = Some u_i /\
          nth_error (stateTrajectory_ (primalSolution_ s)) (k + i) = Some x_i /\
          nth_error newG i = Some K /\
          nth_error newU i = Some (v_sub u_i (m_vec K x_i)).
Proof.
  induction n as [ | n IH]; intros k uff gain s uff' gain' s'; cbn.
  - intros H. injection H as <- <- <-. split; [reflexivity | ].
    exists [], []. rewrite !app_nil_r. repeat split. intros i Hi. lia.
  - intros H. apply bind_Ok in H. destruct H as ([uff1 gain1] & s1 & Hbody & H).
    unfold plainFeedback in Hbody.
    apply bind_Ok in Hbody. destruct Hbody as (s_ & s2 & Hget & Hbody).
    injection Hget as <- <-.
    apply bind_Ok in Hbody. destruct Hbody as (K & s2 & HK & Hbody).
    apply at_Ok in HK. destruct HK as [HK ->].
    apply bind_Ok in Hbody. destruct Hbody as (u_k & s2 & Hu & Hbody).
    apply at_Ok in Hu. destruct Hu as [Hu ->].
    apply bind_Ok in Hbody. destruct Hbody as (x_k & s2 & Hx & Hbody).
    apply at_Ok in Hx. destruct Hx as [Hx ->].
    injection Hbody as <- <- <-.
    apply IH in H.
    destruct H as (-> & newU & newG & -> & -> & HlenU & HlenG & Hnew).
    split; [reflexivity | ].
    exists (v_sub u_k (m_vec K x_k) :: newU), (K :: newG).
    rewrite <- !app_assoc. cbn. repeat split; try (f_equal; assumption).
    intros [ | i] Hi.
    + rewrite Nat.add_0_r. exists K, u_k, x_k. repeat split; assumption.
    + destruct (Hnew i ltac:(lia)) as (K' & u' & x' & HK' & Hu' & Hx' & Hr).
      rewrite <- Nat.add_succ_comm. exists K', u', x'. repeat split; tauto.
Qed.

(** C8, amended.  When a feedback controller is requested and
    [computeController] returns, the controller is linear; for every node
    [i < N] its gain is [dfdx[i] + dfdu[i] * K[i]] when a constraint is
    present and the projection is enabled, and [K[i]] when the projection is
    disabled or no constraint is present, with [K] the Riccati gains of the
    last QP; its feedforward term is [u[i] - K_eff[i] * x[i]]; the last gain
    and feedforward term are repeated to make [N + 1] samples. *)
Theorem controller_feedback N s s' :
  controllerFeedback settings_ = true ->
  computeController settings_ N s = Ok tt s' ->
  emitsFeedback settings_ N s s'.
Proof.
  intros Hfb. unfold computeController, emitsFeedback, emitsFeedbackWhen.
  rewrite Hfb. intros H.
  apply bind_Ok in H. destruct H as (s_ & s1 & Hget & H). injection Hget as <- <-.
  apply bind_Ok in H. destruct H as (constrained & s1 & Hfront & H).
  apply constraintPtr_front_Ok in Hfront. destruct Hfront as (-> & -> & _).
  destruct (hasConstraint && projectStateInputEqualityConstraints settings_) eqn:Hproj.
  - apply bind_Ok in H. destruct H as (d0 & s1 & Hd0 & H).
    apply at_Ok in Hd0. destruct Hd0 as [Hd0 ->].
    apply bind_Ok in H. destruct H as (c0 & s1 & Hc0 & H).
    apply at_Ok in Hc0. destruct Hc0 as [Hc0 ->].
    apply bind_Ok in H. destruct H as ([uff gain] & s1 & Hloop & H).
    apply projected_loop in Hloop.
    destruct Hloop as (Hprimal & newU & newG & -> & -> & HlenU & HlenG & Hnew).
    cbn [app] in H.
    apply bind_Ok in H. destruct H as (uffLast & s2 & HuL & H).
    apply back_Ok in HuL. destruct HuL as [[uff0 ->] ->].
    apply bind_Ok in H. destruct H as (gainLast & s2 & HgL & H).
    apply back_Ok in HgL. destruct HgL as [[gain0 ->] ->].
    unfold setController, bind, get, setPrimalSolution in H. injection H as <-.
    exists d0, c0, (uff0 ++ [uffLast]), (gain0 ++ [gainLast]), uffLast, gainLast.
    assert (HN : Z.of_nat (Z.to_nat N) = N).
    { rewrite length_app in HlenU. cbn in HlenU. lia. }
    cbn. repeat split; try assumption; try lia; eauto.
    intros i Hi.
    destruct (Hnew i ltac:(lia)) as (K & u_i & x_i & c & HK & Hu & Hx & Hc & Hg & Hu').
    exists K, u_i, x_i. repeat split; try assumption.
    exists c. repeat split; assumption.
  - apply bind_Ok in H. destruct H as (d0 & s1 & Hd0 & H).
    apply at_Ok in Hd0. destruct Hd0 as [Hd0 ->].
    apply bind_Ok in H. destruct H as (c0 & s1 & Hc0 & H).
    apply at_Ok in Hc0. destruct Hc0 as [Hc0 ->].
    apply bind_Ok in H. destruct H as ([uff gain] & s1 & Hloop & H).
    apply plain_loop in Hloop.
    destruct Hloop as (-> & newU & newG & -> & -> & HlenU & HlenG & Hnew).
    cbn [app] in H.
    apply bind_Ok in H. destruct H as (uffLast & s2 & HuL & H).
    apply back_Ok in HuL. destruct HuL as [[uff0 ->] ->].
    apply bind_Ok in H. destruct H as (gainLast & s2 & HgL & H).
    apply back_Ok in HgL. destruct HgL as [[gain0 ->] ->].
    unfold setController, bind, get, setPrimalSolution in H. injection H as <-.
    exists d0, c0, (uff0 ++ [uffLast]), (gain0 ++ [gainLast]), uffLast, gainLast.
    assert (HN : Z.of_nat (Z.to_nat N) = N).
    { rewrite length_app in HlenU. cbn in HlenU. lia. }
    cbn. repeat split; try assumption; try lia; eauto.
    intros i Hi.
    destruct (Hnew i ltac:(lia)) as (K & u_i & x_i & HK & Hu & Hx & Hg & Hu').
    exists K, u_i, x_i. repeat split; assumption.
Qed.

End Feedback.

(* The controller of the one-dimensional problem with the projection
   u = u~ + 2 x + 3 and Riccati gains -1: the gains are 2 + 1 * (-1). *)
Lemma controller_feedback_witness :
  match Rational.emitted with
  | Ok _ s' =>
      controllerFeedback (Rational.settings 2 true true) = true /\
      computeController (P := Rational.problem true SUCCESS)
        (Rational.settings 2 true true) 2 (Rational.ready true) = Ok tt s' /\
      emitsFeedback (Rational.settings 2 true true) 2 (Rational.ready true) s'
  | _ => False
  end.
Proof.
  unfold Rational.emitted.
  match goal with |- _ /\ ?run = ?ret /\ _ => assert (H : run = ret) by reflexivity end.
  split; [reflexivity | ]. split; [exact H | ].
  exact (@controller_feedback _ _ _ (Rational.settings 2 true true) 2%Z _ _ eq_refl H).
Defined.

(** That the gains follow the projection switch alone fails: without a
    constraint the gains are the Riccati gains -1 although the projection is
    enabled; they are not [dfdx + dfdu * K] of the (empty) constraint
    blocks. *)
Lemma controller_feedback_as_enabled_fails :
  match Rational.emitted_unconstrained with
  | Ok _ s' =>
      controllerFeedback (Rational.settings 2 true true) = true /\
      projectStateInputEqualityConstraints (Rational.settings 2 true true) = true /\
      computeController (P := Rational.problem false SUCCESS)
        (Rational.settings 2 true true) 2 (Rational.ready false) = Ok tt s' /\
      ~ emitsFeedback_as_enabled (Rational.settings 2 true true) 2
          (Rational.ready false) s'
  | _ => False
  end.
Proof.
  unfold Rational.emitted_unconstrained.
  split; [reflexivity | ]. split; [reflexivity | ]. split; [reflexivity | ].
  unfold emitsFeedback_as_enabled, emitsFeedbackWhen.
  intros (d0 & c0 & uff & gain & uffLast & gainLast & Hd0 & Hc0 & Hctrl & _ & _ & _ & _ & Hall).
  destruct (Hall 0%nat ltac:(lia)) as (K & u_0 & x_0 & HK & _ & _ & c & Hc & Hgain & _).
  injection Hc as <-.
  destruct gain as [ | g gain]; [discriminate Hgain | ].
  injection Hgain as ->.
  injection Hctrl. intros. discriminate.
Qed.

(** * Further properties *)

(** ** Computations that do not depend on the solver *)

Section Stateless.
Context {S : Scalar} {D : Dense S} {P : Problem}.

Lemma stateless_ret {A} (a : A) : stateless (ret a).
Proof. intros s t. reflexivity. Qed.

Lemma stateless_undefined {A} : stateless (undefined (A := A)).
Proof. intros s t. reflexivity. Qed.

Lemma stateless_throw {A} what : stateless (throw (A := A) what).
Proof. intros s t. reflexivity. Qed.

Lemma stateless_bind {A B} (m : M A) (k : A -> M B) :
  stateless m -> (forall a, stateless (k a)) -> stateless (bind m k).
Proof.
  intros Hm Hk s t. unfold bind. rewrite (Hm s t).
  destruct (m s) as [a s1 | what s1 | | ]; try reflexivity.
  apply Hk.
Qed.

Lemma stateless_at {A} (v : list A) i : stateless (at_ v i).
Proof.
  unfold at_. destruct (nth_error v i); [apply stateless_ret | apply stateless_undefined].
Qed.

Lemma stateless_back {A} (v : list A) : stateless (back v).
Proof.
  unfold back. destruct (rev v); [apply stateless_undefined | apply stateless_ret].
Qed.

Lemma stateless_assign {A} (v : list A) i a : stateless (assign_ v i a).
Proof.
  unfold assign_. destruct (assign v i a); [apply stateless_ret | apply stateless_undefined].
Qed.

Lemma stateless_mapM {A B} (g : A -> M B) l :
  (forall a, stateless (g a)) -> stateless (mapM g l).
Proof.
  intros Hg. induction l as [ | a l IH]; cbn; [apply stateless_ret | ].
  apply stateless_bind; [apply Hg | intros b].
  apply stateless_bind; [apply IH | intros bs]. apply stateless_ret.
Qed.

Lemma stateless_foldM {A B} (g : B -> A -> M B) l :
  (forall b a, stateless (g b a)) -> forall b, stateless (foldM g l b).
Proof.
  intros Hg. induction l as [ | a l IH]; intros b; cbn; [apply stateless_ret | ].
  apply stateless_bind; [apply Hg | exact IH].
Qed.

Lemma stateless_Ok {A} (m : M A) s a s' :
  stateless m -> m s = Ok a s' -> forall t, m t = Ok a t.
Proof. intros H E t. rewrite (H s t), E. reflexivity. Qed.

(* A loop whose body returns in the state it started in returns there. *)
Lemma mapM_returns {A B} (g : A -> M B) l s :
  (forall a, In a l -> exists b, g a s = Ok b s) ->
  exists bs, mapM g l s = Ok bs s /\ length bs = length l.
Proof.
  induction l as [ | a l IH]; intros Hg; cbn.
  - exists []. now split.
  - destruct (Hg a (or_introl eq_refl)) as (b & Hb).
    destruct IH as (bs & Hbs & Hlen); [intros a' Ha'; apply Hg; now right | ].
    exists (b :: bs). unfold bind. rewrite Hb, Hbs. cbn. split; [reflexivity | now f_equal].
Qed.

(* A loop whose body returns one value returns as many copies of it. *)
Lemma mapM_constant {A B} (g : A -> M B) l s b :
  (forall a, In a l -> g a s = Ok b s) ->
  mapM g l s = Ok (repeat b (length l)) s.
Proof.
  induction l as [ | a l IH]; intros Hg; cbn; [reflexivity | ].
  unfold bind. rewrite (Hg a (or_introl eq_refl)), IH; [reflexivity | ].
  intros a' Ha'. apply Hg. now right.
Qed.

(* The results of a loop over a stateless body, one by one *)
Lemma mapM_nth_error {A B} (g : A -> M B) :
  (forall a, stateless (g a)) ->
  forall l s bs s',
    mapM g l s = Ok bs s' ->
    forall i a, nth_error l i = Some a ->
      exists b, nth_error bs i = Some b /\ forall t, g a t = Ok b t.
Proof.
  intros Hg. induction l as [ | a0 l IH]; intros s bs s' H i a Hi.
  - now destruct i.
  - cbn in H. apply bind_Ok in H. destruct H as (b0 & s1 & Hb0 & H).
    apply bind_Ok in H. destruct H as (bs0 & s2 & Hbs0 & H). injection H as <- _.
    destruct i as [ | i]; cbn in Hi |- *.
    + injection Hi as <-. exists b0. split; [reflexivity | ].
      eapply stateless_Ok; [apply Hg | exact Hb0].
    + eapply IH; eassumption.
Qed.

End Stateless.

(* Goals [stateless m], by the structure of [m]. *)
Ltac stateless_step :=
  match goal with
  | |- stateless (bind _ _) => apply stateless_bind; [ | intros ?]
  | |- stateless (ret _) => apply stateless_ret
  | |- stateless (throw _) => apply stateless_throw
  | |- stateless undefined => apply stateless_undefined
  | |- stateless (at_ _ _) => apply stateless_at
  | |- stateless (front _) => apply stateless_at
  | |- stateless (back _) => apply stateless_back
  | |- stateless (assign_ _ _ _) => apply stateless_assign
  | |- stateless (mapM _ _) => apply stateless_mapM; intros ?
  | |- stateless (foldM _ _ _) => apply stateless_foldM; intros ? ?
  | |- context [if ?b then _ else _] => destruct b
  | |- context [let '(_, _) := ?p in _] => destruct p
  | |- context [match ?o with Some _ => _ | None => _ end] => destruct o
  end.

(** ** The reduction for a given schedule, and for one worker *)

Section Sequential.
Context {S : Scalar} {D : Dense S} {P : Problem}.
Variable settings_ : Settings.


Lemma stateless_intermediateNode time x u i :
  stateless (intermediateNode settings_ time x u i).
Proof. unfold intermediateNode. repeat stateless_step. Qed.











End Sequential.



(** ** What the calls leave untouched *)

Section Members.
Context {S : Scalar} {D : Dense S} {P : Problem}.

Lemma sameMembers_refl s : sameMembers s s.
Proof. repeat split. Qed.

Lemma sameMembers_trans s1 s2 s3 :
  sameMembers s1 s2 -> sameMembers s2 s3 -> sameMembers s1 s3.
Proof.
  unfold sameMembers. intros (? & ? & ? & ? & ? & ? & ?) (? & ? & ? & ? & ? & ? & ?).
  repeat split; congruence.
Qed.

Lemma sameBookkeeping_refl s : sameBookkeeping s s.
Proof. repeat split. Qed.

Lemma sameBookkeeping_trans s1 s2 s3 :
  sameBookkeeping s1 s2 -> sameBookkeeping s2 s3 -> sameBookkeeping s1 s3.
Proof.
  unfold sameBookkeeping. intros (? & ? & ?) (? & ? & ?). repeat split; congruence.
Qed.

Lemma preserves_sumPerformance_refl (R : Solver -> Solver -> Prop) performance :
  (forall s, R s s) -> preserves R (sumPerformance performance).
Proof. intros Hr s. destruct performance; cbn; [exact I | apply Hr]. Qed.

End Members.

(* A call that assigns members which the relation does not mention *)
Ltac setter_frame :=
  solve [ intros ?; cbn; unfold sameMembers, sameBookkeeping; cbn; repeat split; reflexivity ].

(* Goals [preserves sameMembers m], by the structure of [m]. *)
Ltac members_frame :=
  assert (Hr : forall s, sameMembers s s) by exact sameMembers_refl;
  assert (Ht : forall s1 s2 s3, sameMembers s1 s2 -> sameMembers s2 s3 -> sameMembers s1 s3)
    by exact sameMembers_trans;
  repeat first [ frame_step | apply preserves_sumPerformance_refl; assumption | setter_frame ].

(* Goals [preserves sameBookkeeping m], by the structure of [m]. *)
Ltac bookkeeping_frame :=
  assert (Hr : forall s, sameBookkeeping s s) by exact sameBookkeeping_refl;
  assert (Ht : forall s1 s2 s3,
             sameBookkeeping s1 s2 -> sameBookkeeping s2 s3 -> sameBookkeeping s1 s3)
    by exact sameBookkeeping_trans;
  repeat first [ frame_step | apply preserves_sumPerformance_refl; assumption | setter_frame ].

(* Goals [readonly m], by the structure of [m]. *)
Ltac readonly_frame :=
  unfold readonly;
  assert (Hr : forall a : Solver, a = a) by reflexivity;
  assert (Ht : forall a b c : Solver, b = a -> c = b -> c = a) by congruence;
  frame.

Section Bookkeeping.
Context {S : Scalar} {D : Dense S} {P : Problem}.
Variable settings_ : Settings.

Lemma members_computePerformance time initState x u :
  preserves sameMembers (computePerformance settings_ time initState x u).
Proof.
  unfold computePerformance, performanceContributions, intermediatePerformance,
    accountInitState, nextRegion.
  members_frame.
Qed.

Lemma members_takeStep fuel baseline time initState dx du x u :
  preserves sameMembers (takeStep settings_ fuel baseline time initState dx du x u).
Proof.
  unfold takeStep.
  generalize (repeat ([] : vector_t) (length x)) as xBuf.
  generalize (repeat ([] : vector_t) (length u)) as uBuf.
  generalize (@s_one S) as alpha.
  induction fuel as [ | fuel IH]; intros alpha uBuf xBuf; cbn; [intros s; exact I | ].
  unfold candidate, computeStep.
  members_frame; try apply members_computePerformance; apply IH.
Qed.

Lemma readonly_initializeStateTrajectory initState time N :
  readonly (initializeStateTrajectory initState time N).
Proof. unfold initializeStateTrajectory. readonly_frame. Qed.

Lemma readonly_initializeInputTrajectory time x N :
  readonly (initializeInputTrajectory settings_ time x N).
Proof. unfold initializeInputTrajectory. readonly_frame. Qed.

Lemma bookkeeping_setupQuadraticSubproblem time initState x u :
  preserves sameBookkeeping (setupQuadraticSubproblem settings_ time initState x u).
Proof.
  unfold setupQuadraticSubproblem, intermediateNode, accountInitState, determineSize,
    constraintPtr_front, nextRegion, storeBlocks, resizeSolver.
  bookkeeping_frame.
Qed.

Lemma bookkeeping_getOCPSolution delta_x0 :
  preserves sameBookkeeping (getOCPSolution settings_ delta_x0).
Proof.
  unfold getOCPSolution, remapInput, constraintPtr_front, setHpipmInterface.
  bookkeeping_frame.
Qed.

(* The controller is built without a write to the log, the count, the
   dynamics and cost blocks or the HPIPM interface. *)
Lemma computeController_keeps N s s' :
  computeController settings_ N s = Ok tt s' ->
  performanceIndeces_ s' = performanceIndeces_ s /\
  totalNumIterations_ s' = totalNumIterations_ s /\
  dynamics_ s' = dynamics_ s /\ cost_ s' = cost_ s /\
  hpipmInterface_ s' = hpipmInterface_ s.
Proof.
  intros H.
  assert (Hk : preserves (fun a b : Solver =>
                            performanceIndeces_ b = performanceIndeces_ a /\
                            totalNumIterations_ b = totalNumIterations_ a /\
                            dynamics_ b = dynamics_ a /\ cost_ b = cost_ a /\
                            hpipmInterface_ b = hpipmInterface_ a)
                 (computeController settings_ N)).
  { assert (Hr : forall a : Solver,
               performanceIndeces_ a = performanceIndeces_ a /\
               totalNumIterations_ a = totalNumIterations_ a /\
               dynamics_ a = dynamics_ a /\ cost_ a = cost_ a /\
               hpipmInterface_ a = hpipmInterface_ a) by (intros a; repeat split).
    assert (Ht : forall a b c : Solver,
               (performanceIndeces_ b = performanceIndeces_ a /\
                totalNumIterations_ b = totalNumIterations_ a /\
                dynamics_ b = dynamics_ a /\ cost_ b = cost_ a /\
                hpipmInterface_ b = hpipmInterface_ a) ->
               (performanceIndeces_ c = performanceIndeces_ b /\
                totalNumIterations_ c = totalNumIterations_ b /\
                dynamics_ c = dynamics_ b /\ cost_ c = cost_ b /\
                hpipmInterface_ c = hpipmInterface_ b) ->
               performanceIndeces_ c = performanceIndeces_ a /\
               totalNumIterations_ c = totalNumIterations_ a /\
               dynamics_ c = dynamics_ a /\ cost_ c = cost_ a /\
               hpipmInterface_ c = hpipmInterface_ a)
      by (intros a b c (? & ? & ? & ? & ?) (? & ? & ? & ? & ?); repeat split; congruence).
    unfold computeController, projectedFeedback, plainFeedback, constraintPtr_front,
      setController, setConstraints, setPrimalSolution.
    repeat first [ frame_step | solve [intros ?; cbn; repeat split; reflexivity] ]. }
  exact (preserves_Ok _ Hk H).
Qed.

End Bookkeeping.

(** ** The iteration log and count *)

Section Log.
Context {S : Scalar} {D : Dense S} {P : Problem}.
Variable settings_ : Settings.

(* Each pass of the SQP loop appends one index to the log and counts one
   iteration; the stored solution is not touched. *)
Lemma sqpLoop_bookkeeping fuel iterations time initState :
  forall x u s x' u' s',
    sqpLoop settings_ fuel iterations time initState x u s = Ok (x', u') s' ->
    exists new,
      performanceIndeces_ s' = performanceIndeces_ s ++ new /\
      totalNumIterations_ s' = (totalNumIterations_ s + length new)%nat /\
      (length new <= iterations)%nat /\
      ((0 < iterations)%nat -> (0 < length new)%nat).
Proof.
  induction iterations as [ | n IH]; intros x u s x' u' s'; cbn.
  - intros H. injection H as _ _ <-. exists []. rewrite app_nil_r. cbn.
    repeat split; lia.
  - intros H.
    apply bind_Ok in H. destruct H as (p & s1 & Hsetup & H).
    apply (preserves_Ok _ (bookkeeping_setupQuadraticSubproblem _ _ _ _ _)) in Hsetup.
    destruct Hsetup as (_ & Hl1 & Hn1).
    apply bind_Ok in H. destruct H as (s_ & s2 & Hget & H). injection Hget as <- <-.
    apply bind_Ok in H. destruct H as ([] & s2 & Hlog & H). injection Hlog as <-.
    apply bind_Ok in H. destruct H as (x0 & s3 & Hx0 & H).
    apply at_Ok in Hx0. destruct Hx0 as [_ ->].
    apply bind_Ok in H. destruct H as ([delta_x delta_u] & s3 & Hqp & H).
    apply (preserves_Ok _ (bookkeeping_getOCPSolution _ _)) in Hqp.
    destruct Hqp as (_ & Hl3 & Hn3). cbn in Hl3, Hn3.
    apply bind_Ok in H. destruct H as (s_ & s4 & Hget & H). injection Hget as <- <-.
    apply bind_Ok in H. destruct H as (baseline & s4 & Hback & H).
    apply back_Ok in Hback. destruct Hback as [_ ->].
    apply bind_Ok in H. destruct H as ([[converged x1] u1] & s4 & Hstep & H).
    apply (preserves_Ok _ (members_takeStep _ _ _ _ _ _ _ _ _)) in Hstep.
    destruct Hstep as (_ & Hl4 & Hn4 & _).
    apply bind_Ok in H. destruct H as (s_ & s5 & Hget & H). injection Hget as <- <-.
    apply bind_Ok in H. destruct H as ([] & s5 & Hcount & H). injection Hcount as <-.
    destruct converged.
    + injection H as _ _ <-. cbn. exists [p]. cbn.
      rewrite Hl4, Hl3, Hl1, Hn4, Hn3, Hn1.
      repeat split; lia.
    + apply IH in H. destruct H as (new & Hl & Hn & Hlen & _). cbn in Hl, Hn.
      exists (p :: new). cbn [length].
      rewrite Hl, Hn, Hl4, Hl3, Hl1, Hn4, Hn3, Hn1, <- app_assoc.
      repeat split; lia.
Qed.

(* What a normal return of runImpl has logged and counted. *)
Lemma runImpl_bookkeeping fuel initTime initState finalTime partitioningTimes s s' :
  runImpl settings_ fuel initTime initState finalTime partitioningTimes s = Ok tt s' ->
  totalNumIterations_ s'
  = (totalNumIterations_ s + length (performanceIndeces_ s'))%nat /\
  (length (performanceIndeces_ s') <= sqpIteration settings_)%nat /\
  ((0 < sqpIteration settings_)%nat -> (0 < length (performanceIndeces_ s'))%nat).
Proof.
  unfold runImpl. intros H.
  apply bind_Ok in H. destruct H as (x & s1 & Hx & H).
  pose proof (preserves_Ok _ (readonly_initializeStateTrajectory _ _ _) Hx) as ->.
  apply bind_Ok in H. destruct H as (u & s2 & Hu & H).
  pose proof (preserves_Ok _ (readonly_initializeInputTrajectory _ _ _ _) Hu) as ->.
  apply bind_Ok in H. destruct H as ([] & s3 & Hclear & H). injection Hclear as <-.
  apply bind_Ok in H. destruct H as ([x' u'] & s4 & Hloop & H).
  apply sqpLoop_bookkeeping in Hloop.
  destruct Hloop as (new & Hl & Hn & Hlen & Hpos). cbn in Hl, Hn.
  apply bind_Ok in H. destruct H as ([] & s5 & Hstore & H).
  unfold storePrimalSolution in Hstore.
  apply bind_Ok in Hstore. destruct Hstore as (s_ & s6 & Hget & Hstore).
  injection Hget as <- <-.
  apply bind_Ok in Hstore. destruct Hstore as (uLast & s6 & Hback & Hstore).
  apply back_Ok in Hback. destruct Hback as [_ ->]. injection Hstore as <-.
  apply computeController_keeps in H. destruct H as (Hl' & Hn' & _). cbn in Hl', Hn'.
  rewrite Hl', Hn', Hl, Hn. repeat split; assumption.
Qed.

(** X3.  When [runImpl] returns normally, the iteration log holds one index
    per SQP iteration of this solve (the log of an earlier solve is
    dropped), at most [sqpIteration] of them, and [totalNumIterations_] has
    grown by their number; with [sqpIteration >= 1] the log is not empty,
    so that [getIterationsLog] returns it. *)
Theorem runImpl_iterations fuel initTime initState finalTime partitioningTimes s s' :
  runImpl settings_ fuel initTime initState finalTime partitioningTimes s = Ok tt s' ->
  let performed := length (performanceIndeces_ s') in
  totalNumIterations_ s' = (totalNumIterations_ s + performed)%nat /\
  (performed <= sqpIteration settings_)%nat /\
  ((0 < sqpIteration settings_)%nat ->
   (0 < performed)%nat /\ getIterationsLog s' = Ok (performanceIndeces_ s') s').
Proof.
  intros H performed. destruct (runImpl_bookkeeping _ _ _ _ _ _ H) as (Hn & Hle & Hpos).
  split; [exact Hn | ]. split; [exact Hle | ]. intros Hiter.
  specialize (Hpos Hiter). split; [exact Hpos | ].
  unfold getIterationsLog, bind, get.
  destruct (performanceIndeces_ s'); [cbn in Hpos; lia | reflexivity].
Qed.

(** X4.  [getIterationsLog] throws after [reset], and also after a solve
    with [sqpIteration = 0]: such a solve returns normally and stores a
    solution, but logs nothing and counts no iteration. *)
Theorem getIterationsLog_empty :
  (forall s s', reset s = Ok tt s' ->
     getIterationsLog s'
     = Throw
         "[MultipleShootingSolver]: No performance log yet, no problem solved yet?"%string
         s')
  /\
  (forall fuel initTime initState finalTime partitioningTimes s s',
     sqpIteration settings_ = 0%nat ->
     runImpl settings_ fuel initTime initState finalTime partitioningTimes s = Ok tt s' ->
     getIterationsLog s'
     = Throw
         "[MultipleShootingSolver]: No performance log yet, no problem solved yet?"%string
         s'
     /\ totalNumIterations_ s' = totalNumIterations_ s).
Proof.
  split.
  - intros s s' H. injection H as <-. reflexivity.
  - intros fuel initTime initState finalTime partitioningTimes s s' Hzero H.
    destruct (runImpl_bookkeeping _ _ _ _ _ _ H) as (Hn & Hle & _).
    rewrite Hzero in Hle. unfold getIterationsLog, bind, get.
    destruct (performanceIndeces_ s'); [ | cbn in Hle; lia].
    cbn in Hn. split; [reflexivity | lia].
Qed.

End Log.

(* Two SQP iterations of the one-dimensional problem on the grid (0, 1/2, 1). *)
Lemma runImpl_iterations_witness :
  match Rational.solved with
  | Ok _ s' =>
      runImpl (P := Rational.problem false SUCCESS) (Rational.settings 2 false false)
        10 0%Q [1%Q] 1%Q [] (Rational.fresh false SUCCESS) = Ok tt s' /\
      totalNumIterations_ s' = length (performanceIndeces_ s') /\
      getIterationsLog s' = Ok (performanceIndeces_ s') s'
  | _ => False
  end.
Proof.
  unfold Rational.solved.
  match goal with |- ?run = ?ret /\ _ => assert (H : run = ret) by reflexivity end.
  split; [exact H | ].
  destruct (runImpl_iterations _ _ _ _ _ _ _ H) as (Hn & _ & Hlog).
  split; [exact Hn | ]. apply Hlog. cbn. lia.
Defined.

Lemma getIterationsLog_empty_witness :
  match Rational.unsolved with
  | Ok _ s' =>
      sqpIteration (Rational.settings 0 false false) = 0%nat /\
      runImpl (P := Rational.problem false SUCCESS) (Rational.settings 0 false false)
        10 0%Q [1%Q] 1%Q [] (Rational.fresh false SUCCESS) = Ok tt s' /\
      getIterationsLog s'
      = Throw
          "[MultipleShootingSolver]: No performance log yet, no problem solved yet?"%string
          s'
  | _ => False
  end.
Proof.
  unfold Rational.unsolved.
  split; [reflexivity | ].
  match goal with |- ?run = ?ret /\ _ => assert (H : run = ret) by reflexivity end.
  split; [exact H | ].
  exact (proj1 (proj2 (getIterationsLog_empty (Rational.settings 0 false false))
                  _ _ _ _ _ _ _ eq_refl H)).
Defined.

(** ** The initial trajectories *)

Section Initialisation.
Context {S : Scalar} {D : Dense S} {P : Problem}.
Variable settings_ : Settings.

(** X5.  For a horizon [N >= 0], the initial state trajectory has [N + 1]
    nodes and its first node is [initState], on a cold start as on a warm
    start; on a cold start ([totalNumIterations_ = 0]) every node is
    [initState].  The solver is left as it was. *)
Theorem initializeStateTrajectory_first_node initState time N s x s' :
  (0 <= N)%Z ->
  initializeStateTrajectory initState time N s = Ok x s' ->
  s' = s /\
  Z.of_nat (length x) = (N + 1)%Z /\
  nth_error x 0 = Some initState /\
  (totalNumIterations_ s = 0%nat -> x = repeat initState (Z.to_nat (N + 1))).
Proof.
  intros HN H.
  split; [exact (preserves_Ok _ (readonly_initializeStateTrajectory _ _ _) H) | ].
  unfold initializeStateTrajectory in H.
  apply bind_Ok in H. destruct H as (s_ & s1 & Hget & H). injection Hget as <- <-.
  destruct (Nat.eqb_spec (totalNumIterations_ s) 0) as [Hzero | Hwarm].
  - injection H as <- _. rewrite repeat_length.
    split; [lia | ]. split; [ | reflexivity].
    replace (Z.to_nat (N + 1)) with (Datatypes.S (Z.to_nat N)) by lia. reflexivity.
  - apply bind_Ok in H. destruct H as (rest & s1 & Hrest & H).
    injection H as <- _. cbn. rewrite (mapM_length _ _ _ Hrest), length_seq.
    split; [lia | ]. split; [reflexivity | ]. intros Hzero. contradiction.
Qed.

(** X6.  On a cold start without operating trajectories, on a grid of
    [N + 1] points none of which lies before the first, the initial input
    trajectory is [N] zero vectors of size [n_input], and the solver is left
    as it was. *)
Theorem initializeInputTrajectory_cold time x N s t0 :
  totalNumIterations_ s = 0%nat ->
  getSystemOperatingTrajectories = None ->
  Z.of_nat (length time) = (N + 1)%Z ->
  nth_error time 0 = Some t0 ->
  (forall ti, In ti time -> (ti <? t0)%S = false) ->
  initializeInputTrajectory settings_ time x N s
  = Ok (repeat (v_Zero (n_input settings_)) (Z.to_nat N)) s.
Proof.
  intros Hzero Hnone Hlen Ht0 Hgrid.
  assert (Hpos : (0 < length time)%nat) by (apply nth_error_Some; congruence).
  unfold initializeInputTrajectory, bind, get. rewrite Hzero. cbn [Nat.ltb Nat.leb].
  unfold front, at_. rewrite Ht0. cbn.
  destruct (Z.ltb_spec N 0) as [Hneg | _]; [lia | ].
  replace (repeat (v_Zero (n_input settings_)) (Z.to_nat N))
    with (repeat (v_Zero (n_input settings_)) (length (seq 0 (Z.to_nat N))))
    by now rewrite length_seq.
  apply mapM_constant. intros i Hi. apply in_seq in Hi.
  unfold bind, at_.
  destruct (nth_error time i) as [ti | ] eqn:Hti.
  - cbn. rewrite (Hgrid ti (nth_error_In _ _ Hti)). rewrite Hnone. reflexivity.
  - apply nth_error_None in Hti. lia.
Qed.

(* A warm start reads the end of the stored time trajectory. *)
Lemma runImpl_warm_without_solution fuel initTime initState finalTime
    partitioningTimes s :
  (0 < totalNumIterations_ s)%nat ->
  timeTrajectory_ (primalSolution_ s) = [] ->
  runImpl settings_ fuel initTime initState finalTime partitioningTimes s = UB.
Proof.
  intros Hwarm Hempty. unfold runImpl.
  set (time := timeDiscretizationWithEvents _ _ _ _ _).
  assert (Hx : exists x, initializeStateTrajectory initState time (horizon time) s = Ok x s).
  { edestruct (mapM_returns (s := s)
                 (fun i => ti <- at_ time i ;;
                           ret (interpolate ti (timeTrajectory_ (primalSolution_ s))
                                  (stateTrajectory_ (primalSolution_ s))))
                 (seq 1 (Z.to_nat (horizon time)))) as (rest & Hrest & _).
    - intros i Hi. apply in_seq in Hi. unfold bind, at_, horizon in *.
      destruct (nth_error time i) as [ti | ] eqn:Hti; [eexists; reflexivity | ].
      apply nth_error_None in Hti. lia.
    - unfold initializeStateTrajectory. unfold bind at 1. unfold get.
      destruct (Nat.eqb_spec (totalNumIterations_ s) 0) as [Hzero | _]; [lia | ].
      unfold bind at 1. rewrite Hrest. eexists. reflexivity. }
  destruct Hx as (x & Hx). unfold bind at 1. rewrite Hx.
  unfold bind at 1. unfold initializeInputTrajectory, bind, get.
  destruct (Nat.ltb_spec 0 (totalNumIterations_ s)) as [_ | Hzero]; [ | lia].
  rewrite Hempty. reflexivity.
Qed.

(* An exception that leaves runImpl leaves the stored solution as it was. *)
Lemma runImpl_throw_primal fuel initTime initState finalTime partitioningTimes
    s what s' :
  runImpl settings_ fuel initTime initState finalTime partitioningTimes s
  = Throw what s' ->
  primalSolution_ s' = primalSolution_ s.
Proof.
  unfold runImpl. intros H.
  assert (Ht : forall s1 s2 s3 : Solver,
             samePrimal s1 s2 -> samePrimal s2 s3 -> samePrimal s1 s3)
    by (unfold samePrimal; congruence).
  apply bind_Throw in H. destruct H as [H | (x & s1 & Hx & H)];
    [exact (preserves_Throw _ (preserves_initializeStateTrajectory _ _ _) H) | ].
  apply (preserves_Ok _ (preserves_initializeStateTrajectory _ _ _)) in Hx.
  apply bind_Throw in H. destruct H as [H | (u & s2 & Hu & H)];
    [exact (Ht _ _ _ Hx (preserves_Throw _ (preserves_initializeInputTrajectory _ _ _ _) H))
    | ].
  apply (preserves_Ok _ (preserves_initializeInputTrajectory _ _ _ _)) in Hu.
  apply bind_Throw in H. destruct H as [H | ([] & s3 & Hlog & H)];
    [discriminate H | ].
  apply (preserves_Ok _ (preserves_setPerformanceIndeces _)) in Hlog.
  apply bind_Throw in H. destruct H as [H | ([x' u'] & s4 & Hloop & H)];
    [exact (Ht _ _ _ Hx (Ht _ _ _ Hu (Ht _ _ _ Hlog
              (preserves_Throw _ (preserves_sqpLoop _ _ _ _ _ _ _) H)))) | ].
  exfalso. revert H. apply nothrow_bind;
    [apply nothrow_storePrimalSolution | intros _; apply nothrow_computeController].
Qed.

(** X7.  When the first solve of a solver throws after it has completed an
    SQP iteration (the QP of a later iteration fails), the solver counts
    iterations but stores no solution; the next [runImpl] then takes the
    warm-start path and calls [back()] on the empty stored time
    trajectory: undefined behaviour. *)
Theorem runImpl_after_failed_solve fuel initTime initState finalTime partitioningTimes
    s what s' fuel' initTime' initState' finalTime' partitioningTimes' :
  timeTrajectory_ (primalSolution_ s) = [] ->
  runImpl settings_ fuel initTime initState finalTime partitioningTimes s
  = Throw what s' ->
  (0 < totalNumIterations_ s')%nat ->
  runImpl settings_ fuel' initTime' initState' finalTime' partitioningTimes' s' = UB.
Proof.
  intros Hempty H Hcount. apply runImpl_warm_without_solution; [exact Hcount | ].
  now rewrite (runImpl_throw_primal _ _ _ _ _ _ H).
Qed.

End Initialisation.

Lemma initializeStateTrajectory_first_node_witness :
  match initializeStateTrajectory (P := Rational.problem false SUCCESS)
          [1%Q] Rational.unit_grid 2 (Rational.fresh false SUCCESS)
  with
  | Ok x _ => nth_error x 0 = Some [1%Q] /\ length x = 3%nat
  | _ => False
  end.
Proof.
  destruct (initializeStateTrajectory _ _ _ _) as [x s' | what s' | | ] eqn:H.
  - apply initializeStateTrajectory_first_node in H; [ | lia].
    destruct H as (_ & Hlen & Hfirst & _). split; [exact Hfirst | lia].
  - discriminate H.
  - discriminate H.
  - discriminate H.
Defined.

Lemma initializeInputTrajectory_cold_witness :
  initializeInputTrajectory (P := Rational.problem false SUCCESS)
    (Rational.settings 2 false false) Rational.unit_grid Rational.flat_x 2
    (Rational.fresh false SUCCESS)
  = Ok [[0%Q]; [0%Q]] (Rational.fresh false SUCCESS).
Proof.
  refine (@initializeInputTrajectory_cold _ _ (Rational.problem false SUCCESS)
            (Rational.settings 2 false false) Rational.unit_grid Rational.flat_x 2
            (Rational.fresh false SUCCESS) 0%Q _ _ _ _ _).
  - reflexivity.
  - reflexivity.
  - reflexivity.
  - reflexivity.
  - intros ti [<- | [<- | [<- | []]]]; reflexivity.
Defined.

(* The first solve fails in its second SQP iteration; the next solve reads
   the end of an empty time trajectory. *)
Lemma runImpl_after_failed_solve_witness :
  match Rational.broken with
  | Throw what s' =>
      runImpl (P := Rational.flaky) (Rational.settings 2 false false)
        10 0%Q [1%Q] 1%Q [] Rational.fresh_flaky = Throw what s' /\
      runImpl (P := Rational.flaky) (Rational.settings 2 false false)
        10 0%Q [1%Q] 1%Q [] s' = UB
  | _ => False
  end.
Proof.
  unfold Rational.broken.
  match goal with |- ?run = ?thrown /\ _ => assert (H : run = thrown) by reflexivity end.
  split; [exact H | ].
  eapply runImpl_after_failed_solve; [ | exact H | cbn; lia].
  reflexivity.
Defined.

(** ** The blocks and the sizes of the subproblem *)

Section Subproblem.
Context {S : Scalar} {D : Dense S} {P : Problem}.
Variable settings_ : Settings.

Lemma intermediateNode_Ok time x u i t node :
  intermediateNode settings_ time x u i t = Ok node t ->
  exists ti tnext xi xnext ui,
    nth_error time i = Some ti /\ nth_error time (Datatypes.S i) = Some tnext /\
    nth_error x i = Some xi /\ nth_error x (Datatypes.S i) = Some xnext /\
    nth_error u i = Some ui /\
    node = setupIntermediateNode (projectStateInputEqualityConstraints settings_)
             ti (tnext - ti)%S xi xnext ui.
Proof.
  unfold intermediateNode. intros H. monad_inv H. eauto 12.
Qed.

Lemma written_nil s g k old : written s g k 0 old old.
Proof. repeat split. intros i Hi. lia. Qed.

Lemma written_step s g k n old mid new c :
  nth_error (constraints_ s) k = Some c ->
  assign old k (g c) = Some mid ->
  written s g (Datatypes.S k) n mid new ->
  written s g k (Datatypes.S n) old new.
Proof.
  intros Hc Hassign (Hlen & Hin & Hout). split; [ | split].
  - rewrite Hlen. exact (assign_length _ _ _ Hassign).
  - intros i Hi. destruct (Nat.eq_dec i k) as [-> | Hne].
    + exists c. split; [exact Hc | ]. rewrite Hout by lia.
      now rewrite (assign_nth_error _ _ _ k Hassign), Nat.eqb_refl.
    + apply Hin. lia.
  - intros i Hi. rewrite Hout by lia. rewrite (assign_nth_error _ _ _ i Hassign).
    destruct (Nat.eqb_spec k i) as [<- | _]; [lia | reflexivity].
Qed.

(* The loop "determine sizes" reads the blocks and writes one entry of the
   sizes per node. *)
Lemma determineSize_loop n :
  forall k size s size' s',
    foldM (determineSize settings_) (seq k n) size s = Ok size' s' ->
    s' = s /\
    numStages size' = numStages size /\ numStates size' = numStates size /\
    if hasConstraint then
      if projectStateInputEqualityConstraints settings_ then
        numIneqConstraints size' = numIneqConstraints size /\
        written s (fun c => m_cols (dfdu c)) k n (numInputs size) (numInputs size')
      else
        numInputs size' = numInputs size /\
        written s (fun c => length (f c)) k n
          (numIneqConstraints size) (numIneqConstraints size')
    else size' = size.
Proof.
  induction n as [ | n IH]; intros k size s size' s'; cbn [seq foldM].
  - intros H. injection H as <- <-. repeat split.
    destruct hasConstraint; [ | reflexivity].
    destruct (projectStateInputEqualityConstraints settings_);
      (split; [reflexivity | apply written_nil]).
  - intros H. apply bind_Ok in H. destruct H as (size1 & s1 & Hbody & H).
    apply IH in H. destruct H as (-> & Hstages & Hstates & Hrest).
    unfold determineSize in Hbody.
    apply bind_Ok in Hbody. destruct Hbody as (constrained & s2 & Hfront & Hbody).
    apply constraintPtr_front_Ok in Hfront. destruct Hfront as (-> & -> & _).
    destruct hasConstraint.
    2:{ injection Hbody as <- <-. now subst size'. }
    apply bind_Ok in Hbody. destruct Hbody as (s_ & s2 & Hget & Hbody).
    injection Hget as <- <-.
    apply bind_Ok in Hbody. destruct Hbody as (c & s2 & Hc & Hbody).
    apply at_Ok in Hc. destruct Hc as [Hc ->].
    destruct (projectStateInputEqualityConstraints settings_).
    + apply bind_Ok in Hbody. destruct Hbody as (v & s2 & Hassign & Hbody).
      apply assign_Ok in Hassign. destruct Hassign as [Hassign ->].
      injection Hbody as <- <-. cbn [numStages numStates numInputs numIneqConstraints] in *.
      destruct Hrest as [Hineq Hw].
      split; [reflexivity | ]. do 3 (split; [assumption | ]).
      eapply written_step; eassumption.
    + apply bind_Ok in Hbody. destruct Hbody as (v & s2 & Hassign & Hbody).
      apply assign_Ok in Hassign. destruct Hassign as [Hassign ->].
      injection Hbody as <- <-. cbn [numStages numStates numInputs numIneqConstraints] in *.
      destruct Hrest as [Hin Hw].
      split; [reflexivity | ]. do 3 (split; [assumption | ]).
      eapply written_step; eassumption.
Qed.

Lemma written_map s g N old new :
  written s g 0 N old new -> length old = N ->
  new = map g (firstn N (constraints_ s)).
Proof.
  intros (Hlen & Hin & _) Hold. apply nth_error_ext. intros i.
  destruct (Nat.lt_ge_cases i N) as [Hi | Hi].
  - destruct (Hin i ltac:(lia)) as (c & Hc & ->).
    rewrite nth_error_map, nth_error_firstn.
    destruct (Nat.ltb_spec i N); [ | lia]. now rewrite Hc.
  - transitivity (@None nat); [ | symmetry]; apply nth_error_None.
    + lia.
    + rewrite length_map, length_firstn. lia.
Qed.

Lemma written_map_below s g N old new z :
  written s g 0 N old new -> length old = Datatypes.S N ->
  nth_error old N = Some z ->
  new = map g (firstn N (constraints_ s)) ++ [z].
Proof.
  intros (Hlen & Hin & Hout) Hold Hz. apply nth_error_ext. intros i.
  assert (HlenN : length (map g (firstn N (constraints_ s))) = N).
  { rewrite length_map, length_firstn.
    destruct N as [ | N]; [reflexivity | ].
    destruct (Hin N ltac:(lia)) as (c & Hc & _).
    assert (N < length (constraints_ s))%nat by (apply nth_error_Some; congruence). lia. }
  destruct (lt_eq_lt_dec i N) as [[Hi | ->] | Hi].
  - destruct (Hin i ltac:(lia)) as (c & Hc & ->).
    rewrite nth_error_app1 by lia.
    rewrite nth_error_map, nth_error_firstn.
    destruct (Nat.ltb_spec i N); [ | lia]. now rewrite Hc.
  - rewrite Hout by lia. rewrite nth_error_app2 by lia.
    rewrite HlenN, Nat.sub_diag. exact Hz.
  - transitivity (@None nat); [ | symmetry]; apply nth_error_None.
    + lia.
    + rewrite length_app, HlenN. cbn. lia.
Qed.

(* setupQuadraticSubproblem, step by step *)
Lemma setupQuadraticSubproblem_Ok time initState x u s p s' :
  setupQuadraticSubproblem settings_ time initState x u s = Ok p s' ->
  (0 <= horizon time)%Z /\
  exists nodes tN xN size,
    (forall t, mapM (intermediateNode settings_ time x u)
                 (seq 0 (Z.to_nat (horizon time))) t = Ok nodes t) /\
    nth_error time (Z.to_nat (horizon time)) = Some tN /\
    nth_error x (Z.to_nat (horizon time)) = Some xN /\
    let stored :=
      {| primalSolution_ := primalSolution_ s;
         performanceIndeces_ := performanceIndeces_ s;
         totalNumIterations_ := totalNumIterations_ s;
         dynamics_ := map (@tr_dynamics _ _ _) nodes;
         cost_ := map (@tr_cost _ _ _) nodes ++ [tt_cost (setupTerminalNode tN xN)];
         constraints_ :=
           map (@tr_constraints _ _ _) nodes
           ++ [tt_constraints (setupTerminalNode tN xN)];
         hpipmInterface_ := hpipmInterface_ s;
         regions := Datatypes.S (regions s) |} in
    foldM (determineSize settings_) (seq 0 (Z.to_nat (horizon time)))
      (OcpSize_make (Z.to_nat (horizon time)) (n_state settings_) (n_input settings_))
      stored = Ok size stored /\
    s' = {| primalSolution_ := primalSolution_ s;
            performanceIndeces_ := performanceIndeces_ s;
            totalNumIterations_ := totalNumIterations_ s;
            dynamics_ := dynamics_ stored;
            cost_ := cost_ stored;
            constraints_ := constraints_ stored;
            hpipmInterface_ := hpipm_resize size (hpipmInterface_ s);
            regions := Datatypes.S (regions s) |}.
Proof.
  unfold setupQuadraticSubproblem.
  destruct (Z.ltb_spec (horizon time) 0) as [ | HN]; [discriminate | ].
  intros H. split; [exact HN | ].
  apply bind_Ok in H. destruct H as (r & s1 & Hr & H).
  unfold nextRegion in Hr. injection Hr as <- <-.
  apply bind_Ok in H. destruct H as (nodes & s2 & Hnodes & H).
  assert (Hstateless : forall t, mapM (intermediateNode settings_ time x u)
                         (seq 0 (Z.to_nat (horizon time))) t = Ok nodes t).
  { eapply stateless_Ok; [ | exact Hnodes]. apply stateless_mapM. intros i.
    apply stateless_intermediateNode. }
  rewrite Hstateless in Hnodes. injection Hnodes as <-.
  apply bind_Ok in H. destruct H as (tN & s3 & HtN & H). apply at_Ok in HtN.
  destruct HtN as [HtN ->].
  apply bind_Ok in H. destruct H as (xN & s3 & HxN & H). apply at_Ok in HxN.
  destruct HxN as [HxN ->].
  apply bind_Ok in H. destruct H as ([] & s3 & Hstore & H).
  unfold storeBlocks in Hstore. injection Hstore as <-.
  apply bind_Ok in H. destruct H as (adjusted & s4 & Hacc & H).
  unfold accountInitState in Hacc. monad_inv Hacc.
  apply bind_Ok in H. destruct H as (size & s5 & Hsize & H).
  pose proof (determineSize_loop _ _ _ _ Hsize) as (-> & _).
  apply bind_Ok in H. destruct H as ([] & s6 & Hresize & H).
  unfold resizeSolver in Hresize. injection Hresize as <-.
  assert (Hs' : preserves (fun a b : Solver => b = a) (sumPerformance adjusted)).
  { apply preserves_sumPerformance_refl. reflexivity. }
  apply (preserves_Ok _ Hs') in H. subst s'.
  exists nodes, tN, xN, size. cbn. repeat split; assumption.
Qed.

(** X8.  When [setupQuadraticSubproblem] returns on a grid of [N + 1]
    points, the solver holds [N] dynamics blocks and [N + 1] cost and
    constraint blocks; the blocks of node [i < N] are those of
    [setupIntermediateNode] at [(t_i, t_(i+1) - t_i, x_i, x_(i+1), u_i)]
    with the projection switch of the settings, and the last cost and
    constraint blocks are those of [setupTerminalNode] at [(t_N, x_N)],
    whichever worker computed them.  The stored solution, the log and the
    iteration count are untouched. *)
Theorem setupQuadraticSubproblem_blocks time initState x u s p s' :
  setupQuadraticSubproblem settings_ time initState x u s = Ok p s' ->
  let N := Z.to_nat (horizon time) in
  length time = Datatypes.S N /\
  length (dynamics_ s') = N /\
  length (cost_ s') = Datatypes.S N /\
  length (constraints_ s') = Datatypes.S N /\
  (forall i, (i < N)%nat ->
     exists ti tnext xi xnext ui,
       nth_error time i = Some ti /\ nth_error time (Datatypes.S i) = Some tnext /\
       nth_error x i = Some xi /\ nth_error x (Datatypes.S i) = Some xnext /\
       nth_error u i = Some ui /\
       let node := setupIntermediateNode (projectStateInputEqualityConstraints settings_)
                     ti (tnext - ti)%S xi xnext ui in
       nth_error (dynamics_ s') i = Some (tr_dynamics node) /\
       nth_error (cost_ s') i = Some (tr_cost node) /\
       nth_error (constraints_ s') i = Some (tr_constraints node)) /\
  (exists tN xN,
     nth_error time N = Some tN /\ nth_error x N = Some xN /\
     nth_error (cost_ s') N = Some (tt_cost (setupTerminalNode tN xN)) /\
     nth_error (constraints_ s') N = Some (tt_constraints (setupTerminalNode tN xN))) /\
  sameBookkeeping s s'.
Proof.
  intros H N. apply setupQuadraticSubproblem_Ok in H.
  destruct H as (HN & nodes & tN & xN & size & Hnodes & HtN & HxN & _ & ->).
  fold N in Hnodes, HtN, HxN. cbn.
  assert (Hlen : length nodes = N).
  { rewrite (mapM_length _ _ _ (Hnodes s)). apply length_seq. }
  split. { unfold horizon in *. lia. }
  split. { now rewrite length_map. }
  split. { rewrite length_app, length_map. cbn. lia. }
  split. { rewrite length_app, length_map. cbn. lia. }
  split; [ | split].
  - intros i Hi.
    assert (Hseq : nth_error (seq 0 N) i = Some i).
    { rewrite nth_error_seq. destruct (Nat.ltb_spec i N); [reflexivity | lia]. }
    destruct (mapM_nth_error (intermediateNode settings_ time x u)
                (stateless_intermediateNode settings_ time x u) _ _ (Hnodes s) i Hseq)
      as (node & Hnode & Hrun).
    specialize (Hrun s). apply intermediateNode_Ok in Hrun.
    destruct Hrun as (ti & tnext & xi & xnext & ui & Hti & Htn & Hxi & Hxn & Hui & ->).
    exists ti, tnext, xi, xnext, ui. do 5 (split; [assumption | ]). cbn.
    rewrite !nth_error_app1 by (rewrite length_map; lia).
    rewrite !nth_error_map, Hnode. cbn. repeat split.
  - exists tN, xN. do 2 (split; [assumption | ]).
    rewrite !nth_error_app2 by (rewrite length_map; lia).
    rewrite !length_map, Hlen, Nat.sub_diag. cbn. split; reflexivity.
  - repeat split.
Qed.

(** X9.  When [setupQuadraticSubproblem] returns, the HPIPM interface has
    been resized to [subproblemSize]: [N] stages of [n_state] states; with
    a constraint and the projection, node [i < N] has as many inputs as its
    [dfdu] has columns; with a constraint and no projection, node [i < N]
    has as many general inequalities as its [f] has rows, and the terminal
    node none; without a constraint all sizes are the constant ones. *)
Theorem setupQuadraticSubproblem_size time initState x u s p s' :
  setupQuadraticSubproblem settings_ time initState x u s = Ok p s' ->
  hpipmInterface_ s'
  = hpipm_resize
      (subproblemSize settings_ (Z.to_nat (horizon time)) (constraints_ s'))
      (hpipmInterface_ s).
Proof.
  intros H. apply setupQuadraticSubproblem_Ok in H.
  destruct H as (HN & nodes & tN & xN & size & Hnodes & HtN & HxN & Hsize & ->).
  cbn. f_equal.
  apply determineSize_loop in Hsize. destruct Hsize as (_ & Hstages & Hstates & Hsize).
  unfold subproblemSize.
  cbn [OcpSize_make numStages numStates numInputs numIneqConstraints constraints_]
    in Hsize, Hstages, Hstates |- *.
  destruct hasConstraint; [ | exact Hsize].
  destruct (projectStateInputEqualityConstraints settings_).
  - destruct Hsize as [Hineq Hw].
    apply written_map in Hw; [ | apply repeat_length].
    cbn [constraints_] in Hw.
    destruct size; cbn in *. now subst.
  - destruct Hsize as [Hin Hw].
    apply written_map_below with (z := 0%nat) in Hw;
      [ | apply repeat_length
        | rewrite nth_error_repeat by lia; reflexivity ].
    cbn [constraints_] in Hw. destruct size; cbn in *. now subst.
Qed.

End Subproblem.

(* The subproblem of the one-dimensional problem with the projection
   u = u~ + 2 x + 3 on the grid (0, 1/2, 1). *)
Lemma setupQuadraticSubproblem_blocks_witness :
  match setupQuadraticSubproblem (P := Rational.problem true SUCCESS)
          (Rational.settings 1 false true) Rational.unit_grid [2%Q]
          [[1%Q]; [1 # 2]; [1 # 2]] [[0%Q]; [0%Q]] (Rational.fresh true SUCCESS)
  with
  | Ok p s' =>
      length (dynamics_ s') = 2%nat /\ length (cost_ s') = 3%nat /\
      length (constraints_ s') = 3%nat
  | _ => False
  end.
Proof.
  destruct (setupQuadraticSubproblem _ _ _ _ _ _) as [p s' | what s' | | ] eqn:H.
  - apply setupQuadraticSubproblem_blocks in H.
    destruct H as (_ & Hd & Hc & Hg & _). repeat split; assumption.
  - discriminate H.
  - discriminate H.
  - discriminate H.
Defined.

Lemma setupQuadraticSubproblem_size_witness :
  match setupQuadraticSubproblem (P := Rational.problem true SUCCESS)
          (Rational.settings 1 false true) Rational.unit_grid [2%Q]
          [[1%Q]; [1 # 2]; [1 # 2]] [[0%Q]; [0%Q]] (Rational.fresh true SUCCESS)
  with
  | Ok p s' =>
      hpipmInterface_ s'
      = hpipm_resize (subproblemSize (P := Rational.problem true SUCCESS) (Rational.settings 1 false true) 2 (constraints_ s'))
          (hpipmInterface_ (Rational.fresh true SUCCESS))
  | _ => False
  end.
Proof.
  destruct (setupQuadraticSubproblem _ _ _ _ _ _) as [p s' | what s' | | ] eqn:H.
  - exact (setupQuadraticSubproblem_size _ _ _ _ _ _ H).
  - discriminate H.
  - discriminate H.
  - discriminate H.
Defined.

(** ** The step that the line search takes *)

Section Step.
Context {S : Scalar} {D : Dense S} {P : Problem}.
Variable settings_ : Settings.

(* "Compute step" writes the slots of its range, each from [v] and [dv]. *)
Lemma computeStep_loop alpha v dv n :
  forall k buf s buf' s',
    foldM (fun vNew i =>
             vi <- at_ v i ;;
             dvi <- at_ dv i ;;
             assign_ vNew i (v_add vi (v_scale alpha dvi)))
          (seq k n) buf s = Ok buf' s' ->
    s' = s /\
    (forall i, (k <= i < k + n)%nat ->
       exists vi dvi,
         nth_error v i = Some vi /\ nth_error dv i = Some dvi /\
         nth_error buf' i = Some (v_add vi (v_scale alpha dvi))) /\
    (forall i, ~ (k <= i < k + n)%nat -> nth_error buf' i = nth_error buf i).
Proof.
  induction n as [ | n IH]; intros k buf s buf' s'; cbn [seq foldM].
  - intros H. injection H as <- <-. repeat split. intros i Hi. lia.
  - intros H. apply bind_Ok in H. destruct H as (buf1 & s1 & Hbody & H).
    monad_inv Hbody.
    match goal with R : assign buf k _ = Some buf1 |- _ => rename R into Hassign end.
    apply IH in H. destruct H as (-> & Hin & Hout).
    split; [reflexivity | ]. split.
    + intros i Hi. destruct (Nat.eq_dec i k) as [-> | Hne].
      * rewrite Hout by lia. rewrite (assign_nth_error _ _ _ k Hassign), Nat.eqb_refl.
        eauto.
      * apply Hin. lia.
    + intros i Hi. rewrite Hout by lia. rewrite (assign_nth_error _ _ _ i Hassign).
      destruct (Nat.eqb_spec k i) as [<- | _]; [lia | reflexivity].
Qed.

Lemma computeStep_Ok n alpha v dv buf s buf' s' :
  computeStep n alpha v dv buf s = Ok buf' s' ->
  s' = s /\
  forall i, (i < n)%nat ->
    exists vi dvi,
      nth_error v i = Some vi /\ nth_error dv i = Some dvi /\
      nth_error buf' i = Some (v_add vi (v_scale alpha dvi)).
Proof.
  unfold computeStep. intros H. apply computeStep_loop in H.
  destruct H as (-> & Hin & _). split; [reflexivity | ].
  intros i Hi. apply Hin. lia.
Qed.

(** X10.  When [takeStep] returns, either it hands back [x] and [u] as
    they were and reports convergence, or it has moved them along the QP
    step: [x'[i] = x[i] + alpha dx[i]] for [i <= N] and
    [u'[i] = u[i] + alpha du[i]] for [i < N], with a step size
    [alpha = alpha_decay ^ k] above [alpha_min]; the index of the new
    trajectories passes the filter against the baseline, and the result is
    the test of the two exit conditions at that candidate. *)
Theorem takeStep_accepted_step fuel baseline time initState dx du x u s0
    converged x' u' s' :
  takeStep settings_ fuel baseline time initState dx du x u s0
    = Ok (converged, x', u') s' ->
  stepTaken settings_ baseline time initState dx du x u converged x' u' s'.
Proof.
  intros H. unfold takeStep in H. unfold stepTaken.
  destruct (takeStep_while_leaves fuel (tries_first _ _ _ _ _ _ _ _ _) H)
    as (k & alpha & xBuf & uBuf & s & Hk & Hleave).
  destruct Hleave
    as [(_ & Hr & _) | (Hmin & c & Hc & [(Hacc & Hr) | (_ & _ & Hr)])].
  - left. now inversion Hr.
  - right. inversion Hr; subst converged x' u'. clear Hr.
    rewrite (tries_alpha Hk) in *.
    unfold candidate in Hc.
    apply bind_Ok in Hc. destruct Hc as (uBuf' & s1 & Hu & Hc).
    apply computeStep_Ok in Hu. destruct Hu as [-> Hu].
    apply bind_Ok in Hc. destruct Hc as (xBuf' & s1 & Hx & Hc).
    apply computeStep_Ok in Hx. destruct Hx as [-> Hx].
    apply bind_Ok in Hc. destruct Hc as (p & s1 & Hp & Hc).
    injection Hc as <- <-. cbn in *.
    exists k, s, p. split; [exact Hmin | ]. split; [ | split].
    + intros i Hi. apply Hx. lia.
    + intros i Hi. apply Hu. lia.
    + now repeat split.
  - left. now inversion Hr.
Qed.

End Step.

(* A search along a descent direction: the first candidate is accepted. *)
Lemma takeStep_accepted_step_witness :
  match takeStep (P := Rational.problem false SUCCESS)
          (Rational.settings 1 false false) 10 (Rational.index 3 0)
          Rational.unit_grid [1%Q] Rational.downhill Rational.still
          Rational.flat_x Rational.flat_u (Rational.fresh false SUCCESS)
  with
  | Ok (converged, x', u') s' =>
      stepTaken (Rational.settings 1 false false) (Rational.index 3 0)
        Rational.unit_grid [1%Q] Rational.downhill Rational.still
        Rational.flat_x Rational.flat_u converged x' u' s'
  | _ => False
  end.
Proof.
  destruct (takeStep _ _ _ _ _ _ _ _ _ _) as [[[converged x'] u'] s' | what s' | | ] eqn:H.
  - exact (takeStep_accepted_step _ _ _ _ _ _ _ _ _ _ H).
  - discriminate H.
  - discriminate H.
  - discriminate H.
Defined.

(** ** What a solve stores *)

Section Emission.
Context {S : Scalar} {D : Dense S} {P : Problem}.
Variable settings_ : Settings.

(* Without feedback the controller replays the stored inputs. *)
Lemma computeController_feedforward N s s' :
  controllerFeedback settings_ = false ->
  computeController settings_ N s = Ok tt s' ->
  primalSolution_ s'
  = {| timeTrajectory_ := timeTrajectory_ (primalSolution_ s);
       stateTrajectory_ := stateTrajectory_ (primalSolution_ s);
       inputTrajectory_ := inputTrajectory_ (primalSolution_ s);
       modeSchedule_ := modeSchedule_ (primalSolution_ s);
       controllerPtr_ :=
         Some (FeedforwardController (timeTrajectory_ (primalSolution_ s))
                 (inputTrajectory_ (primalSolution_ s))) |}.
Proof.
  intros Hff. unfold computeController. rewrite Hff. intros H.
  apply bind_Ok in H. destruct H as (s_ & s1 & Hget & H). injection Hget as <- <-.
  apply bind_Ok in H. destruct H as (constrained & s1 & Hfront & H).
  apply constraintPtr_front_Ok in Hfront. destruct Hfront as (_ & -> & _).
  destruct (constrained && projectStateInputEqualityConstraints settings_);
    unfold setController, bind, get, setPrimalSolution in H;
    injection H as <-; reflexivity.
Qed.

(** X11.  When [runImpl] returns normally with [controllerFeedback] off, the
    stored controller is a feedforward controller over the stored time
    trajectory that replays the stored input trajectory (the [N] inputs and
    the copy of the last one), with or without constraint and projection;
    the stored mode schedule is the solver's. *)
Theorem runImpl_feedforward fuel initTime initState finalTime partitioningTimes s s' :
  controllerFeedback settings_ = false ->
  runImpl settings_ fuel initTime initState finalTime partitioningTimes s = Ok tt s' ->
  let primal := primalSolution_ s' in
  controllerPtr_ primal
  = Some (FeedforwardController (timeTrajectory_ primal) (inputTrajectory_ primal)) /\
  modeSchedule_ primal = getModeSchedule.
Proof.
  intros Hff H primal. unfold runImpl in H.
  apply bind_Ok in H. destruct H as (x & s1 & _ & H).
  apply bind_Ok in H. destruct H as (u & s2 & _ & H).
  apply bind_Ok in H. destruct H as ([] & s3 & _ & H).
  apply bind_Ok in H. destruct H as ([x' u'] & s4 & _ & H).
  apply bind_Ok in H. destruct H as ([] & s5 & Hstore & H).
  unfold storePrimalSolution in Hstore.
  apply bind_Ok in Hstore. destruct Hstore as (s_ & s6 & Hget & Hstore).
  injection Hget as <- <-.
  apply bind_Ok in Hstore. destruct Hstore as (uLast & s6 & Hback & Hstore).
  apply back_Ok in Hback. destruct Hback as [_ ->]. injection Hstore as <-.
  eapply computeController_feedforward in H; [ | exact Hff]. cbn in H.
  unfold primal. rewrite H. cbn. split; reflexivity.
Qed.

(** X12.  With [sqpIteration = 0], a [runImpl] that returns has stored the
    initial guess (the trajectories of [initializeStateTrajectory] and
    [initializeInputTrajectory], the last input repeated) and has left the
    dynamics and cost blocks and the HPIPM interface of the solve before
    as they were: the controller is built from them.  On a solver that
    holds no dynamics block, with [controllerFeedback] on, such a
    [runImpl] does not return: it reads [dynamics_[0]] of an empty
    vector. *)
Theorem runImpl_no_iterations fuel initTime initState finalTime partitioningTimes s :
  sqpIteration settings_ = 0%nat ->
  let time := timeDiscretizationWithEvents initTime finalTime (dt settings_)
                (eventTimes getModeSchedule) limitEpsilon in
  (forall s',
     runImpl settings_ fuel initTime initState finalTime partitioningTimes s = Ok tt s' ->
     exists x u uLast,
       initializeStateTrajectory initState time (horizon time) s = Ok x s /\
       initializeInputTrajectory settings_ time x (horizon time) s = Ok (u ++ [uLast]) s /\
       stateTrajectory_ (primalSolution_ s') = x /\
       inputTrajectory_ (primalSolution_ s') = (u ++ [uLast]) ++ [uLast] /\
       dynamics_ s' = dynamics_ s /\ cost_ s' = cost_ s /\
       hpipmInterface_ s' = hpipmInterface_ s)
  /\
  (controllerFeedback settings_ = true -> dynamics_ s = [] ->
   forall s',
     runImpl settings_ fuel initTime initState finalTime partitioningTimes s <> Ok tt s').
Proof.
  intros Hzero time.
  assert (Hrun : forall s',
             runImpl settings_ fuel initTime initState finalTime partitioningTimes s
             = Ok tt s' ->
             exists x u uLast,
               initializeStateTrajectory initState time (horizon time) s = Ok x s /\
               initializeInputTrajectory settings_ time x (horizon time) s
               = Ok (u ++ [uLast]) s /\
               computeController settings_ (horizon time)
                 {| primalSolution_ :=
                      {| timeTrajectory_ := time;
                         stateTrajectory_ := x;
                         inputTrajectory_ := (u ++ [uLast]) ++ [uLast];
                         modeSchedule_ := getModeSchedule;
                         controllerPtr_ := controllerPtr_ (primalSolution_ s) |};
                    performanceIndeces_ := [];
                    totalNumIterations_ := totalNumIterations_ s;
                    dynamics_ := dynamics_ s; cost_ := cost_ s;
                    constraints_ := constraints_ s;
                    hpipmInterface_ := hpipmInterface_ s;
                    regions := regions s |} = Ok tt s').
  { intros s' H. unfold runImpl in H. fold time in H. rewrite Hzero in H.
    apply bind_Ok in H. destruct H as (x & s1 & Hx & H).
    pose proof (preserves_Ok _ (readonly_initializeStateTrajectory _ _ _) Hx) as ->.
    apply bind_Ok in H. destruct H as (u & s2 & Hu & H).
    pose proof (preserves_Ok _ (readonly_initializeInputTrajectory _ _ _ _) Hu) as ->.
    apply bind_Ok in H. destruct H as ([] & s3 & Hclear & H). injection Hclear as <-.
    apply bind_Ok in H. destruct H as ([x' u'] & s4 & Hloop & H).
    cbn in Hloop. injection Hloop as <- <- <-.
    apply bind_Ok in H. destruct H as ([] & s5 & Hstore & H).
    unfold storePrimalSolution in Hstore.
    apply bind_Ok in Hstore. destruct Hstore as (s_ & s6 & Hget & Hstore).
    injection Hget as <- <-.
    apply bind_Ok in Hstore. destruct Hstore as (uLast & s6 & Hback & Hstore).
    apply back_Ok in Hback. destruct Hback as [[u0 ->] ->]. injection Hstore as <-.
    cbn in H. exists x, u0, uLast. repeat split; assumption. }
  split.
  - intros s' H. destruct (Hrun s' H) as (x & u & uLast & Hx & Hu & Hc).
    exists x, u, uLast. split; [exact Hx | ]. split; [exact Hu | ].
    pose proof (preserves_Ok _ (trajectories_computeController _ _) Hc)
      as (_ & Hstate & Hinput).
    cbn in Hstate, Hinput. split; [exact Hstate | ]. split; [exact Hinput | ].
    apply computeController_keeps in Hc. destruct Hc as (_ & _ & Hd & Hcost & Hh).
    repeat split; assumption.
  - intros Hfb Hempty s' H. destruct (Hrun s' H) as (x & u & uLast & _ & _ & Hc).
    unfold computeController in Hc. rewrite Hfb in Hc.
    apply bind_Ok in Hc. destruct Hc as (s_ & s1 & Hget & Hc). injection Hget as <- <-.
    apply bind_Ok in Hc. destruct Hc as (constrained & s1 & Hfront & Hc).
    apply constraintPtr_front_Ok in Hfront. destruct Hfront as (_ & -> & _).
    cbn [dynamics_] in Hc. rewrite Hempty in Hc.
    destruct (constrained && projectStateInputEqualityConstraints settings_);
      discriminate Hc.
Qed.

End Emission.

Lemma runImpl_feedforward_witness :
  match Rational.solved with
  | Ok _ s' =>
      runImpl (P := Rational.problem false SUCCESS) (Rational.settings 2 false false)
        10 0%Q [1%Q] 1%Q [] (Rational.fresh false SUCCESS) = Ok tt s' /\
      controllerPtr_ (primalSolution_ s')
      = Some (FeedforwardController (timeTrajectory_ (primalSolution_ s'))
                (inputTrajectory_ (primalSolution_ s')))
  | _ => False
  end.
Proof.
  unfold Rational.solved.
  match goal with |- ?run = ?ret /\ _ => assert (H : run = ret) by reflexivity end.
  split; [exact H | ].
  eapply runImpl_feedforward in H; [ | reflexivity].
  exact (proj1 H).
Defined.

(* A freshly constructed solver asked for a feedback controller without an
   SQP iteration *)
Lemma runImpl_no_iterations_witness :
  sqpIteration (Rational.settings 0 true false) = 0%nat /\
  forall s',
    runImpl (P := Rational.problem false SUCCESS) (Rational.settings 0 true false)
      10 0%Q [1%Q] 1%Q [] (Rational.fresh false SUCCESS) <> Ok tt s'.
Proof.
  split; [reflexivity | ].
  exact (proj2 (runImpl_no_iterations (P := Rational.problem false SUCCESS)
                  (Rational.settings 0 true false) 10 0%Q [1%Q] 1%Q []
                  (Rational.fresh false SUCCESS) eq_refl)
           eq_refl eq_refl).
Defined.

(** ** A solve ends when the step size decays to alpha_min *)

Section Termination.
Context {S : Scalar} {D : Dense S} {P : Problem}.
Variable settings_ : Settings.

Lemma fuelfree_setter {A} (m : M (P := P) A) :
  (forall s, exists a s', m s = Ok a s') -> fuelfree m.
Proof. intros H s. destruct (H s) as (a & s' & ->). discriminate. Qed.

Lemma fuelfree_back {A} (v : list A) : fuelfree (P := P) (back v).
Proof. unfold back. destruct (rev v); intros s; discriminate. Qed.

Lemma fuelfree_setupQuadraticSubproblem time initState x u :
  fuelfree (setupQuadraticSubproblem (P := P) settings_ time initState x u).
Proof.
  unfold setupQuadraticSubproblem, intermediateNode, accountInitState, determineSize,
    constraintPtr_front, sumPerformance.
  repeat first
    [ frame_step
    | apply fuelfree_setter; intros ?; eexists _, _; reflexivity
    | match goal with |- fuelfree (match ?l with _ => _ end) => destruct l end
    | intros ?; discriminate ].
Qed.

Lemma fuelfree_getOCPSolution delta_x0 :
  fuelfree (getOCPSolution (P := P) settings_ delta_x0).
Proof.
  unfold getOCPSolution, remapInput, constraintPtr_front.
  repeat first
    [ frame_step
    | apply fuelfree_setter; intros ?; eexists _, _; reflexivity
    | intros ?; discriminate ].
Qed.

(* The SQP loop needs no more fuel than its line searches. *)
Lemma fuelfree_sqpLoop fuel :
  (forall baseline time initState dx du x u s,
     takeStep (P := P) settings_ fuel baseline time initState dx du x u s <> OutOfFuel) ->
  forall iterations time initState x u,
    fuelfree (sqpLoop (P := P) settings_ fuel iterations time initState x u).
Proof.
  intros Hstep. induction iterations as [ | n IH]; intros time initState x u; cbn.
  - apply fuelfree_ret.
  - repeat first
      [ apply fuelfree_setupQuadraticSubproblem | apply fuelfree_getOCPSolution
      | apply IH | apply fuelfree_back
      | match goal with |- fuelfree (takeStep _ _ _ _ _ _ _ _ _) =>
          intros s; apply Hstep end
      | frame_step
      | apply fuelfree_setter; intros ?; eexists _, _; reflexivity ].
Qed.

(** X13.  Whatever the scalars, if the step size after [k] rejections (1
    multiplied [k] times by [alpha_decay], as the code computes it) is not
    above [alpha_min], then [k + 1] passes are enough for every line
    search, and every [runImpl] ends: it returns, throws or runs into
    undefined behaviour, whatever the problem and the arguments.  (Over the
    rationals such a [k] exists when [0 < alpha_decay < 1] and
    [0 < alpha_min]; in floating point the product is rounded and a [k]
    need not exist.) *)
Theorem runImpl_terminates k fuel :
  (alphaAfter settings_ k >? alpha_min settings_)%S = false ->
  (k < fuel)%nat ->
  forall initTime initState finalTime partitioningTimes s,
    runImpl settings_ fuel initTime initState finalTime partitioningTimes s
    <> OutOfFuel.
Proof.
  intros Hk Hfuel initTime initState finalTime partitioningTimes.
  assert (Hstep : forall baseline time initState dx du x u s,
             takeStep settings_ fuel baseline time initState dx du x u s <> OutOfFuel).
  { intros baseline time initState' dx du x u s. unfold takeStep.
    eapply (takeStep_while_returns (n := k) (k := 0));
      [apply tries_first | exact Hk | exact Hfuel]. }
  change (fuelfree (runImpl settings_ fuel initTime initState finalTime
                      partitioningTimes)).
  unfold runImpl, initializeStateTrajectory, initializeInputTrajectory,
    storePrimalSolution, computeController, projectedFeedback, plainFeedback,
    constraintPtr_front, setController.
  repeat first
    [ apply fuelfree_sqpLoop; exact Hstep
    | frame_step
    | apply fuelfree_setter; intros ?; eexists _, _; reflexivity
    | apply fuelfree_back
    | intros ?; discriminate ].
Qed.

End Termination.

(* Over doubles, with alpha_decay = 1/2 and alpha_min = 1/8: the step size
   after three rejections is 1/8, and four passes are enough. *)
Lemma runImpl_terminates_witness :
  runImpl (P := Double.problem Double.alternating) Double.settings 4
    PrimFloat.zero Double.start PrimFloat.one [] (Double.fresh Double.alternating)
  <> OutOfFuel.
Proof.
  apply (runImpl_terminates (P := Double.problem Double.alternating)
           Double.settings (k := 3)); [reflexivity | lia].
Defined.

(** ** The blocks of an earlier solve *)

Section StaleBlocks.
Context {S : Scalar} {D : Dense S} {P : Problem}.
Variable settings_ : Settings.

Lemma sameButBlocks_refl s : sameButBlocks s s.
Proof. repeat split. Qed.

Lemma agree_refl {A} (o : outcome A) : agree o o.
Proof. destruct o; cbn; auto using sameButBlocks_refl. Qed.

Lemma blind_stateless {A} (m : M A) : stateless m -> blind m.
Proof. intros H s t _. apply H. Qed.

Lemma agree_bind {A B} (m : M A) (k : A -> M B) s t :
  blind m -> sameButBlocks s t ->
  (forall a, agree (k a s) (k a t)) ->
  agree (bind m k s) (bind m k t).
Proof.
  intros Hm Hst Hk. unfold bind.
  pose proof (Hm s s (sameButBlocks_refl s)) as Hs. rewrite (Hm s t Hst).
  destruct (m s) as [a s' | what s' | | ] eqn:E; rewrite ?E in Hs; cbn; auto.
  - injection Hs as ->. apply Hk.
  - injection Hs as ->. now split.
Qed.

Lemma agree_bind_agree {A B} (m : M A) (k : A -> M B) s t :
  agree (m s) (m t) -> agree (bind m k s) (bind m k t).
Proof.
  unfold bind. destruct (m s) as [a s' | what s' | | ], (m t) as [b t' | what' t' | | ];
    cbn; try tauto.
  intros [-> ->]. apply agree_refl.
Qed.

Lemma agree_bind_setter {A B} (m : M A) (k : A -> M B) s t a s1 t1 :
  m s = Ok a s1 -> m t = Ok a t1 ->
  agree (k a s1) (k a t1) ->
  agree (bind m k s) (bind m k t).
Proof. intros Hs Ht Hk. unfold bind. now rewrite Hs, Ht. Qed.

Lemma blind_get_bind {A} (k : Solver -> M A) :
  (forall a, stateless (k a)) ->
  (forall s t, sameButBlocks s t -> k t = k s) ->
  blind (bind get k).
Proof.
  intros Hk Hsame s t Hst. unfold bind, get. rewrite (Hsame s t Hst). apply Hk.
Qed.

Lemma blind_initializeStateTrajectory initState time N :
  blind (initializeStateTrajectory initState time N).
Proof.
  unfold initializeStateTrajectory. apply blind_get_bind.
  - intros a. repeat stateless_step.
  - intros s t (Hp & _ & Hn & _). now rewrite Hp, Hn.
Qed.

Lemma blind_initializeInputTrajectory time x N :
  blind (initializeInputTrajectory settings_ time x N).
Proof.
  unfold initializeInputTrajectory. apply blind_get_bind.
  - intros a. repeat stateless_step.
  - intros s t (Hp & _ & Hn & _). now rewrite Hp, Hn.
Qed.

(* Assembling the subproblem overwrites the blocks before it reads one. *)
Lemma agree_setupQuadraticSubproblem time initState x u s t :
  sameButBlocks s t ->
  agree (setupQuadraticSubproblem settings_ time initState x u s)
        (setupQuadraticSubproblem settings_ time initState x u t).
Proof.
  intros Hst. unfold setupQuadraticSubproblem.
  destruct (horizon time <? 0)%Z; [cbn; now split | ].
  eapply agree_bind_setter;
    [ reflexivity
    | unfold nextRegion; rewrite (proj2 (proj2 (proj2 (proj2 Hst)))); reflexivity | ].
  match goal with |- agree (bind ?m ?k ?s1) (bind ?m' ?k' ?t1) =>
    assert (Hst' : sameButBlocks s1 t1)
      by (destruct Hst as (? & ? & ? & ? & ?); repeat split; cbn; congruence) end.
  clear Hst. rename Hst' into Hst.
  apply agree_bind; [ | exact Hst | intros nodes].
  { apply blind_stateless, stateless_mapM. intros i. apply stateless_intermediateNode. }
  apply agree_bind; [apply blind_stateless, stateless_at | exact Hst | intros tN].
  apply agree_bind; [apply blind_stateless, stateless_at | exact Hst | intros xN].
  apply agree_bind_agree. destruct Hst as (Hp & Hl & Hn & Hh & Hr).
  cbn in Hp, Hl, Hn, Hh, Hr |- *. split; [reflexivity | ].
  now rewrite Hp, Hl, Hn, Hh.
Qed.

(** X14.  With [sqpIteration >= 1], [runImpl] reads none of the blocks
    [dynamics_], [cost_], [constraints_] that an earlier solve has left:
    from two solvers that differ in these blocks only it ends alike, with
    the same result in the same state (or the same exception); the first
    [setupQuadraticSubproblem] overwrites them all before one is read. *)
Theorem stale_blocks_unread fuel initTime initState finalTime partitioningTimes s t :
  sameButBlocks s t ->
  (0 < sqpIteration settings_)%nat ->
  agree (runImpl settings_ fuel initTime initState finalTime partitioningTimes s)
        (runImpl settings_ fuel initTime initState finalTime partitioningTimes t).
Proof.
  intros Hst Hiter. unfold runImpl.
  apply agree_bind; [apply blind_initializeStateTrajectory | exact Hst | intros x].
  apply agree_bind; [apply blind_initializeInputTrajectory | exact Hst | intros u].
  eapply agree_bind_setter; [reflexivity | reflexivity | ].
  apply agree_bind_agree.
  destruct (sqpIteration settings_) as [ | n]; [lia | ].
  cbn [sqpLoop]. apply agree_bind_agree.
  apply agree_setupQuadraticSubproblem.
  destruct Hst as (Hp & Hl & Hn & Hh & Hr). repeat split; assumption.
Qed.

End StaleBlocks.

(* A fresh solver and one that holds the blocks of another problem *)
Lemma stale_blocks_unread_witness :
  sameButBlocks (Rational.fresh false SUCCESS) Rational.stale /\
  agree
    (runImpl (P := Rational.problem false SUCCESS) (Rational.settings 2 false false)
       10 0%Q [1%Q] 1%Q [] (Rational.fresh false SUCCESS))
    (runImpl (P := Rational.problem false SUCCESS) (Rational.settings 2 false false)
       10 0%Q [1%Q] 1%Q [] Rational.stale).
Proof.
  assert (H : sameButBlocks (Rational.fresh false SUCCESS) Rational.stale)
    by (repeat split).
  split; [exact H | ].
  apply (stale_blocks_unread (Rational.settings 2 false false) 10 0%Q [1%Q] 1%Q [] H).
  cbn. lia.
Defined.

(** ** Doubles: the filter and NaN *)

Module DoubleFacts.
Import Floats.

Lemma ltb_nan_l y : (nan <? y)%float = false.
Proof. rewrite FloatAxioms.ltb_spec. reflexivity. Qed.

Lemma ltb_nan_r x : (x <? nan)%float = false.
Proof.
  rewrite FloatAxioms.ltb_spec. change (Prim2SF nan) with S754_nan.
  unfold SFltb. destruct (Prim2SF x); reflexivity.
Qed.

Lemma sub_nan_l y : (nan - y)%float = nan.
Proof.
  rewrite <- (FloatAxioms.SF2Prim_Prim2SF (nan - y)), FloatAxioms.sub_spec.
  reflexivity.
Qed.

Lemma add_nan_l y : (nan + y)%float = nan.
Proof.
  rewrite <- (FloatAxioms.SF2Prim_Prim2SF (nan + y)), FloatAxioms.add_spec.
  reflexivity.
Qed.

Lemma add_nan_r x : (x + nan)%float = nan.
Proof.
  rewrite <- (FloatAxioms.SF2Prim_Prim2SF (x + nan)), FloatAxioms.add_spec.
  change (Prim2SF nan) with S754_nan. unfold SF64add, SFadd.
  destruct (Prim2SF x) as [ | [ | ] | | ]; reflexivity.
Qed.

(* The order of the doubles is strict. *)
Lemma ltb_irrefl (a : float) : (a <? a)%float = false.
Proof.
  rewrite FloatAxioms.ltb_spec. unfold SFltb, SFcompare.
  destruct (Prim2SF a) as [s | s | | s m e]; try reflexivity.
  - destruct s; reflexivity.
  - rewrite Z.compare_refl, Pos.compare_cont_refl. destruct s; reflexivity.
Qed.

(* With alpha_decay = 3/4 the step size comes to 2^-1073 after 2585
   rejections and stays there: it is above alpha_min = 2^-1074 for ever. *)
Lemma stall_early :
  forallb (fun k => (alphaAfter Double.stalling k >? alpha_min Double.stalling)%S)
    (seq 0 2586) = true.
Proof. vm_compute. reflexivity. Qed.

Lemma stall_fix k : alphaAfter Double.stalling (2585 + k) = 0x1p-1073%float.
Proof.
  induction k as [ | k IH].
  - vm_compute. reflexivity.
  - rewrite Nat.add_succ_r. cbn [alphaAfter]. rewrite IH. reflexivity.
Qed.

Lemma alphaAfter_stalls k :
  (alphaAfter Double.stalling k >? alpha_min Double.stalling)%S = true.
Proof.
  destruct (Nat.lt_ge_cases k 2586) as [Hk | Hk].
  - pose proof stall_early as H. rewrite forallb_forall in H.
    apply H. apply in_seq. lia.
  - replace k with (2585 + (k - 2585))%nat by lia. rewrite stall_fix. reflexivity.
Qed.

End DoubleFacts.

Section FilterNaN.
Import Floats.
Import Double.
Variable settings_ : Settings (S := double_Scalar).

(* A NaN in one of the three terms makes the violation NaN. *)
Lemma constraintViolation_nan (p : PerformanceIndex (S := double_Scalar)) :
  stateEqConstraintISE p = nan \/ stateInputEqConstraintISE p = nan
  \/ inequalityConstraintISE p = nan ->
  constraintViolation p = nan.
Proof.
  unfold constraintViolation. change (@s_add double_Scalar) with PrimFloat.add.
  change (@s_sqrt double_Scalar) with PrimFloat.sqrt.
  intros [-> | [-> | ->]];
    rewrite ?DoubleFacts.add_nan_l, ?DoubleFacts.add_nan_r, ?DoubleFacts.add_nan_l;
    reflexivity.
Qed.

(** X15.  Over doubles, a candidate one of whose three constraint terms is
    NaN is not rejected by the bound [g_max] on the violation (every
    comparison with a NaN is false): the filter accepts it exactly when its
    merit is below [merit_B - gamma_c v_B].  A candidate whose merit is NaN
    as well is rejected. *)
Theorem stepAccepted_nan (baseline performanceNew : PerformanceIndex) :
  stateEqConstraintISE performanceNew = nan
  \/ stateInputEqConstraintISE performanceNew = nan
  \/ inequalityConstraintISE performanceNew = nan ->
  stepAccepted settings_ baseline performanceNew
  = (merit performanceNew
       <? merit baseline - gamma_c settings_ * constraintViolation baseline)%float
  /\
  (merit performanceNew = nan ->
   stepAccepted settings_ baseline performanceNew = false).
Proof.
  intros Hnan. apply constraintViolation_nan in Hnan.
  unfold stepAccepted. rewrite Hnan.
  change (@s_ltb double_Scalar) with PrimFloat.ltb.
  rewrite DoubleFacts.ltb_nan_r, !DoubleFacts.ltb_nan_l, orb_false_r.
  split; [reflexivity | ]. intros ->. apply DoubleFacts.ltb_nan_l.
Qed.

End FilterNaN.

Lemma stepAccepted_nan_witness :
  stateEqConstraintISE Double.diverged = PrimFloat.nan /\
  stepAccepted Double.settings Double.baseline Double.diverged = true.
Proof.
  split; [reflexivity | ].
  rewrite (proj1 (stepAccepted_nan Double.settings Double.baseline Double.diverged
                    (or_introl eq_refl))).
  reflexivity.
Defined.

(** ** LeggedRobotMpcnetDefinition *)

Module LeggedRobotFacts.
Import Floats.
Import Double.
Import LeggedRobotMpcnetDefinition.

Lemma v_sub_coeff (a b : vector_t (S := double_Scalar)) i ai bi :
  nth_error a i = Some ai -> nth_error b i = Some bi ->
  coeff (v_sub a b) i = Some (ai - bi)%float.
Proof.
  unfold coeff. revert b i. induction a as [ | a0 a IH]; intros [ | b0 b] [ | i];
    cbn; try discriminate.
  - intros H1 H2. injection H1 as <-. injection H2 as <-. reflexivity.
  - apply IH.
Qed.

Lemma coeff_defined (v : vector_t (S := double_Scalar)) i :
  (i < length v)%nat -> exists c, nth_error v i = Some c.
Proof.
  intros H. destruct (nth_error v i) as [c | ] eqn:E; [now exists c | ].
  apply nth_error_None in E. lia.
Qed.

(** X16.  A state whose height, pitch and roll (coefficients 8, 10, 11) are
    NaN is reported valid, without a line on std::cerr: the deviations are
    NaN and no NaN exceeds a bound. *)
Theorem validState_nan defaultState_ x :
  length x = length defaultState_ ->
  coeff x 8 = Some nan -> coeff x 10 = Some nan -> coeff x 11 = Some nan ->
  validState defaultState_ x = Some (true, []).
Proof.
  intros Hlen H8 H10 H11. unfold validState.
  rewrite Hlen, Nat.eqb_refl. cbn [negb].
  assert (Hx : (11 < length x)%nat) by (apply nth_error_Some; unfold coeff in H11; congruence).
  destruct (@coeff_defined defaultState_ 8 ltac:(lia)) as (r8 & Hr8).
  destruct (@coeff_defined defaultState_ 10 ltac:(lia)) as (r10 & Hr10).
  destruct (@coeff_defined defaultState_ 11 ltac:(lia)) as (r11 & Hr11).
  rewrite (v_sub_coeff _ _ _ H8 Hr8), (v_sub_coeff _ _ _ H10 Hr10),
    (v_sub_coeff _ _ _ H11 Hr11).
  rewrite !DoubleFacts.sub_nan_l. change (abs nan) with nan.
  rewrite !DoubleFacts.ltb_nan_r. reflexivity.
Qed.


Lemma assign_middle {A} (pre : list A) o post e :
  assign (pre ++ o :: post) (length pre) e = Some (pre ++ e :: post).
Proof.
  induction pre as [ | a pre IH]; cbn; [reflexivity | ]. now rewrite IH.
Qed.

(* A loop of getGeneralizedTime overwrites its block and nothing else. *)
Lemma fill_block entry vals :
  forall first pre old post,
    length pre = first -> length old = length vals ->
    (forall j e, nth_error vals j = Some e -> entry (first + j)%nat = Some e) ->
    fill entry first (length vals) (pre ++ old ++ post) = Some (pre ++ vals ++ post).
Proof.
  unfold fill.
  induction vals as [ | e vals IH]; intros first pre old post Hpre Hold Hentry.
  - destruct old; [reflexivity | discriminate].
  - destruct old as [ | o old]; [discriminate | ].
    cbn [length seq fold_left].
    rewrite <- (Nat.add_0_r first) at 2.
    rewrite (Hentry 0%nat e eq_refl). rewrite <- Hpre at 2.
    cbn [app]. rewrite assign_middle.
    replace (pre ++ e :: old ++ post) with ((pre ++ [e]) ++ old ++ post)
      by (rewrite <- app_assoc; reflexivity).
    rewrite (IH (Datatypes.S first) (pre ++ [e]) old post).
    + rewrite <- app_assoc. reflexivity.
    + rewrite length_app. cbn. lia.
    + now injection Hold.
    + intros j e' Hj.
      replace (Datatypes.S first + j)%nat with (first + Datatypes.S j)%nat by lia.
      apply Hentry. exact Hj.
Qed.

Section GeneralizedTimeFacts.
Variable NUM_CONTACT_POINTS : nat.
Variable getSwingPhasePerLeg : float -> ModeSchedule (S := double_Scalar) -> list LegPhase.
Variable sin : float -> float.

Lemma getGeneralizedTime_Some garbage t modeSchedule :
  let legs := getSwingPhasePerLeg t modeSchedule in
  length legs = NUM_CONTACT_POINTS ->
  getGeneralizedTime NUM_CONTACT_POINTS getSwingPhasePerLeg sin garbage t modeSchedule
  = Some (map (fun l => if (phase l <? 0)%float then 0%float else phase l) legs
          ++ map (fun l => if (phase l <? 0)%float then 0%float
                           else (1 / duration l)%float) legs
          ++ map (fun l => if (phase l <? 0)%float then 0%float
                           else sin (M_PI * phase l)%float) legs).
Proof.
  intros legs Hlen. unfold getGeneralizedTime. fold legs.
  set (n := NUM_CONTACT_POINTS) in *.
  assert (Hleg : forall k j, (j < n)%nat ->
             nth_error legs (Nat.modulo (k * n + j) n) = nth_error legs j).
  { intros k j Hj. rewrite Nat.add_comm, Nat.Div0.mod_add, Nat.mod_small by lia.
    reflexivity. }
  assert (Hentry : forall k (g : LegPhase -> float) j e,
             nth_error (map g legs) j = Some e ->
             option_map g (nth_error legs (Nat.modulo (k * n + j) n)) = Some e).
  { intros k g j e Hj.
    assert (j < n)%nat.
    { rewrite <- Hlen, <- (length_map g). apply nth_error_Some. congruence. }
    rewrite Hleg by assumption. now rewrite <- nth_error_map. }
  replace (repeat garbage (3 * n))
    with ([] ++ repeat garbage n ++ (repeat garbage n ++ repeat garbage n))
    by (cbn [app]; rewrite <- !repeat_app; f_equal; lia).
  set (f1 := fun l => if (phase l <? 0)%float then 0%float else phase l).
  set (f2 := fun l => if (phase l <? 0)%float then 0%float else (1 / duration l)%float).
  set (f3 := fun l => if (phase l <? 0)%float then 0%float else sin (M_PI * phase l)%float).
  assert (L1 : length (map f1 legs) = n) by now rewrite length_map.
  assert (L2 : length (map f2 legs) = n) by now rewrite length_map.
  assert (L3 : length (map f3 legs) = n) by now rewrite length_map.
  rewrite <- L1 at 2. rewrite fill_block.
  2:{ cbn. lia. }
  2:{ rewrite repeat_length. lia. }
  2:{ intros j e Hj. apply (Hentry 0%nat f1). exact Hj. }
  cbn [app].
  replace (map f1 legs ++ repeat garbage n ++ repeat garbage n)
    with (map f1 legs ++ repeat garbage n ++ (repeat garbage n ++ []))
    by now rewrite app_nil_r.
  rewrite <- L2 at 2. rewrite fill_block.
  2:{ lia. }
  2:{ rewrite repeat_length. lia. }
  2:{ intros j e Hj. apply (Hentry 1%nat f2). exact Hj. }
  replace (map f1 legs ++ map f2 legs ++ repeat garbage n ++ [])
    with ((map f1 legs ++ map f2 legs) ++ repeat garbage n ++ [])
    by now rewrite <- app_assoc.
  rewrite <- L3 at 2. rewrite fill_block.
  2:{ rewrite length_app. lia. }
  2:{ rewrite repeat_length. lia. }
  2:{ intros j e Hj. apply (Hentry 2%nat f3). exact Hj. }
  rewrite app_nil_r, <- app_assoc. reflexivity.
Qed.

(** X18.  With one [LegPhase] per contact point, [getGeneralizedTime]
    returns three blocks of [NUM_CONTACT_POINTS] coefficients each (every
    coefficient is written, whatever resize has left there): for leg [k],
    the phase, the phase rate [1 / duration] and [sin (pi phase)], or three
    zeros when the leg is in stance (its phase is negative).  No
    coefficient of the first block is negative. *)
Theorem getGeneralizedTime_blocks garbage t modeSchedule :
  let legs := getSwingPhasePerLeg t modeSchedule in
  length legs = NUM_CONTACT_POINTS ->
  exists phases rates sines,
    getGeneralizedTime NUM_CONTACT_POINTS getSwingPhasePerLeg sin garbage t modeSchedule
    = Some (phases ++ rates ++ sines) /\
    length phases = NUM_CONTACT_POINTS /\
    length rates = NUM_CONTACT_POINTS /\
    length sines = NUM_CONTACT_POINTS /\
    (forall k l, nth_error legs k = Some l ->
       if (phase l <? 0)%float then
         nth_error phases k = Some 0%float /\
         nth_error rates k = Some 0%float /\
         nth_error sines k = Some 0%float
       else
         nth_error phases k = Some (phase l) /\
         nth_error rates k = Some (1 / duration l)%float /\
         nth_error sines k = Some (sin (M_PI * phase l)%float)) /\
    (forall k e, nth_error phases k = Some e -> (e <? 0)%float = false).
Proof.
  intros legs Hlen. eexists _, _, _.
  split; [exact (getGeneralizedTime_Some garbage t modeSchedule Hlen) | ].
  fold legs. rewrite !length_map.
  do 3 (split; [exact Hlen | ]). split.
  - intros k l Hk. rewrite !nth_error_map, Hk. cbn [option_map].
    destruct (phase l <? 0)%float; repeat split.
  - intros k e Hk. rewrite nth_error_map in Hk.
    destruct (nth_error legs k) as [l | ]; [ | discriminate].
    cbn in Hk. injection Hk as <-.
    destruct (phase l <? 0)%float eqn:Hphase; [reflexivity | exact Hphase].
Qed.

End GeneralizedTimeFacts.

End LeggedRobotFacts.

Lemma validState_nan_witness :
  LeggedRobotMpcnetDefinition.validState
    (repeat PrimFloat.zero 12) LeggedRobotMpcnetDefinition.lost
  = Some (true, []).
Proof.
  apply LeggedRobotFacts.validState_nan; reflexivity.
Defined.


(* A trot: the legs 0 and 3 swing, the legs 1 and 2 stand. *)
Lemma getGeneralizedTime_blocks_witness :
  exists phases rates sines,
    LeggedRobotMpcnetDefinition.getGeneralizedTime 4
      (fun _ _ => LeggedRobotMpcnetDefinition.trot) LeggedRobotMpcnetDefinition.sine
      PrimFloat.nan PrimFloat.zero {| modeSequence := [0%nat]; eventTimes := [] |}
    = Some (phases ++ rates ++ sines) /\
    length phases = 4%nat /\
    nth_error sines 1 = Some PrimFloat.zero.
Proof.
  destruct (@LeggedRobotFacts.getGeneralizedTime_blocks 4%nat
              (fun _ _ => LeggedRobotMpcnetDefinition.trot)
              LeggedRobotMpcnetDefinition.sine
              PrimFloat.nan PrimFloat.zero {| modeSequence := [0%nat]; eventTimes := [] |}
              eq_refl)
    as (phases & rates & sines & H & Hlen & _ & _ & Hlegs & _).
  exists phases, rates, sines. split; [exact H | ]. split; [exact Hlen | ].
  exact (proj2 (proj2 (Hlegs 1%nat _ eq_refl))).
Defined.
